(** * ResilientWebsocketProvider: a model of src/scripts/web-socket-connection.ts

    The class keeps one websocket to a node alive.  Its handlers run one at a
    time on the event loop; each handler is modelled as a function on a
    [World]: the fields of the instance together with the part of the
    runtime the handlers touch (pending timers, the sockets created so far,
    the promise returned by [connect], and a chronological trace of the calls
    made to the outside).  The node, the listeners and the socket transport
    are external: what they answer is given by an [Env].

    Modelling decisions, where the source leaves room:
    - [subscriptions] is a JS [Set] of object literals.  Every [add] is passed
      a fresh object, so nothing is ever deduplicated and iteration follows
      insertion: a list, appended at the end.
    - JS numbers are modelled as [Z] (attempt counts and block numbers stay
      far below 2^53).
    - A handler that awaits (the open handler, [pollEvents], [resubscribe])
      is run to its end before the next event; the two readiness loops of the
      open handler either pass or never do ([InitNeverReady]).
    - Listeners do not call back into the instance; [ping] and [terminate] on
      the transport do not raise.  For [ping] this is so on an open socket;
      [ws] is an open socket at every probe as long as no initialization has
      raised, and the properties of the watchdog are stated for such runs.
    - [NewProvider] records a provider when the open handler has passed its
      readiness loops, where it assigns [provider] (line 86).  The loops read
      [ws]; they are the loops of the opening socket when that socket is
      [ws], which is so as long as no initialization has raised.
    - [resubscribe] calls the native [on]: it is called by the open handler
      only, on the provider that handler has just built; the wrapper of
      [createResilientProviders] sits on the provider handed to the client.
    - Timers carry a handle, a due time and a period; the pending timer that
      is due first fires first.  A socket emits "open" at most once and
      "close" at most once, and nothing after "close". *)

From Stdlib Require Import ZArith List String Bool Lia Arith Permutation.
Import ListNotations.
Open Scope Z_scope.

(** ** Constants (lines 4-8) *)

Definition EXPECTED_PONG_BACK : Z := 15000.
Definition KEEP_ALIVE_CHECK_INTERVAL : Z := 60 * 1000.
Definition MAX_RECONNECTION_ATTEMPTS : Z := 10.
Definition RECONNECTION_DELAY : Z := 5000.
Definition EVENT_POLL_INTERVAL : Z := 60 * 1000.

(** ** Data *)

Definition SockId := nat.
Definition TimerId := nat.
Definition ListenerId := nat.
(** A [WebSocketProvider] is identified by the socket it was built over. *)
Definition ProviderId := nat.

(** ethers' [ProviderEvent]: a string, or a topic array / filter object. *)
Inductive ProviderEvent :=
| PEString (s : string)
| PEOther (n : nat).

Record Subscription := { type : ProviderEvent; listener : ListenerId }.

Record Log := { log_address : string; blockNumber : Z; logIndex : Z }.

Record Filter := { address : string; fromBlock : Z; toBlock : Z }.

Inductive Error :=
| ErrBlockNumber
| ErrGetLogs (f : Filter)
| ErrListener (l : ListenerId) (g : Log)
| ErrOn (ev : ProviderEvent) (l : ListenerId)
| ErrInit.

Inductive Outcome (A : Type) :=
| Ok (a : A)
| Throw (e : Error).
Arguments Ok {A} a.
Arguments Throw {A} e.

(** What the open handler's [try] block meets before [resubscribe]. *)
Inductive InitResult := InitReady | InitThrows | InitNeverReady.

(** The answers of the external collaborators during one handler. *)
Record Env := {
  getBlockNumber : Outcome Z;
  getLogs : Filter -> Outcome (list Log);
  call_listener : ListenerId -> Log -> Outcome unit;
  native_on : ProviderId -> ProviderEvent -> ListenerId -> Outcome ProviderId;
  init_provider : InitResult
}.

(** The four callbacks the class hands to [setTimeout] / [setInterval]:
    [startConnection], the keep-alive probe, the pong timeout, the poll. *)
Inductive TimerKind := TRetry | TKeepAlive | TPingTimeout | TEventPoll.

Record Timer := {
  timer_id : TimerId;
  kind : TimerKind;
  due : Z;
  period : option Z
}.

Inductive ReadyState := CONNECTING | OPEN | CLOSED.

(** Calls that leave the instance, in the order they are made. *)
Inductive Effect :=
| NewSocket (s : SockId)
| Resolve (p : option ProviderId)
| Ping (s : SockId)
| Terminate (s : SockId)
| NewProvider (p : ProviderId)
| On (p : ProviderId) (ev : ProviderEvent) (l : ListenerId)
| GetBlockNumber
| GetLogs (f : Filter)
| Call (l : ListenerId) (g : Log)
| Report (e : option Error)
| Unhandled (e : Error).

(** The fields of the class (lines 20-31). *)
Record ResilientWebsocketProvider := {
  terminate : bool;
  pingTimeout : option TimerId;
  keepAliveInterval : option TimerId;
  eventPollInterval : option TimerId;
  ws : option SockId;
  provider : option ProviderId;
  subscriptions : list Subscription;
  reconnectionAttempts : Z;
  isConnected : bool;
  lastProcessedBlock : Z
}.

(** constructor (lines 33-46) *)
Definition constructor : ResilientWebsocketProvider :=
  {| terminate := false; pingTimeout := None; keepAliveInterval := None;
     eventPollInterval := None; ws := None; provider := None;
     subscriptions := []; reconnectionAttempts := 0; isConnected := false;
     lastProcessedBlock := 0 |}.

Record World := {
  this : ResilientWebsocketProvider;
  clock : Z;
  next_timer : TimerId;
  timers : list Timer;
  sockets : list ReadyState;
  resolved : option (option ProviderId);
  trace : list Effect
}.

(** ** Field updates *)

Definition set_terminate (b : bool) (o : ResilientWebsocketProvider) :=
  {| terminate := b; pingTimeout := pingTimeout o;
     keepAliveInterval := keepAliveInterval o;
     eventPollInterval := eventPollInterval o; ws := ws o;
     provider := provider o; subscriptions := subscriptions o;
     reconnectionAttempts := reconnectionAttempts o;
     isConnected := isConnected o;
     lastProcessedBlock := lastProcessedBlock o |}.

Definition set_pingTimeout (t : option TimerId) (o : ResilientWebsocketProvider) :=
  {| terminate := terminate o; pingTimeout := t;
     keepAliveInterval := keepAliveInterval o;
     eventPollInterval := eventPollInterval o; ws := ws o;
     provider := provider o; subscriptions := subscriptions o;
     reconnectionAttempts := reconnectionAttempts o;
     isConnected := isConnected o;
     lastProcessedBlock := lastProcessedBlock o |}.

Definition set_keepAliveInterval (t : option TimerId) (o : ResilientWebsocketProvider) :=
  {| terminate := terminate o; pingTimeout := pingTimeout o;
     keepAliveInterval := t;
     eventPollInterval := eventPollInterval o; ws := ws o;
     provider := provider o; subscriptions := subscriptions o;
     reconnectionAttempts := reconnectionAttempts o;
     isConnected := isConnected o;
     lastProcessedBlock := lastProcessedBlock o |}.

Definition set_eventPollInterval (t : option TimerId) (o : ResilientWebsocketProvider) :=
  {| terminate := terminate o; pingTimeout := pingTimeout o;
     keepAliveInterval := keepAliveInterval o;
     eventPollInterval := t; ws := ws o;
     provider := provider o; subscriptions := subscriptions o;
     reconnectionAttempts := reconnectionAttempts o;
     isConnected := isConnected o;
     lastProcessedBlock := lastProcessedBlock o |}.

Definition set_ws (s : option SockId) (o : ResilientWebsocketProvider) :=
  {| terminate := terminate o; pingTimeout := pingTimeout o;
     keepAliveInterval := keepAliveInterval o;
     eventPollInterval := eventPollInterval o; ws := s;
     provider := provider o; subscriptions := subscriptions o;
     reconnectionAttempts := reconnectionAttempts o;
     isConnected := isConnected o;
     lastProcessedBlock := lastProcessedBlock o |}.

Definition set_provider (p : option ProviderId) (o : ResilientWebsocketProvider) :=
  {| terminate := terminate o; pingTimeout := pingTimeout o;
     keepAliveInterval := keepAliveInterval o;
     eventPollInterval := eventPollInterval o; ws := ws o;
     provider := p; subscriptions := subscriptions o;
     reconnectionAttempts := reconnectionAttempts o;
     isConnected := isConnected o;
     lastProcessedBlock := lastProcessedBlock o |}.

Definition set_subscriptions (l : list Subscription) (o : ResilientWebsocketProvider) :=
  {| terminate := terminate o; pingTimeout := pingTimeout o;
     keepAliveInterval := keepAliveInterval o;
     eventPollInterval := eventPollInterval o; ws := ws o;
     provider := provider o; subscriptions := l;
     reconnectionAttempts := reconnectionAttempts o;
     isConnected := isConnected o;
     lastProcessedBlock := lastProcessedBlock o |}.

Definition set_reconnectionAttempts (n : Z) (o : ResilientWebsocketProvider) :=
  {| terminate := terminate o; pingTimeout := pingTimeout o;
     keepAliveInterval := keepAliveInterval o;
     eventPollInterval := eventPollInterval o; ws := ws o;
     provider := provider o; subscriptions := subscriptions o;
     reconnectionAttempts := n;
     isConnected := isConnected o;
     lastProcessedBlock := lastProcessedBlock o |}.

Definition set_isConnected (b : bool) (o : ResilientWebsocketProvider) :=
  {| terminate := terminate o; pingTimeout := pingTimeout o;
     keepAliveInterval := keepAliveInterval o;
     eventPollInterval := eventPollInterval o; ws := ws o;
     provider := provider o; subscriptions := subscriptions o;
     reconnectionAttempts := reconnectionAttempts o;
     isConnected := b;
     lastProcessedBlock := lastProcessedBlock o |}.

Definition set_lastProcessedBlock (n : Z) (o : ResilientWebsocketProvider) :=
  {| terminate := terminate o; pingTimeout := pingTimeout o;
     keepAliveInterval := keepAliveInterval o;
     eventPollInterval := eventPollInterval o; ws := ws o;
     provider := provider o; subscriptions := subscriptions o;
     reconnectionAttempts := reconnectionAttempts o;
     isConnected := isConnected o;
     lastProcessedBlock := n |}.

Definition with_this (f : ResilientWebsocketProvider -> ResilientWebsocketProvider)
  (w : World) : World :=
  {| this := f (this w); clock := clock w; next_timer := next_timer w;
     timers := timers w; sockets := sockets w; resolved := resolved w;
     trace := trace w |}.

Definition with_timers (ts : list Timer) (w : World) : World :=
  {| this := this w; clock := clock w; next_timer := next_timer w;
     timers := ts; sockets := sockets w; resolved := resolved w;
     trace := trace w |}.

Definition with_clock (c : Z) (w : World) : World :=
  {| this := this w; clock := c; next_timer := next_timer w;
     timers := timers w; sockets := sockets w; resolved := resolved w;
     trace := trace w |}.

Definition with_next_timer (n : TimerId) (w : World) : World :=
  {| this := this w; clock := clock w; next_timer := n;
     timers := timers w; sockets := sockets w; resolved := resolved w;
     trace := trace w |}.

Definition with_sockets (ss : list ReadyState) (w : World) : World :=
  {| this := this w; clock := clock w; next_timer := next_timer w;
     timers := timers w; sockets := ss; resolved := resolved w;
     trace := trace w |}.

Definition with_resolved (r : option (option ProviderId)) (w : World) : World :=
  {| this := this w; clock := clock w; next_timer := next_timer w;
     timers := timers w; sockets := sockets w; resolved := r;
     trace := trace w |}.

Definition with_trace (tr : list Effect) (w : World) : World :=
  {| this := this w; clock := clock w; next_timer := next_timer w;
     timers := timers w; sockets := sockets w; resolved := resolved w;
     trace := tr |}.

(** ** A state-and-exception monad for handler bodies *)

Definition M (A : Type) := World -> Outcome A * World.

Definition ret {A} (a : A) : M A := fun w => (Ok a, w).

Definition bind {A B} (m : M A) (k : A -> M B) : M B :=
  fun w => match m w with
           | (Ok a, w') => k a w'
           | (Throw e, w') => (Throw e, w')
           end.

Definition lift {A} (o : Outcome A) : M A := fun w => (o, w).

Definition try_catch {A} (m : M A) (handler : Error -> M A) : M A :=
  fun w => match m w with
           | (Ok a, w') => (Ok a, w')
           | (Throw e, w') => handler e w'
           end.

Definition get {A} (f : ResilientWebsocketProvider -> A) : M A :=
  fun w => (Ok (f (this w)), w).

Definition modify (f : ResilientWebsocketProvider -> ResilientWebsocketProvider)
  : M unit :=
  fun w => (Ok tt, with_this f w).

Definition emit (e : Effect) : M unit :=
  fun w => (Ok tt, with_trace (trace w ++ [e]) w).

Declare Scope handler_scope.
Delimit Scope handler_scope with handler.
Notation "x <- m ;; k" := (bind m (fun x => k))
  (at level 61, m at next level, right associativity) : handler_scope.
Notation "m ;; k" := (bind m (fun _ => k))
  (at level 61, right associativity) : handler_scope.
Open Scope handler_scope.

(** [for (const x of xs) body(x)]: an exception leaves the loop. *)
Fixpoint for_of {A} (xs : list A) (body : A -> M unit) : M unit :=
  match xs with
  | [] => ret tt
  | x :: rest => body x ;; for_of rest body
  end.

Definition exec {A} (m : M A) (w : World) : World := snd (m w).

(** ** Timers of the runtime *)

Definition setTimeout (k : TimerKind) (delay : Z) : M TimerId :=
  fun w =>
    let id := next_timer w in
    (Ok id,
     with_next_timer (S id)
       (with_timers (timers w ++
          [{| timer_id := id; kind := k; due := clock w + delay;
              period := None |}]) w)).

Definition setInterval (k : TimerKind) (delay : Z) : M TimerId :=
  fun w =>
    let id := next_timer w in
    (Ok id,
     with_next_timer (S id)
       (with_timers (timers w ++
          [{| timer_id := id; kind := k; due := clock w + delay;
              period := Some delay |}]) w)).

(** [clearTimeout] and [clearInterval]: a handle that is no longer pending is
    ignored. *)
Definition clearTimeout (id : TimerId) : M unit :=
  fun w =>
    (Ok tt,
     with_timers (filter (fun t => negb (Nat.eqb (timer_id t) id)) (timers w)) w).

(** [if (h) clearTimeout(h)] *)
Definition clear_if_set (h : option TimerId) : M unit :=
  match h with
  | Some id => clearTimeout id
  | None => ret tt
  end.

(** ** pollEvents (lines 151-185) *)

Definition is_block (ev : ProviderEvent) : bool :=
  match ev with
  | PEString s => String.eqb s "block"
  | PEOther _ => false
  end.

(** [typeof type === "string" && type.startsWith("0x")] *)
Definition is_address (ev : ProviderEvent) : option string :=
  match ev with
  | PEString s => if String.prefix "0x" s then Some s else None
  | PEOther _ => None
  end.

Section Handlers.

Variable env : Env.

(** The body of the loop of [pollEvents], with its [try]/[catch]. *)
Definition poll_subscription (currentBlock : Z) (subscription : Subscription)
  : M unit :=
  try_catch
    (if is_block (type subscription) then
       modify (set_lastProcessedBlock currentBlock)
     else
       match is_address (type subscription) with
       | Some a =>
           last <- get lastProcessedBlock ;;
           let filter := {| address := a; fromBlock := last + 1;
                            toBlock := currentBlock |} in
           emit (GetLogs filter) ;;
           logs <- lift (getLogs env filter) ;;
           for_of logs (fun log =>
             emit (Call (listener subscription) log) ;;
             lift (call_listener env (listener subscription) log)) ;;
           modify (set_lastProcessedBlock currentBlock)
       | None => ret tt
       end)
    (fun error => emit (Report (Some error))).

Definition pollEvents : M unit :=
  emit GetBlockNumber ;;
  currentBlock <- lift (getBlockNumber env) ;;
  subs <- get subscriptions ;;
  for_of subs (poll_subscription currentBlock).


(** ** cleanupConnection (lines 187-191) *)

Definition cleanupConnection : M unit :=
  k <- get keepAliveInterval ;;
  clear_if_set k ;;
  p <- get pingTimeout ;;
  clear_if_set p ;;
  e <- get eventPollInterval ;;
  clear_if_set e.

(** ** resubscribe (lines 193-203) *)

Definition resubscribe : M unit :=
  subs <- get subscriptions ;;
  for_of subs (fun subscription =>
    try_catch
      (p <- get provider ;;
       match p with
       | Some p =>
           emit (On p (type subscription) (listener subscription)) ;;
           _ <- lift (native_on env p (type subscription)
                        (listener subscription)) ;;
           ret tt
       | None => ret tt
       end)
      (fun error => emit (Report (Some error)))).

(** ** setupKeepAlive (lines 127-141) and its two callbacks *)

Definition setupKeepAlive : M unit :=
  id <- setInterval TKeepAlive KEEP_ALIVE_CHECK_INTERVAL ;;
  modify (set_keepAliveInterval (Some id)).

Definition keepAlive_probe : M unit :=
  s <- get ws ;;
  match s with
  | None => ret tt
  | Some s =>
      emit (Ping s) ;;
      id <- setTimeout TPingTimeout EXPECTED_PONG_BACK ;;
      modify (set_pingTimeout (Some id))
  end.

Definition pingTimeout_expired : M unit :=
  s <- get ws ;;
  match s with
  | Some s => emit (Terminate s)
  | None => ret tt
  end.

(** ** setupEventPolling (lines 143-149) and its callback *)

Definition setupEventPolling : M unit :=
  id <- setInterval TEventPoll EVENT_POLL_INTERVAL ;;
  modify (set_eventPollInterval (Some id)).

Definition eventPoll_tick : M unit :=
  p <- get provider ;;
  match p with
  | Some _ => pollEvents
  | None => ret tt
  end.

(** ** connect (lines 48-125) *)

(** [resolve] of the promise returned by [connect]: only the first call
    settles it. *)
Definition resolve (p : option ProviderId) : M unit :=
  fun w =>
    (Ok tt,
     with_trace (trace w ++ [Resolve p])
       (match resolved w with
        | None => with_resolved (Some p) w
        | Some _ => w
        end)).

(** [new WebSocket(this.url)]: the socket starts connecting. *)
Definition new_WebSocket : M SockId :=
  fun w =>
    let s := List.length (sockets w) in
    (Ok s,
     with_trace (trace w ++ [NewSocket s])
       (with_sockets (sockets w ++ [CONNECTING]) w)).

Definition startConnection : M unit :=
  attempts <- get reconnectionAttempts ;;
  if attempts >=? MAX_RECONNECTION_ATTEMPTS then
    emit (Report None) ;;
    modify (set_terminate true) ;;
    resolve None
  else
    s <- new_WebSocket ;;
    modify (set_ws (Some s)).

(** The "open" handler (lines 62-98): the statements before the [try], the
    [try] block, and the [catch] block. *)
Definition open_prelude : M unit :=
  modify (set_reconnectionAttempts 0) ;;
  modify (set_isConnected true) ;;
  setupKeepAlive ;;
  setupEventPolling.

Definition open_try (init : InitResult) : M unit :=
  match init with
  | InitThrows => lift (Throw ErrInit)
  | _ => ret tt
  end ;;
  wsp <- get ws ;;
  match wsp with
  | Some p => emit (NewProvider p)
  | None => ret tt
  end ;;
  modify (set_provider wsp) ;;
  resubscribe ;;
  p <- get provider ;;
  resolve p.

Definition open_catch (error : Error) : M unit :=
  emit (Report (Some error)) ;;
  cleanupConnection ;;
  modify (fun o =>
    set_reconnectionAttempts (reconnectionAttempts o + 1) o) ;;
  _ <- setTimeout TRetry RECONNECTION_DELAY ;;
  ret tt.

Definition on_open : M unit :=
  open_prelude ;;
  match init_provider env with
  | InitNeverReady => ret tt
  | init => try_catch (open_try init) open_catch
  end.

(** The "close" handler (lines 100-111). *)
Definition on_close : M unit :=
  emit (Report None) ;;
  modify (set_isConnected false) ;;
  cleanupConnection ;;
  stop <- get terminate ;;
  if negb stop then
    modify (fun o =>
      set_reconnectionAttempts (reconnectionAttempts o + 1) o) ;;
    _ <- setTimeout TRetry RECONNECTION_DELAY ;;
    ret tt
  else ret tt.

(** The "error" handler (lines 113-115). *)
Definition on_error : M unit := emit (Report None).

(** The "pong" handler (lines 117-120). *)
Definition on_pong : M unit :=
  p <- get pingTimeout ;;
  clear_if_set p.

Definition connect : M unit := startConnection.

(** ** createResilientProviders: the wrapped [on] (lines 221-225) *)

Definition provider_on (p : ProviderId) (eventName : ProviderEvent)
  (l : ListenerId) : M ProviderId :=
  modify (fun o =>
    set_subscriptions
      (subscriptions o ++ [{| type := eventName; listener := l |}]) o) ;;
  emit (On p eventName l) ;;
  lift (native_on env p eventName l).

(** ** The event loop *)

Definition timer_callback (k : TimerKind) : M unit :=
  match k with
  | TRetry => startConnection
  | TKeepAlive => keepAlive_probe
  | TPingTimeout => pingTimeout_expired
  | TEventPoll => eventPoll_tick
  end.

(** An exception that reaches the event loop is only recorded. *)
Definition top_level {A} (m : M A) (w : World) : World :=
  match m w with
  | (Ok _, w') => w'
  | (Throw e, w') => with_trace (trace w' ++ [Unhandled e]) w'
  end.

End Handlers.

Fixpoint update_nth {A} (n : nat) (a : A) (l : list A) : list A :=
  match l, n with
  | [], _ => []
  | _ :: rest, O => a :: rest
  | x :: rest, S n' => x :: update_nth n' a rest
  end.

Definition find_timer (id : TimerId) (ts : list Timer) : option Timer :=
  find (fun t => Nat.eqb (timer_id t) id) ts.

(** The runtime fires the pending timer that is due first. *)
Definition earliest (t : Timer) (ts : list Timer) : bool :=
  forallb (fun t' => due t <=? due t') ts.

(** A one-shot timer leaves the pending list when it fires; an interval is
    armed again one period later. *)
Definition rearm (t : Timer) (now : Z) (ts : list Timer) : list Timer :=
  match period t with
  | None => filter (fun t' => negb (Nat.eqb (timer_id t') (timer_id t))) ts
  | Some d =>
      map (fun t' =>
             if Nat.eqb (timer_id t') (timer_id t)
             then {| timer_id := timer_id t'; kind := kind t';
                     due := now + d; period := period t' |}
             else t') ts
  end.

Inductive Event :=
| SocketOpen (s : SockId)
| SocketClose (s : SockId)
| SocketError (s : SockId)
| SocketPong (s : SockId)
| TimerFires (t : TimerId)
| ClientOn (ev : ProviderEvent) (l : ListenerId).

(** One turn of the event loop.  [None]: the event cannot happen in [w]
    (a socket opens once, closes once, and is silent afterwards; only a
    pending timer fires; only a client that got a provider subscribes). *)
Definition step (env : Env) (w : World) (ev : Event) : option World :=
  match ev with
  | SocketOpen s =>
      match nth_error (sockets w) s with
      | Some CONNECTING =>
          Some (top_level (on_open env)
                  (with_sockets (update_nth s OPEN (sockets w)) w))
      | _ => None
      end
  | SocketClose s =>
      match nth_error (sockets w) s with
      | Some CONNECTING | Some OPEN =>
          Some (top_level on_close
                  (with_sockets (update_nth s CLOSED (sockets w)) w))
      | _ => None
      end
  | SocketError s =>
      match nth_error (sockets w) s with
      | Some CONNECTING | Some OPEN => Some (top_level on_error w)
      | _ => None
      end
  | SocketPong s =>
      match nth_error (sockets w) s with
      | Some OPEN => Some (top_level on_pong w)
      | _ => None
      end
  | TimerFires id =>
      match find_timer id (timers w) with
      | Some t =>
          if earliest t (timers w) then
            let now := Z.max (clock w) (due t) in
            Some (top_level (timer_callback env (kind t))
                    (with_clock now
                       (with_timers (rearm t now (timers w)) w)))
          else None
      | None => None
      end
  | ClientOn ev l =>
      match resolved w with
      | Some (Some p) => Some (top_level (provider_on env p ev l) w)
      | _ => None
      end
  end.

Fixpoint run (w : World) (evs : list (Env * Event)) : option World :=
  match evs with
  | [] => Some w
  | (env, ev) :: rest =>
      match step env w ev with
      | Some w' => run w' rest
      | None => None
      end
  end.

(** A fresh instance on which [connect()] has just been called. *)
Definition boot : World :=
  exec connect
    {| this := constructor; clock := 0; next_timer := O; timers := [];
       sockets := []; resolved := None; trace := [] |}.

(** Consecutive polling cycles, one [Env] per cycle. *)
Definition poll_cycles (envs : list Env) (w : World) : World :=
  fold_left (fun w env => top_level (pollEvents env) w) envs w.

(** ** Observations on traces and worlds *)

Definition queries (tr : list Effect) : list Filter :=
  flat_map (fun e => match e with GetLogs f => [f] | _ => [] end) tr.

Definition calls (tr : list Effect) : list (ListenerId * Log) :=
  flat_map (fun e => match e with Call l g => [(l, g)] | _ => [] end) tr.

Definition subscribes (tr : list Effect)
  : list (ProviderId * ProviderEvent * ListenerId) :=
  flat_map (fun e => match e with On p ev l => [(p, ev, l)] | _ => [] end) tr.

Definition reports (tr : list Effect) : list Error :=
  flat_map (fun e => match e with Report (Some x) => [x] | _ => [] end) tr.

Definition new_sockets (tr : list Effect) : list SockId :=
  flat_map (fun e => match e with NewSocket s => [s] | _ => [] end) tr.

Definition terminations (tr : list Effect) : list SockId :=
  flat_map (fun e => match e with Terminate s => [s] | _ => [] end) tr.

(** The watermark of a world. *)
Definition last_of (w : World) : Z := lastProcessedBlock (this w).

Definition is_retry (t : Timer) : bool :=
  match kind t with TRetry => true | _ => false end.

Definition pending_retries (w : World) : list Timer :=
  filter is_retry (timers w).

Definition is_pong_timeout (t : Timer) : bool :=
  match kind t with TPingTimeout => true | _ => false end.

Definition is_live (r : ReadyState) : bool :=
  match r with
  | CLOSED => false
  | CONNECTING | OPEN => true
  end.

(** Sockets that have not closed yet. *)
Definition live (ss : list ReadyState) : nat :=
  List.length (filter is_live ss).

(** ** Polling in closed form *)

Definition returns {A} (o : Outcome A) : bool :=
  match o with Ok _ => true | Throw _ => false end.

(** The logs a listener is actually called with: up to the first call that
    raises, that one included. *)
Fixpoint delivered (env : Env) (l : ListenerId) (logs : list Log) : list Log :=
  match logs with
  | [] => []
  | g :: rest =>
      g :: match call_listener env l g with
           | Ok _ => delivered env l rest
           | Throw _ => []
           end
  end.

Fixpoint first_error (env : Env) (l : ListenerId) (logs : list Log)
  : option Error :=
  match logs with
  | [] => None
  | g :: rest =>
      match call_listener env l g with
      | Ok _ => first_error env l rest
      | Throw e => Some e
      end
  end.

Definition all_return (env : Env) (l : ListenerId) (logs : list Log) : bool :=
  forallb (fun g => returns (call_listener env l g)) logs.

Definition logs_of (o : Outcome (list Log)) : list Log :=
  match o with
  | Ok logs => logs
  | Throw _ => []
  end.

Definition filter_for (a : string) (last currentBlock : Z) : Filter :=
  {| address := a; fromBlock := last + 1; toBlock := currentBlock |}.

(** Handling [sub] with the watermark at [last] completes without error and
    assigns the watermark. *)
Definition advances (env : Env) (last currentBlock : Z) (sub : Subscription)
  : bool :=
  is_block (type sub) ||
  match is_address (type sub) with
  | Some a =>
      match getLogs env (filter_for a last currentBlock) with
      | Ok logs => all_return env (listener sub) logs
      | Throw _ => false
      end
  | None => false
  end.

(** Handling [sub] with the watermark at [last] raises (and is caught). *)
Definition raises (env : Env) (last currentBlock : Z) (sub : Subscription)
  : bool :=
  negb (is_block (type sub)) &&
  match is_address (type sub) with
  | Some a =>
      match getLogs env (filter_for a last currentBlock) with
      | Ok logs => negb (all_return env (listener sub) logs)
      | Throw _ => true
      end
  | None => false
  end.

Definition polled (ev : ProviderEvent) : bool :=
  is_block ev || match is_address ev with Some _ => true | None => false end.

Definition address_of (sub : Subscription) : list string :=
  if is_block (type sub) then []
  else match is_address (type sub) with Some a => [a] | None => [] end.

(** The loop of [pollEvents] over [subs]. *)
Definition poll_all (env : Env) (currentBlock : Z) (subs : list Subscription)
  (w : World) : World :=
  fold_left (fun w s => exec (poll_subscription env currentBlock s) w) subs w.

(** The world in which a subscription is reached, after [getBlockNumber] and
    the subscriptions [pre] that precede it in the registry. *)
Definition poll_prefix (env : Env) (currentBlock : Z) (pre : list Subscription)
  (w : World) : World :=
  poll_all env currentBlock pre (exec (emit GetBlockNumber) w).

(** What handling one subscription adds to the trace when the watermark is
    [last]. *)
Definition sub_effects (env : Env) (last currentBlock : Z) (s : Subscription)
  : list Effect :=
  if is_block (type s) then []
  else
    match is_address (type s) with
    | None => []
    | Some a =>
        let f := filter_for a last currentBlock in
        GetLogs f ::
          match getLogs env f with
          | Throw e => [Report (Some e)]
          | Ok logs =>
              map (Call (listener s)) (delivered env (listener s) logs) ++
              match first_error env (listener s) logs with
              | Some e => [Report (Some e)]
              | None => []
              end
          end
    end.

(** The block numbers answered in successive cycles never go below [lo] nor
    below an earlier answer. *)
Fixpoint nondecreasing (lo : Z) (envs : list Env) : Prop :=
  match envs with
  | [] => True
  | env :: rest =>
      match getBlockNumber env with
      | Ok c => lo <= c /\ nondecreasing c rest
      | Throw _ => nondecreasing lo rest
      end
  end.

(** ** Replay in closed form *)

(** What [resubscribe] adds to the trace: one native [on] per entry of the
    registry, followed by a report when that call raises. *)
Definition replay_effects (env : Env) (p : ProviderId)
  (subs : list Subscription) : list Effect :=
  flat_map (fun s =>
    On p (type s) (listener s) ::
    match native_on env p (type s) (listener s) with
    | Ok _ => []
    | Throw e => [Report (Some e)]
    end) subs.

Definition replay_errors (env : Env) (p : ProviderId)
  (subs : list Subscription) : list Error :=
  flat_map (fun s =>
    match native_on env p (type s) (listener s) with
    | Ok _ => []
    | Throw e => [e]
    end) subs.

(** ** Runs *)

(** A connection attempt that fails before its socket opens: the socket held
    in [ws] closes (after any number of "error" events) and the retry timer
    the close handler schedules fires.  An attempt whose socket opens and
    whose initialization then raises is not of this kind. *)
Inductive closed_attempt : World -> World -> Prop :=
| attempt_error env w s w1 w2 :
    ws (this w) = Some s ->
    step env w (SocketError s) = Some w1 ->
    closed_attempt w1 w2 ->
    closed_attempt w w2
| attempt_close env1 env2 w s t w1 w2 :
    ws (this w) = Some s ->
    step env1 w (SocketClose s) = Some w1 ->
    step env2 w1 (TimerFires t) = Some w2 ->
    closed_attempt w w2.

Inductive closed_attempts : nat -> World -> World -> Prop :=
| attempts_O w : closed_attempts O w w
| attempts_S n w w1 w2 :
    closed_attempt w w1 ->
    closed_attempts n w1 w2 ->
    closed_attempts (S n) w w2.

Definition reachable (w : World) : Prop :=
  exists evs, run boot evs = Some w.

Definition init_never_throws (evs : list (Env * Event)) : Prop :=
  Forall (fun e => init_provider (fst e) <> InitThrows) evs.

(** ** Relations between the world before and after a handler *)

Definition respects {A} (R : World -> World -> Prop) (m : M A) : Prop :=
  forall w, R w (snd (m w)).

Definition same_watermark (w w' : World) : Prop := last_of w' = last_of w.

Definition same_registry (w w' : World) : Prop :=
  subscriptions (this w') = subscriptions (this w).

(** The class arms the keep-alive and polling callbacks as intervals with
    their constants, the other two as one-shot timers. *)
Definition well_armed (t : Timer) : Prop :=
  match kind t with
  | TKeepAlive => period t = Some KEEP_ALIVE_CHECK_INTERVAL
  | TEventPoll => period t = Some EVENT_POLL_INTERVAL
  | TRetry | TPingTimeout => period t = None
  end.

(** A handler only drops pending timers or adds well-armed ones under fresh
    handles. *)
Definition timers_grow (w w' : World) : Prop :=
  (next_timer w <= next_timer w')%nat /\
  forall t, In t (timers w') ->
    In t (timers w) \/
    ((next_timer w <= timer_id t < next_timer w')%nat /\ well_armed t).

Definition keeps_socket (w w' : World) : Prop :=
  ws (this w) <> None -> ws (this w') <> None.

(** What every handler of the socket and of the timers guarantees. *)
Definition steady (w w' : World) : Prop :=
  same_registry w w' /\ timers_grow w w' /\ keeps_socket w w'.

(** A handler that neither schedules a retry nor touches the sockets. *)
Definition calm (w w' : World) : Prop :=
  (List.length (pending_retries w') <= List.length (pending_retries w))%nat /\
  sockets w' = sockets w.

(** A handler that does not call [terminate] on a socket. *)
Definition no_terminate (w w' : World) : Prop :=
  terminations (trace w') = terminations (trace w).

(** ** Invariants *)

(** Every pending timer was handed out before [next_timer] and is armed the
    way the class arms it, and a socket has been created. *)
Definition sane (w : World) : Prop :=
  (forall t, In t (timers w) ->
     (timer_id t < next_timer w)%nat /\ well_armed t) /\
  ws (this w) <> None.

(** [k] attempts have failed and attempt [k] is under way: socket [k] is
    connecting, nothing is pending. *)
Definition attempting (k : nat) (w : World) : Prop :=
  this w
  = {| terminate := false; pingTimeout := None; keepAliveInterval := None;
       eventPollInterval := None; ws := Some k; provider := None;
       subscriptions := []; reconnectionAttempts := Z.of_nat k;
       isConnected := false; lastProcessedBlock := 0 |} /\
  timers w = [] /\
  next_timer w = k /\
  sockets w = repeat CLOSED k ++ [CONNECTING] /\
  resolved w = None /\
  new_sockets (trace w) = seq 0 (S k).

(** The instance has stopped after [n] sockets. *)
Definition gave_up (n : nat) (w : World) : Prop :=
  terminate (this w) = true /\
  timers w = [] /\
  sockets w = repeat CLOSED n /\
  resolved w = Some None /\
  new_sockets (trace w) = seq 0 n.

(** At most one thing can lead to the next socket: a socket that will close,
    or a retry timer that will fire. *)
Definition one_chain (w : World) : Prop :=
  (List.length (pending_retries w) + live (sockets w) <= 1)%nat.

(** ** Nodes and runs used in the examples *)

Definition node (blk : Z) (logs : Filter -> Outcome (list Log))
  (cb : ListenerId -> Log -> Outcome unit) (init : InitResult) : Env :=
  {| getBlockNumber := Ok blk; getLogs := logs; call_listener := cb;
     native_on := fun p _ _ => Ok p; init_provider := init |}.

Definition no_logs : Filter -> Outcome (list Log) := fun _ => Ok [].

Definition quiet : ListenerId -> Log -> Outcome unit := fun _ _ => Ok tt.

Definition healthy (blk : Z) : Env := node blk no_logs quiet InitReady.

(** A node whose [getLogs] raises, and a listener that raises. *)
Definition failing_logs : Filter -> Outcome (list Log) :=
  fun f => Throw (ErrGetLogs f).


(** A node whose native [on] raises for the given event selector. *)
Definition rejecting (bad : string) : Env :=
  {| getBlockNumber := Ok 0; getLogs := no_logs; call_listener := quiet;
     native_on := fun p ev l =>
       match ev with
       | PEString s => if String.eqb s bad then Throw (ErrOn ev l) else Ok p
       | PEOther _ => Ok p
       end;
     init_provider := InitReady |}.

(** A node holding [chain] answers [getLogs] with the logs of the address
    whose block lies in the closed range of the filter. *)
Definition chain_getLogs (chain : list Log) (f : Filter) : Outcome (list Log) :=
  Ok (filter (fun g =>
        String.eqb (log_address g) (address f) &&
        (fromBlock f <=? blockNumber g) && (blockNumber g <=? toBlock f))
      chain).

Definition log_at (a : string) (b : Z) : Log :=
  {| log_address := a; blockNumber := b; logIndex := 0 |}.

Definition sub (ev : string) (l : ListenerId) : Subscription :=
  {| type := PEString ev; listener := l |}.

(** The events that open the first socket and then register [subs] through
    the wrapped [on], one after the other. *)
Definition subscribe_all (subs : list Subscription) : list (Env * Event) :=
  (healthy 0, SocketOpen O) ::
  map (fun s => (healthy 0, ClientOn (type s) (listener s))) subs.

(** The world a run from [boot] ends in ([boot] itself when some event of the
    run cannot happen). *)
Definition after (evs : list (Env * Event)) : World :=
  match run boot evs with
  | Some w => w
  | None => boot
  end.

(** After the first open, timer 0 is the keep-alive interval and timer 1 the
    polling interval. *)
Definition keepAlive_timer : TimerId := 0%nat.

Definition poll_timer : TimerId := 1%nat.

(** Ten attempts that all fail: each socket closes before it opens and the
    retry scheduled by the close handler fires. *)
Definition ten_failures : list (Env * Event) :=
  flat_map (fun k => [(healthy 0, SocketClose k); (healthy 0, TimerFires k)])
    (seq 0 10).

(** The first socket opens, the initialization in the open handler raises,
    and the same socket closes afterwards. *)
Definition init_fails_then_close : list (Env * Event) :=
  [(node 0 no_logs quiet InitThrows, SocketOpen O);
   (healthy 0, SocketClose O)].

(** ** Further relations and invariants *)

(** [terminate] stays set and a settled promise keeps its value. *)
Definition settled (w w' : World) : Prop :=
  (terminate (this w) = true -> terminate (this w') = true) /\
  (forall r, resolved w = Some r -> resolved w' = Some r).

(** [ws] holds the socket created last. *)
Definition ws_is_newest (w : World) : Prop :=
  exists s, ws (this w) = Some s /\ List.length (sockets w) = S s.

(** The pairs passed to the wrapped [on] during a run, in order. *)
Definition client_calls (evs : list (Env * Event)) : list Subscription :=
  flat_map (fun e => match snd e with
                     | ClientOn ev l => [{| type := ev; listener := l |}]
                     | _ => []
                     end) evs.

(** A handler that keeps [ws] on the socket created last. *)
Definition keeps_newest (w w' : World) : Prop :=
  ws_is_newest w -> ws_is_newest w'.

(** The first connection succeeds, then it is lost and the next nine
    attempts fail: ten closes in a row, each followed by its retry. *)
Definition lost_after_success : list (Env * Event) :=
  flat_map (fun k => [(healthy 0, SocketClose k);
                      (healthy 0, TimerFires (k + 2)%nat)])
    (seq 0 10).

(** The block number [getBlockNumber] answers in one step: the step is the
    firing of a polling interval while a provider is set (lines 145-146 and
    152); no other step calls [getBlockNumber]. *)
Definition answer (env : Env) (w : World) (ev : Event) : list Z :=
  match ev with
  | TimerFires id =>
      match find_timer id (timers w), provider (this w), getBlockNumber env with
      | Some t, Some _, Ok c =>
          match kind t with
          | TEventPoll => [c]
          | _ => []
          end
      | _, _, _ => []
      end
  | _ => []
  end.

(** The block numbers [getBlockNumber] answered during a run from [w]. *)
Fixpoint answered (w : World) (evs : list (Env * Event)) : list Z :=
  match evs with
  | [] => []
  | (env, ev) :: rest =>
      match step env w ev with
      | Some w' => answer env w ev ++ answered w' rest
      | None => []
      end
  end.


(** A handler that leaves the attempt counter, [isConnected], the sockets
    and [terminate] alone. *)
Definition same_counter (w w' : World) : Prop :=
  reconnectionAttempts (this w') = reconnectionAttempts (this w) /\
  isConnected (this w') = isConnected (this w) /\
  sockets w' = sockets w /\
  terminate (this w') = terminate (this w).

(** The counter is within its range, and below the ceiling while a socket is
    live. *)
Definition counter_in_range (w : World) : Prop :=
  0 <= reconnectionAttempts (this w) <= MAX_RECONNECTION_ATTEMPTS /\
  ((0 < live (sockets w))%nat ->
   reconnectionAttempts (this w) < MAX_RECONNECTION_ATTEMPTS).

(** [n] rounds of [R], one after the other. *)
Inductive rounds (R : World -> World -> Prop) : nat -> World -> World -> Prop :=
| rounds_O w : rounds R O w w
| rounds_S n w w1 w2 :
    R w w1 -> rounds R n w1 w2 -> rounds R (S n) w w2.

(** An attempt that fails after the socket opened: the initialization in the
    open handler raises and the retry scheduled by its [catch] fires. *)
Inductive init_failure : World -> World -> Prop :=
| init_failure_intro env1 env2 w s t w1 w2 :
    ws (this w) = Some s ->
    init_provider env1 = InitThrows ->
    step env1 w (SocketOpen s) = Some w1 ->
    step env2 w1 (TimerFires t) = Some w2 ->
    init_failure w w2.

(** [k] attempts have failed in their initialization and attempt [k] is
    under way; the sockets of the failed attempts are still open. *)
Definition retrying (k : nat) (w : World) : Prop :=
  terminate (this w) = false /\
  pingTimeout (this w) = None /\
  0 <= reconnectionAttempts (this w) <= 1 /\
  ws (this w) = Some k /\
  timers w = [] /\
  sockets w = repeat OPEN k ++ [CONNECTING] /\
  resolved w = None /\
  new_sockets (trace w) = seq 0 (S k).

(** ** The queries of a registry with one address subscription *)

(** A handler that makes no log query and leaves the watermark alone. *)
Definition no_query (w w' : World) : Prop :=
  queries (trace w') = queries (trace w) /\ last_of w' = last_of w.

Definition polled_sub (s : Subscription) : bool := polled (type s).

(** At most one entry of the registry is handled by the poller, and it is for
    the address [a]. *)
Definition lone_address (a : string) (subs : list Subscription) : Prop :=
  match filter polled_sub subs with
  | [] => True
  | [s] => is_address (type s) = Some a
  | _ => False
  end.

(** Each query starts where the one before it started, or just after the
    block at which that one ended. *)
Fixpoint gapless (fs : list Filter) : Prop :=
  match fs with
  | f :: (g :: _) as rest =>
      (fromBlock g = fromBlock f \/ fromBlock g = toBlock f + 1) /\
      gapless rest
  | _ => True
  end.

(** The queries made so far are gapless and for [a], and the watermark stands
    just before the start or at the end of the latest one. *)
Definition tracks (a : string) (w : World) : Prop :=
  gapless (queries (trace w)) /\
  Forall (fun f => address f = a) (queries (trace w)) /\
  match hd_error (rev (queries (trace w))) with
  | Some g => last_of w + 1 = fromBlock g \/ last_of w = toBlock g
  | None => True
  end.

(** A run in which an address subscription sits beside an "error" listener
    and is polled three times, the keep-alive answered in between; the second
    query fails. *)
Definition three_polls : list (Env * Event) :=
  subscribe_all [sub "error" 1%nat; sub "0xA" 2%nat] ++
  [(healthy 5, TimerFires poll_timer);
   (healthy 5, TimerFires keepAlive_timer); (healthy 5, SocketPong O);
   (node 9 failing_logs quiet InitReady, TimerFires poll_timer);
   (healthy 9, TimerFires keepAlive_timer); (healthy 9, SocketPong O);
   (healthy 12, TimerFires poll_timer)].

(** ** The promise of [connect] and the providers assigned *)

(** The providers that became ready and were assigned to [provider]
    (line 86), in order. *)
Definition new_providers (tr : list Effect) : list ProviderId :=
  flat_map (fun e => match e with NewProvider p => [p] | _ => [] end) tr.

(** A handler that assigns no provider and leaves the promise, [terminate],
    [provider] and [ws] alone. *)
Definition same_promise (w w' : World) : Prop :=
  resolved w' = resolved w /\
  terminate (this w') = terminate (this w) /\
  provider (this w') = provider (this w) /\
  ws (this w') = ws (this w) /\
  new_providers (trace w') = new_providers (trace w).

(** What the promise holds, against the providers assigned so far. *)
Definition promise_matches (w : World) : Prop :=
  match resolved w with
  | None => terminate (this w) = false /\ new_providers (trace w) = []
  | Some None => terminate (this w) = true
  | Some (Some p) => hd_error (new_providers (trace w)) = Some p
  end.

Definition provider_is_newest (w : World) : Prop :=
  provider (this w) = hd_error (rev (new_providers (trace w))).

Definition promise_ok (w : World) : Prop :=
  ws (this w) <> None /\ provider_is_newest w /\ promise_matches w.

(** The first socket opens and is lost, and the second one opens. *)
Definition reconnected : list (Env * Event) :=
  [(healthy 0, SocketOpen O); (healthy 0, SocketClose O);
   (healthy 0, TimerFires 2%nat); (healthy 0, SocketOpen 1%nat)].

(** ** The phases of an instance whose initializations never raise *)

(** What the timers and the sockets depend on. *)
Record View := {
  v_timers : list Timer;
  v_next : TimerId;
  v_sockets : list ReadyState;
  v_terminate : bool;
  v_connected : bool;
  v_ws : option SockId;
  v_keepAlive : option TimerId;
  v_ping : option TimerId;
  v_poll : option TimerId
}.

Definition view (w : World) : View :=
  {| v_timers := timers w; v_next := next_timer w; v_sockets := sockets w;
     v_terminate := terminate (this w); v_connected := isConnected (this w);
     v_ws := ws (this w); v_keepAlive := keepAliveInterval (this w);
     v_ping := pingTimeout (this w); v_poll := eventPollInterval (this w) |}.

Definition same_shape (w w' : World) : Prop := view w' = view w.

Definition interval (id : TimerId) (k : TimerKind) (d p : Z) : Timer :=
  {| timer_id := id; kind := k; due := d; period := Some p |}.

Definition one_shot (id : TimerId) (k : TimerKind) (d : Z) : Timer :=
  {| timer_id := id; kind := k; due := d; period := None |}.

(** The pending pong timeout, if there is one. *)
Definition pong_timer (p : option (TimerId * Z)) : list Timer :=
  match p with
  | Some (c, dc) => [one_shot c TPingTimeout dc]
  | None => []
  end.

(** [if (h) clearTimeout(h)] on the pending timers. *)
Definition drop (h : option TimerId) (ts : list Timer) : list Timer :=
  match h with
  | Some id => filter (fun t => negb (Nat.eqb (timer_id t) id)) ts
  | None => ts
  end.

(** The handle in [pingTimeout] was handed out before. *)
Definition stale (v : View) : Prop :=
  forall c, v_ping v = Some c -> (c < v_next v)%nat.

(** A pending pong timeout is the one held in [pingTimeout] and is due before
    the next keep-alive; a handle that is no longer pending is not one of the
    two intervals. *)
Definition pong_ok (v : View) (a b : TimerId) (da : Z)
  (p : option (TimerId * Z)) : Prop :=
  match p with
  | Some (c, dc) =>
      v_ping v = Some c /\ c <> a /\ c <> b /\ (c < v_next v)%nat /\ dc < da
  | None =>
      forall c, v_ping v = Some c -> c <> a /\ c <> b /\ (c < v_next v)%nat
  end.

Inductive phase_of (v : View) : Prop :=
| Connecting k :
    v_sockets v = repeat CLOSED k ++ [CONNECTING] ->
    v_ws v = Some k ->
    v_timers v = [] ->
    v_terminate v = false ->
    v_connected v = false ->
    stale v ->
    phase_of v
| Connected k a b da db p :
    v_sockets v = repeat CLOSED k ++ [OPEN] ->
    v_ws v = Some k ->
    v_timers v
    = interval a TKeepAlive da KEEP_ALIVE_CHECK_INTERVAL ::
      interval b TEventPoll db EVENT_POLL_INTERVAL :: pong_timer p ->
    v_keepAlive v = Some a ->
    v_poll v = Some b ->
    a <> b -> (a < v_next v)%nat -> (b < v_next v)%nat ->
    pong_ok v a b da p ->
    v_terminate v = false ->
    v_connected v = true ->
    phase_of v
| Waiting k r d :
    v_sockets v = repeat CLOSED k ->
    v_timers v = [one_shot r TRetry d] ->
    v_terminate v = false ->
    v_connected v = false ->
    stale v ->
    phase_of v
| Terminated k :
    v_sockets v = repeat CLOSED k ->
    v_timers v = [] ->
    v_terminate v = true ->
    v_connected v = false ->
    phase_of v.

Definition phase (w : World) : Prop := phase_of (view w).

Definition has_kind (k : TimerKind) (t : Timer) : bool :=
  match k, kind t with
  | TRetry, TRetry | TKeepAlive, TKeepAlive
  | TPingTimeout, TPingTimeout | TEventPoll, TEventPoll => true
  | _, _ => false
  end.

(** The newest socket is open. *)
Definition socket_open (w : World) : bool :=
  match ws (this w) with
  | Some s => match nth_error (sockets w) s with
              | Some OPEN => true
              | _ => false
              end
  | None => false
  end.

(** A connection that is kept alive for two rounds, polled, and then lost:
    the second probe is not answered, the socket is terminated and closes. *)
Definition kept_alive_then_lost : list (Env * Event) :=
  [(healthy 0, SocketOpen O);
   (healthy 3, TimerFires keepAlive_timer);
   (healthy 3, TimerFires poll_timer);
   (healthy 3, SocketPong O);
   (healthy 7, TimerFires keepAlive_timer);
   (healthy 7, TimerFires poll_timer);
   (healthy 7, TimerFires 3%nat);
   (healthy 7, SocketClose O)].

(** The number of pending timers of a kind. *)
Definition pending (k : TimerKind) (w : World) : nat :=
  List.length (filter (has_kind k) (timers w)).

(** The field in which the handle of a timer of a kind is kept; the handle of
    a retry is not kept. *)
Definition handle_of (k : TimerKind) (o : ResilientWebsocketProvider)
  : option TimerId :=
  match k with
  | TKeepAlive => keepAliveInterval o
  | TPingTimeout => pingTimeout o
  | TEventPoll => eventPollInterval o
  | TRetry => None
  end.



Definition never_throws (evs : list (Env * Event)) : bool :=
  forallb (fun e => match init_provider (fst e) with
                    | InitThrows => false
                    | _ => true
                    end) evs.

(** ** Edge cases of the polling and of [cleanupConnection] *)

(** A node that cannot tell its block number. *)
Definition no_block_number : Env :=
  {| getBlockNumber := Throw ErrBlockNumber; getLogs := no_logs;
     call_listener := quiet; native_on := fun p _ _ => Ok p;
     init_provider := InitReady |}.

(** A node whose provider never becomes ready. *)
Definition never_ready : Env := node 0 no_logs quiet InitNeverReady.

(** The handle is kept in one of the three fields. *)
Definition held (o : ResilientWebsocketProvider) (id : TimerId) : bool :=
  match keepAliveInterval o with Some h => Nat.eqb id h | None => false end ||
  match pingTimeout o with Some h => Nat.eqb id h | None => false end ||
  match eventPollInterval o with Some h => Nat.eqb id h | None => false end.

(** ** What the attempt counter counts *)

Definition count_event (a : Z) (ev : Event) : Z :=
  match ev with
  | SocketOpen _ => 0
  | SocketClose _ => a + 1
  | _ => a
  end.

(** The number of "close" events since the last "open" event, starting from
    [a]. *)
Definition closes_since_open (a : Z) (evs : list (Env * Event)) : Z :=
  fold_left (fun a e => count_event a (snd e)) evs a.

(** ** Delivery by a healthy node *)

(** The node holds [chain], and the listener [l] returns on every log. *)
Definition serves (chain : list Log) (l : ListenerId) (env : Env) : Prop :=
  (forall f, getLogs env f = chain_getLogs chain f) /\
  (forall g, call_listener env l g = Ok tt).

(** What one query for [a] over the blocks after [lo] up to [hi] returns. *)
Definition logs_between (chain : list Log) (a : string) (lo hi : Z)
  : list Log :=
  logs_of (chain_getLogs chain (filter_for a lo hi)).

Definition small_chain : list Log :=
  [log_at "0xA" 3; log_at "0xB" 4; log_at "0xA" 7; log_at "0xA" 12].

(** Three cycles against a node holding [small_chain]; in the second one the
    node cannot tell its block number. *)
Definition three_cycles : list Env :=
  [node 5 (chain_getLogs small_chain) quiet InitReady;
   {| getBlockNumber := Throw ErrBlockNumber;
      getLogs := chain_getLogs small_chain; call_listener := quiet;
      native_on := fun p _ _ => Ok p; init_provider := InitReady |};
   node 9 (chain_getLogs small_chain) quiet InitReady].

(** ** Failed attempts of both kinds, and the watchdog after one of them *)

(** One failed connection attempt, of either kind the code counts: the socket
    closes without having opened (counted at line 105), or it opens and the
    initialization raises (counted at line 95); in both cases the retry that
    was scheduled fires. *)
Definition failed_attempt (w w' : World) : Prop :=
  closed_attempt w w' \/ init_failure w w'.

(** A node over which the construction of the provider raises. *)
Definition failing_init : Env := node 0 no_logs quiet InitThrows.

(** Ten attempts in a row whose socket opens and whose initialization
    raises; attempt [k] arms the timers [3k], [3k+1] (the two intervals, which
    the catch block clears) and [3k+2] (the retry). *)
Definition ten_init_failures : list (Env * Event) :=
  flat_map (fun k => [(failing_init, SocketOpen k);
                      (healthy 0, TimerFires (3 * k + 2)%nat)])
    (seq 0 10).

(** The initialization raises at the first open and the same socket closes:
    two retries fire and two sockets open, each starting a keep-alive
    interval; the two intervals each send a ping on the socket in [ws]. *)
Definition two_watchdogs : list (Env * Event) :=
  [(failing_init, SocketOpen O); (healthy 0, SocketClose O);
   (healthy 0, TimerFires 2%nat); (healthy 0, TimerFires 3%nat);
   (healthy 0, SocketOpen 2%nat); (never_ready, SocketOpen 1%nat);
   (healthy 0, TimerFires 4%nat); (healthy 0, TimerFires 6%nat)].

Definition pings (tr : list Effect) : list SockId :=
  flat_map (fun e => match e with Ping s => [s] | _ => [] end) tr.

(** The socket answers both pings. *)
Definition two_pongs : list (Env * Event) :=
  [(healthy 0, SocketPong 2%nat); (healthy 0, SocketPong 2%nat)].

(** The two polling intervals, which are due before the pong timeouts. *)
Definition two_polls : list (Env * Event) :=
  [(healthy 0, TimerFires 5%nat); (healthy 0, TimerFires 7%nat)].
(** * Proofs *)

(** ** Worlds and the monad *)

Lemma with_trace_same w : with_trace (trace w) w = w.
Proof. destruct w; reflexivity. Qed.

Lemma with_trace_twice t1 t2 w :
  with_trace t2 (with_trace t1 w) = with_trace t2 w.
Proof. reflexivity. Qed.

Lemma bind_ok {A B} (m : M A) (k : A -> M B) w a w' :
  m w = (Ok a, w') -> bind m k w = k a w'.
Proof. unfold bind; intros ->; reflexivity. Qed.

Lemma bind_throw {A B} (m : M A) (k : A -> M B) w e w' :
  m w = (Throw e, w') -> bind m k w = (Throw e, w').
Proof. unfold bind; intros ->; reflexivity. Qed.

Lemma is_address_not_block ev a : is_address ev = Some a -> is_block ev = false.
Proof.
  destruct ev as [s|n]; simpl; [|discriminate].
  destruct (String.eqb_spec s "block") as [->|]; [|reflexivity].
  vm_compute; discriminate.
Qed.

(** ** The inner loop of [pollEvents]: calling the listener on each log *)

Lemma listener_loop env l logs w :
  for_of logs (fun log =>
    emit (Call l log) ;; lift (call_listener env l log)) w
  = (match first_error env l logs with
     | None => Ok tt
     | Some e => Throw e
     end,
     with_trace (trace w ++ map (Call l) (delivered env l logs)) w).
Proof.
  revert w; induction logs as [|g rest IH]; intros w; simpl.
  - rewrite app_nil_r, with_trace_same; reflexivity.
  - unfold bind at 1. unfold bind at 1. unfold emit at 1, lift at 1. simpl.
    destruct (call_listener env l g) as [[]|e]; simpl.
    + rewrite IH; simpl. rewrite <- app_assoc; reflexivity.
    + reflexivity.
Qed.

Lemma first_error_none env l logs :
  first_error env l logs = None <-> all_return env l logs = true.
Proof.
  unfold all_return; induction logs as [|g rest IH]; simpl; [tauto|].
  destruct (call_listener env l g); simpl; [exact IH | split; discriminate].
Qed.

Lemma delivered_all env l logs :
  all_return env l logs = true -> delivered env l logs = logs.
Proof.
  unfold all_return; induction logs as [|g rest IH]; simpl; [reflexivity|].
  destruct (call_listener env l g); simpl; [|discriminate].
  intros H; rewrite IH by exact H; reflexivity.
Qed.

(** ** One subscription of a polling cycle, case by case *)

Lemma poll_block env cur s w :
  is_block (type s) = true ->
  poll_subscription env cur s w
  = (Ok tt, with_this (set_lastProcessedBlock cur) w).
Proof. intros H; unfold poll_subscription, try_catch; rewrite H; reflexivity. Qed.

Lemma poll_skipped env cur s w :
  is_block (type s) = false -> is_address (type s) = None ->
  poll_subscription env cur s w = (Ok tt, w).
Proof.
  intros H1 H2; unfold poll_subscription, try_catch; rewrite H1, H2; reflexivity.
Qed.

Lemma poll_address env cur s a w :
  is_address (type s) = Some a ->
  let f := filter_for a (lastProcessedBlock (this w)) cur in
  poll_subscription env cur s w
  = (Ok tt,
     match getLogs env f with
     | Throw e => with_trace (trace w ++ [GetLogs f; Report (Some e)]) w
     | Ok logs =>
         match first_error env (listener s) logs with
         | None =>
             with_this (set_lastProcessedBlock cur)
               (with_trace
                  (trace w ++ GetLogs f :: map (Call (listener s)) logs) w)
         | Some e =>
             with_trace
               (trace w ++ GetLogs f ::
                  map (Call (listener s)) (delivered env (listener s) logs)
                  ++ [Report (Some e)]) w
         end
     end).
Proof.
  intros Ha f. pose proof (is_address_not_block _ _ Ha) as Hb.
  unfold poll_subscription, try_catch. rewrite Hb, Ha.
  unfold bind at 1. unfold get at 1. cbv beta iota.
  unfold bind at 1. unfold emit at 1. cbv beta iota.
  unfold bind at 1. unfold lift at 1. fold (filter_for a (lastProcessedBlock (this w)) cur). fold f.
  destruct (getLogs env f) as [logs|e].
  - unfold bind at 1. rewrite listener_loop. simpl trace.
    destruct (first_error env (listener s) logs) as [e|] eqn:E.
    + unfold emit; simpl. rewrite <- !app_assoc; reflexivity.
    + apply first_error_none in E. rewrite (delivered_all _ _ _ E).
      unfold modify; simpl. rewrite <- app_assoc; reflexivity.
  - unfold emit; simpl. rewrite <- app_assoc; reflexivity.
Qed.

Lemma poll_subscription_returns env cur s w :
  fst (poll_subscription env cur s w) = Ok tt.
Proof.
  destruct (is_block (type s)) eqn:Hb.
  - rewrite poll_block by exact Hb; reflexivity.
  - destruct (is_address (type s)) as [a|] eqn:Ha.
    + rewrite (poll_address env cur s a w Ha); reflexivity.
    + rewrite poll_skipped by assumption; reflexivity.
Qed.

Lemma poll_watermark env cur s w :
  last_of (exec (poll_subscription env cur s) w)
  = if advances env (last_of w) cur s then cur else last_of w.
Proof.
  unfold exec, advances, last_of.
  destruct (is_block (type s)) eqn:Hb.
  - rewrite poll_block by exact Hb; reflexivity.
  - destruct (is_address (type s)) as [a|] eqn:Ha.
    + rewrite (poll_address env cur s a w Ha). simpl.
      destruct (getLogs env _) as [logs|e]; [|reflexivity].
      destruct (first_error env (listener s) logs) as [e|] eqn:E.
      * destruct (all_return env (listener s) logs) eqn:R; [|reflexivity].
        apply first_error_none in R; congruence.
      * apply first_error_none in E; rewrite E; reflexivity.
    + rewrite poll_skipped by assumption; reflexivity.
Qed.

Lemma poll_effects env cur s w :
  trace (exec (poll_subscription env cur s) w)
  = trace w ++ sub_effects env (last_of w) cur s.
Proof.
  unfold exec, sub_effects, last_of.
  destruct (is_block (type s)) eqn:Hb.
  - rewrite poll_block by exact Hb; simpl; rewrite app_nil_r; reflexivity.
  - destruct (is_address (type s)) as [a|] eqn:Ha.
    + rewrite (poll_address env cur s a w Ha). simpl.
      destruct (getLogs env _) as [logs|e]; [|reflexivity].
      destruct (first_error env (listener s) logs) as [e|] eqn:E; simpl.
      * reflexivity.
      * apply first_error_none in E. rewrite (delivered_all _ _ _ E), app_nil_r.
        reflexivity.
    + rewrite poll_skipped by assumption; simpl; rewrite app_nil_r; reflexivity.
Qed.

(** ** The whole cycle *)

Lemma for_of_poll env cur subs w :
  for_of subs (poll_subscription env cur) w = (Ok tt, poll_all env cur subs w).
Proof.
  revert w; induction subs as [|s rest IH]; intros w; simpl; [reflexivity|].
  unfold bind.
  pose proof (poll_subscription_returns env cur s w) as H.
  destruct (poll_subscription env cur s w) as [o w1] eqn:E; simpl in H; subst o.
  rewrite IH. unfold poll_all; simpl. unfold exec; rewrite E; reflexivity.
Qed.

Lemma pollEvents_cycle env cur w :
  getBlockNumber env = Ok cur ->
  pollEvents env w = (Ok tt, poll_prefix env cur (subscriptions (this w)) w).
Proof.
  intros H; unfold pollEvents, poll_prefix.
  unfold bind at 1. unfold emit at 1. cbv beta iota.
  unfold bind at 1. unfold lift at 1. rewrite H.
  unfold bind at 1. unfold get at 1. cbv beta iota.
  rewrite for_of_poll; reflexivity.
Qed.

Lemma pollEvents_no_block_number env e w :
  getBlockNumber env = Throw e ->
  pollEvents env w = (Throw e, exec (emit GetBlockNumber) w).
Proof.
  intros H; unfold pollEvents.
  unfold bind at 1. unfold emit at 1. cbv beta iota.
  unfold bind at 1. unfold lift at 1. rewrite H; reflexivity.
Qed.


Lemma poll_all_watermark env cur subs w :
  last_of (poll_all env cur subs w)
  = if existsb (advances env (last_of w) cur) subs then cur else last_of w.
Proof.
  revert w; induction subs as [|s rest IH]; intros w; [reflexivity|].
  change (poll_all env cur (s :: rest) w)
    with (poll_all env cur rest (exec (poll_subscription env cur s) w)).
  rewrite IH, poll_watermark; simpl.
  destruct (advances env (last_of w) cur s); simpl; [|reflexivity].
  destruct (existsb _ rest); reflexivity.
Qed.


Lemma poll_prefix_watermark env cur pre w :
  last_of (poll_prefix env cur pre w)
  = if existsb (advances env (last_of w) cur) pre then cur else last_of w.
Proof. unfold poll_prefix; rewrite poll_all_watermark; reflexivity. Qed.

(** ** Observations distribute over the trace *)

Lemma reports_app t1 t2 : reports (t1 ++ t2) = reports t1 ++ reports t2.
Proof. apply flat_map_app. Qed.

Lemma calls_app t1 t2 : calls (t1 ++ t2) = calls t1 ++ calls t2.
Proof. apply flat_map_app. Qed.

Lemma queries_app t1 t2 : queries (t1 ++ t2) = queries t1 ++ queries t2.
Proof. apply flat_map_app. Qed.

Lemma reports_calls l logs : reports (map (Call l) logs) = [].
Proof. induction logs; simpl; auto. Qed.

Lemma queries_calls l logs : queries (map (Call l) logs) = [].
Proof. induction logs; simpl; auto. Qed.

Lemma calls_calls l logs : calls (map (Call l) logs) = map (pair l) logs.
Proof. induction logs; simpl; congruence. Qed.



Lemma unpolled_idle env cur s w :
  polled (type s) = false -> exec (poll_subscription env cur s) w = w.
Proof.
  unfold polled; intros H. apply orb_false_elim in H as [Hb Ha].
  destruct (is_address (type s)) eqn:E; [discriminate|].
  unfold exec; rewrite poll_skipped by assumption; reflexivity.
Qed.


(** ** C2: when the watermark moves *)




(** ** C3: the query and the delivery for an address subscription *)


(** The watermark read by a query is the one left by the subscriptions
    handled before it in the same cycle: the second address of a registry is
    queried from [currentBlock + 1]. *)
Lemma second_address_queried_past_current_block :
  option_map (fun w => queries (trace w))
    (run boot
       (subscribe_all [sub "0xA" 1%nat; sub "0xB" 2%nat] ++
        [(healthy 5, TimerFires poll_timer)]))
  = Some [{| address := "0xA"; fromBlock := 1; toBlock := 5 |};
          {| address := "0xB"; fromBlock := 6; toBlock := 5 |}].
Proof. vm_compute. reflexivity. Qed.

Lemma address_effects env last cur s a :
  is_address (type s) = Some a ->
  let f := filter_for a last cur in
  exists tail,
    sub_effects env last cur s
    = GetLogs f ::
        map (Call (listener s))
          (delivered env (listener s) (logs_of (getLogs env f))) ++ tail /\
    calls tail = [] /\ queries tail = [].
Proof.
  intros Ha f. unfold sub_effects.
  rewrite (is_address_not_block _ _ Ha), Ha. fold f.
  destruct (getLogs env f) as [logs|e]; simpl.
  - destruct (first_error env (listener s) logs); eexists; (split; [reflexivity|]);
      split; reflexivity.
  - eexists; split; [reflexivity|]; split; reflexivity.
Qed.




(** ** C10: the first query of an address subscription *)




(** ** What handlers leave alone *)

Section Respects.

Variable R : World -> World -> Prop.
Hypothesis R_refl : forall w, R w w.
Hypothesis R_trans : forall a b c, R a b -> R b c -> R a c.
Hypothesis R_trace : forall w t, R w (with_trace t w).

Lemma respects_ret {A} (a : A) : respects R (ret a).
Proof. intros w; apply R_refl. Qed.

Lemma respects_lift {A} (o : Outcome A) : respects R (lift o).
Proof. intros w; apply R_refl. Qed.

Lemma respects_get {A} (f : ResilientWebsocketProvider -> A) :
  respects R (get f).
Proof. intros w; apply R_refl. Qed.

Lemma respects_emit e : respects R (emit e).
Proof. intros w; apply R_trace. Qed.

Lemma respects_bind {A B} (m : M A) (k : A -> M B) :
  respects R m -> (forall a, respects R (k a)) -> respects R (bind m k).
Proof.
  intros Hm Hk w. unfold bind. specialize (Hm w).
  destruct (m w) as [[a|e] w1]; simpl in *; [|exact Hm].
  eapply R_trans; [exact Hm | apply Hk].
Qed.

Lemma respects_try_catch {A} (m : M A) (h : Error -> M A) :
  respects R m -> (forall e, respects R (h e)) -> respects R (try_catch m h).
Proof.
  intros Hm Hh w. unfold try_catch. specialize (Hm w).
  destruct (m w) as [[a|e] w1]; simpl in *; [exact Hm|].
  eapply R_trans; [exact Hm | apply Hh].
Qed.

Lemma respects_for_of {A} (xs : list A) (body : A -> M unit) :
  (forall x, respects R (body x)) -> respects R (for_of xs body).
Proof.
  intros Hb; induction xs as [|x rest IH]; simpl.
  - apply respects_ret.
  - apply respects_bind; auto.
Qed.

Lemma respects_top_level {A} (m : M A) w :
  respects R m -> R w (top_level m w).
Proof.
  intros Hm. unfold top_level. specialize (Hm w).
  destruct (m w) as [[a|e] w1]; simpl in *; [exact Hm|].
  eapply R_trans; [exact Hm | apply R_trace].
Qed.

End Respects.

(** Breaks a handler body down to its primitive steps, which [leaf] must
    settle. *)
Ltac side :=
  lazymatch goal with
  | |- respects _ _ => idtac
  | |- _ => first [solve [eauto] | intros ?]
  end.

Ltac handler leaf :=
  repeat first
    [ solve [leaf]
    | apply respects_ret; side
    | apply respects_lift; side
    | apply respects_get; side
    | apply respects_emit; side
    | apply respects_bind; side
    | apply respects_try_catch; side
    | apply respects_for_of; side
    | progress cbv beta iota
    | match goal with
      | |- respects _ (match ?x with _ => _ end) => destruct x
      end ].

(** *** The watermark *)

Lemma same_watermark_refl w : same_watermark w w.
Proof. reflexivity. Qed.

Lemma same_watermark_trans a b c :
  same_watermark a b -> same_watermark b c -> same_watermark a c.
Proof. unfold same_watermark; congruence. Qed.

Lemma same_watermark_trace w t : same_watermark w (with_trace t w).
Proof. reflexivity. Qed.

#[local] Hint Resolve same_watermark_refl same_watermark_trans
  same_watermark_trace : core.

Ltac by_computation :=
  let w := fresh "w" in
  intros w; first [reflexivity | unfold resolve; destruct (resolved w); reflexivity].

Lemma cleanupConnection_watermark : respects same_watermark cleanupConnection.
Proof. unfold cleanupConnection, clear_if_set. handler by_computation. Qed.

Lemma resubscribe_watermark env : respects same_watermark (resubscribe env).
Proof. unfold resubscribe. handler by_computation. Qed.

Lemma startConnection_watermark : respects same_watermark startConnection.
Proof. unfold startConnection. handler by_computation. Qed.

Lemma on_open_watermark env : respects same_watermark (on_open env).
Proof.
  pose proof cleanupConnection_watermark. pose proof (resubscribe_watermark env).
  unfold on_open, open_prelude, open_try, open_catch, setupKeepAlive,
    setupEventPolling.
  handler ltac:(first [assumption | by_computation]).
Qed.

Lemma on_close_watermark : respects same_watermark on_close.
Proof.
  pose proof cleanupConnection_watermark.
  unfold on_close. handler ltac:(first [assumption | by_computation]).
Qed.

Lemma on_pong_watermark : respects same_watermark on_pong.
Proof. unfold on_pong, clear_if_set. handler by_computation. Qed.

Lemma provider_on_watermark env p ev l :
  respects same_watermark (provider_on env p ev l).
Proof. unfold provider_on. handler by_computation. Qed.

Lemma keepAlive_probe_watermark : respects same_watermark keepAlive_probe.
Proof. unfold keepAlive_probe. handler by_computation. Qed.

Lemma pingTimeout_expired_watermark :
  respects same_watermark pingTimeout_expired.
Proof. unfold pingTimeout_expired. handler by_computation. Qed.

Lemma cycle_watermark env w :
  last_of (top_level (pollEvents env) w) = last_of w \/
  getBlockNumber env = Ok (last_of (top_level (pollEvents env) w)).
Proof.
  unfold top_level. destruct (getBlockNumber env) as [cur|e] eqn:E.
  - rewrite (pollEvents_cycle _ _ _ E), poll_prefix_watermark.
    destruct (existsb _ _); auto.
  - rewrite (pollEvents_no_block_number _ _ _ E). left; reflexivity.
Qed.

Lemma eventPoll_tick_eq env w :
  eventPoll_tick env w
  = match provider (this w) with
    | Some _ => pollEvents env w
    | None => (Ok tt, w)
    end.
Proof.
  unfold eventPoll_tick, bind, get. destruct (provider (this w)); reflexivity.
Qed.

Lemma eventPoll_tick_watermark env w :
  last_of (top_level (eventPoll_tick env) w) = last_of w \/
  getBlockNumber env = Ok (last_of (top_level (eventPoll_tick env) w)).
Proof.
  unfold top_level. rewrite !eventPoll_tick_eq.
  destruct (provider (this w)); [apply cycle_watermark | left; reflexivity].
Qed.

(** Only the polling callback assigns the watermark, and only to the block
    number the node has just answered. *)
Lemma step_watermark env w ev w' :
  step env w ev = Some w' ->
  last_of w' = last_of w \/
  (exists id t,
     ev = TimerFires id /\ find_timer id (timers w) = Some t /\
     kind t = TEventPoll /\ getBlockNumber env = Ok (last_of w')).
Proof.
  assert (unchanged : forall A (m : M A) x,
            respects same_watermark m -> last_of x = last_of w ->
            last_of (top_level m x) = last_of w).
  { intros A m x Hm <-.
    apply (respects_top_level same_watermark); eauto. }
  destruct ev as [s|s|s|s|id|ev l]; simpl; intros H.
  - destruct (nth_error (sockets w) s) as [[]|]; inversion H; subst; left.
    apply unchanged; auto using on_open_watermark.
  - destruct (nth_error (sockets w) s) as [[]|]; inversion H; subst; left;
      apply unchanged; auto using on_close_watermark.
  - destruct (nth_error (sockets w) s) as [[]|]; inversion H; subst; left;
      reflexivity.
  - destruct (nth_error (sockets w) s) as [[]|]; inversion H; subst; left.
    apply unchanged; auto using on_pong_watermark.
  - destruct (find_timer id (timers w)) as [t|] eqn:F; [|discriminate].
    destruct (earliest t (timers w)); inversion H; subst; clear H.
    destruct (kind t) eqn:K; simpl.
    + left. apply unchanged; auto using startConnection_watermark.
    + left. apply unchanged; auto using keepAlive_probe_watermark.
    + left. apply unchanged; auto using pingTimeout_expired_watermark.
    + match goal with
      | |- context [top_level (eventPoll_tick env) ?x] =>
          destruct (eventPoll_tick_watermark env x) as [E|E]
      end.
      * left; exact E.
      * right; exists id, t; auto.
  - destruct (resolved w) as [[p|]|]; inversion H; subst; left.
    apply unchanged; auto using provider_on_watermark.
Qed.

Lemma nondecreasing_weaken lo lo' envs :
  lo' <= lo -> nondecreasing lo envs -> nondecreasing lo' envs.
Proof.
  revert lo lo'; induction envs as [|env rest IH]; intros lo lo' Hle; simpl;
    [auto|].
  destruct (getBlockNumber env); [|eauto].
  intros [H1 H2]; split; [lia | exact H2].
Qed.

Lemma poll_cycles_app e1 e2 w :
  poll_cycles (e1 ++ e2) w = poll_cycles e2 (poll_cycles e1 w).
Proof. unfold poll_cycles; apply fold_left_app. Qed.

Lemma nondecreasing_after e1 e2 w :
  nondecreasing (last_of w) (e1 ++ e2) ->
  last_of w <= last_of (poll_cycles e1 w) /\
  nondecreasing (last_of (poll_cycles e1 w)) e2.
Proof.
  revert w; induction e1 as [|env rest IH]; intros w H.
  - simpl; split; [lia | exact H].
  - change (poll_cycles (env :: rest) w)
      with (poll_cycles rest (top_level (pollEvents env) w)).
    assert (last_of w <= last_of (top_level (pollEvents env) w) /\
            nondecreasing (last_of (top_level (pollEvents env) w)) (rest ++ e2))
      as [Hle Hnd].
    { simpl in H. destruct (cycle_watermark env w) as [E|E].
      - rewrite E. split; [lia|].
        destruct (getBlockNumber env); [|exact H].
        destruct H as [H1 H2]. eapply nondecreasing_weaken; eassumption.
      - rewrite E in H. destruct H as [H1 H2]. split; assumption. }
    destruct (IH _ Hnd) as [H1 H2]. split; [lia | exact H2].
Qed.

(** ** C4: monotonicity of the watermark *)

(** C4 fails as stated: with a block subscription registered, a node that
    answers block 10 in one cycle and block 5 in the next takes the watermark
    from 10 down to 5. *)
Lemma C4_counterexample :
  let first_cycle :=
    subscribe_all [sub "block" 1%nat] ++ [(healthy 10, TimerFires poll_timer)] in
  let second_cycle :=
    [(healthy 10, TimerFires keepAlive_timer); (healthy 10, SocketPong O);
     (healthy 5, TimerFires poll_timer)] in
  option_map last_of (run boot first_cycle) = Some 10 /\
  option_map last_of (run boot (first_cycle ++ second_cycle)) = Some 5.
Proof. vm_compute. split; reflexivity. Qed.

(** C4, amended: the watermark never decreases along a sequence of polling
    cycles in which the block numbers answered by [getBlockNumber] never
    decrease (and start at or above the watermark); in any case, only the
    polling callback changes it. *)
Theorem C4_watermark_monotone_when_blocks_are (envs1 envs2 : list Env) w :
  nondecreasing (last_of w) (envs1 ++ envs2) ->
  last_of w <= last_of (poll_cycles envs1 w) /\
  last_of (poll_cycles envs1 w) <= last_of (poll_cycles (envs1 ++ envs2) w) /\
  (forall env w0 ev w',
     step env w0 ev = Some w' -> last_of w' <> last_of w0 ->
     exists id t,
       ev = TimerFires id /\ find_timer id (timers w0) = Some t /\
       kind t = TEventPoll).
Proof.
  intros H. destruct (nondecreasing_after envs1 envs2 w H) as [H1 H2].
  split; [exact H1|]. split.
  - rewrite poll_cycles_app.
    rewrite <- (app_nil_r envs2) in H2.
    apply nondecreasing_after in H2 as [H3 _]. exact H3.
  - intros env w0 ev w' Hs Hne.
    destruct (step_watermark env w0 ev w' Hs) as [E|(id & t & E1 & E2 & E3 & _)];
      [contradiction | eauto].
Qed.

Lemma C4_witness :
  last_of (poll_cycles [healthy 3]
             (after (subscribe_all [sub "block" 1%nat])))
  <= last_of (poll_cycles ([healthy 3] ++ [healthy 3; healthy 8])
                (after (subscribe_all [sub "block" 1%nat]))).
Proof.
  refine (proj1 (proj2
    (C4_watermark_monotone_when_blocks_are [healthy 3] [healthy 3; healthy 8]
       (after (subscribe_all [sub "block" 1%nat])) _))).
  vm_compute. intuition discriminate.
Defined.

(** ** Replay *)

Lemma replay_loop env p subs w :
  provider (this w) = Some p ->
  for_of subs (fun subscription =>
    try_catch
      (q <- get provider ;;
       match q with
       | Some q =>
           emit (On q (type subscription) (listener subscription)) ;;
           _ <- lift (native_on env q (type subscription)
                        (listener subscription)) ;;
           ret tt
       | None => ret tt
       end)
      (fun error => emit (Report (Some error)))) w
  = (Ok tt, with_trace (trace w ++ replay_effects env p subs) w).
Proof.
  revert w; induction subs as [|s rest IH]; intros w Hp; simpl.
  - rewrite app_nil_r, with_trace_same; reflexivity.
  - unfold bind at 1, try_catch at 1, bind at 1, get at 1. rewrite Hp.
    unfold bind at 1, emit at 1. unfold bind at 1, lift at 1. simpl.
    destruct (native_on env p (type s) (listener s)) as [q|e]; simpl;
      rewrite IH by exact Hp; simpl; rewrite <- !app_assoc; reflexivity.
Qed.

Lemma resubscribe_replays env p w :
  provider (this w) = Some p ->
  resubscribe env w
  = (Ok tt,
     with_trace (trace w ++ replay_effects env p (subscriptions (this w))) w).
Proof.
  intros Hp. unfold resubscribe, bind at 1, get at 1.
  apply replay_loop; exact Hp.
Qed.

Lemma subscribes_app t1 t2 :
  subscribes (t1 ++ t2) = subscribes t1 ++ subscribes t2.
Proof. apply flat_map_app. Qed.

Lemma subscribes_replay env p subs :
  subscribes (replay_effects env p subs)
  = map (fun s => (p, type s, listener s)) subs.
Proof.
  induction subs as [|s rest IH]; simpl; [reflexivity|].
  destruct (native_on env p (type s) (listener s)); simpl; rewrite IH;
    reflexivity.
Qed.

Lemma reports_replay env p subs :
  reports (replay_effects env p subs) = replay_errors env p subs.
Proof.
  induction subs as [|s rest IH]; simpl; [reflexivity|].
  destruct (native_on env p (type s) (listener s)); simpl; rewrite IH;
    reflexivity.
Qed.

Lemma queries_sub_effects env last cur s :
  map address (queries (sub_effects env last cur s)) = address_of s.
Proof.
  unfold sub_effects, address_of. destruct (is_block (type s)); [reflexivity|].
  destruct (is_address (type s)) as [a|]; [|reflexivity]. simpl.
  destruct (getLogs env _) as [logs|e]; [|reflexivity].
  rewrite queries_app, queries_calls. simpl.
  destruct (first_error env (listener s) logs); reflexivity.
Qed.

Lemma poll_all_queries env cur subs w :
  exists t,
    trace (poll_all env cur subs w) = trace w ++ t /\
    map address (queries t) = flat_map address_of subs.
Proof.
  revert w; induction subs as [|s rest IH]; intros w.
  - exists []; simpl; rewrite app_nil_r; auto.
  - change (poll_all env cur (s :: rest) w)
      with (poll_all env cur rest (exec (poll_subscription env cur s) w)).
    destruct (IH (exec (poll_subscription env cur s) w)) as (t & Ht & Hq).
    exists (sub_effects env (last_of w) cur s ++ t). split.
    + rewrite Ht, poll_effects, app_assoc; reflexivity.
    + rewrite queries_app, map_app, Hq, queries_sub_effects; reflexivity.
Qed.

Lemma raise_reported env last cur s :
  raises env last cur s = true ->
  exists e, reports (sub_effects env last cur s) = [e].
Proof.
  unfold raises, sub_effects. destruct (is_block (type s)); [discriminate|].
  destruct (is_address (type s)) as [a|]; [|discriminate]. simpl.
  destruct (getLogs env _) as [logs|e]; [|intros _; eexists; reflexivity].
  rewrite reports_app, reports_calls. simpl.
  destruct (first_error env (listener s) logs) eqn:E;
    [intros _; eexists; reflexivity|].
  apply first_error_none in E. rewrite E. discriminate.
Qed.

(** ** C6: one subscription's failure does not stop the others *)

Lemma try_catch_ok {A} (m : M A) h w a w' :
  m w = (Ok a, w') -> try_catch m h w = (Ok a, w').
Proof. unfold try_catch; intros ->; reflexivity. Qed.

Lemma try_catch_throw {A} (m : M A) h w e w' :
  m w = (Throw e, w') -> try_catch m h w = h e w'.
Proof. unfold try_catch; intros ->; reflexivity. Qed.

Lemma open_try_ready env w p :
  ws (this w) = Some p ->
  exists w',
    open_try env InitReady w = (Ok tt, w') /\
    trace w'
    = trace w ++ NewProvider p ::
        replay_effects env p (subscriptions (this w)) ++ [Resolve (Some p)] /\
    subscriptions (this w') = subscriptions (this w) /\
    provider (this w') = Some p.
Proof.
  intros Hws. unfold open_try.
  erewrite bind_ok by reflexivity.
  erewrite bind_ok by reflexivity. rewrite Hws.
  erewrite bind_ok by reflexivity.
  erewrite bind_ok by reflexivity.
  erewrite bind_ok by (apply resubscribe_replays; reflexivity).
  erewrite bind_ok by reflexivity.
  eexists; split; [reflexivity|].
  unfold resolve; simpl. rewrite <- !app_assoc. simpl.
  destruct (resolved w); auto.
Qed.

(** *** The registry, the timer handles and the socket *)

Lemma timers_grow_refl w : timers_grow w w.
Proof. split; [lia | auto]. Qed.

Lemma timers_grow_trans a b c :
  timers_grow a b -> timers_grow b c -> timers_grow a c.
Proof.
  intros [N1 T1] [N2 T2]. split; [lia|].
  intros t Hc. destruct (T2 t Hc) as [Hb|[Hb Hw]].
  - destruct (T1 t Hb) as [Ha|[Ha Hw]]; [left; exact Ha | right; split; [lia|exact Hw]].
  - right; split; [lia | exact Hw].
Qed.

Lemma steady_refl w : steady w w.
Proof.
  split; [reflexivity|]. split; [apply timers_grow_refl | intros H; exact H].
Qed.

Lemma steady_trans a b c : steady a b -> steady b c -> steady a c.
Proof.
  intros (R1 & T1 & S1) (R2 & T2 & S2). split; [|split].
  - unfold same_registry in *; congruence.
  - eapply timers_grow_trans; eassumption.
  - intros H; auto.
Qed.

Lemma steady_trace w t : steady w (with_trace t w).
Proof.
  split; [reflexivity|]. split; [exact (timers_grow_refl w) | intros H; exact H].
Qed.

#[local] Hint Resolve steady_refl steady_trans steady_trace : core.

Lemma steady_modify f :
  (forall o, subscriptions (f o) = subscriptions o /\
             (ws o <> None -> ws (f o) <> None)) ->
  respects steady (modify f).
Proof.
  intros Hf w. destruct (Hf (this w)) as [H1 H2].
  split; [exact H1|]. split; [exact (timers_grow_refl w) | exact H2].
Qed.

Lemma steady_setTimeout k d :
  k = TRetry \/ k = TPingTimeout -> respects steady (setTimeout k d).
Proof.
  intros Hk w. split; [reflexivity|]. split; [|intros H; exact H].
  split; simpl; [lia|].
  intros t Ht. apply in_app_or in Ht as [Ht|[<-|[]]]; [left; exact Ht|].
  right. split; [simpl; lia|].
  destruct Hk as [-> | ->]; reflexivity.
Qed.

Lemma steady_setInterval k d :
  (k = TKeepAlive /\ d = KEEP_ALIVE_CHECK_INTERVAL) \/
  (k = TEventPoll /\ d = EVENT_POLL_INTERVAL) ->
  respects steady (setInterval k d).
Proof.
  intros Hk w. split; [reflexivity|]. split; [|intros H; exact H].
  split; simpl; [lia|].
  intros t Ht. apply in_app_or in Ht as [Ht|[<-|[]]]; [left; exact Ht|].
  right. split; [simpl; lia|].
  destruct Hk as [[-> ->] | [-> ->]]; reflexivity.
Qed.

Lemma steady_clearTimeout id : respects steady (clearTimeout id).
Proof.
  intros w. split; [reflexivity|]. split; [|intros H; exact H].
  split; simpl; [lia|].
  intros t Ht. apply filter_In in Ht as [Ht _]. left; exact Ht.
Qed.

Lemma steady_resolve p : respects steady (resolve p).
Proof.
  intros w. unfold resolve; simpl.
  split; [destruct (resolved w); reflexivity|].
  split; [|destruct (resolved w); intros H; exact H].
  split; destruct (resolved w); simpl; auto.
Qed.

Lemma steady_new_WebSocket : respects steady new_WebSocket.
Proof.
  intros w. split; [reflexivity|]. split; [exact (timers_grow_refl w)|].
  intros H; exact H.
Qed.

Ltac steady_leaf :=
  first
    [ assumption
    | apply steady_setTimeout; auto
    | apply steady_setInterval; auto
    | apply steady_clearTimeout
    | apply steady_resolve
    | apply steady_new_WebSocket
    | apply steady_modify; intros ?; split;
        [reflexivity | simpl; solve [auto | discriminate]] ].

Lemma cleanupConnection_steady : respects steady cleanupConnection.
Proof. unfold cleanupConnection, clear_if_set. handler steady_leaf. Qed.

Lemma resubscribe_steady env : respects steady (resubscribe env).
Proof. unfold resubscribe. handler steady_leaf. Qed.

Lemma startConnection_steady : respects steady startConnection.
Proof. unfold startConnection. handler steady_leaf. Qed.

Lemma on_open_steady env : respects steady (on_open env).
Proof.
  pose proof cleanupConnection_steady. pose proof (resubscribe_steady env).
  unfold on_open, open_prelude, open_try, open_catch, setupKeepAlive,
    setupEventPolling.
  handler steady_leaf.
Qed.

Lemma on_close_steady : respects steady on_close.
Proof.
  pose proof cleanupConnection_steady.
  unfold on_close. handler steady_leaf.
Qed.

Lemma on_pong_steady : respects steady on_pong.
Proof. unfold on_pong, clear_if_set. handler steady_leaf. Qed.

Lemma keepAlive_probe_steady : respects steady keepAlive_probe.
Proof. unfold keepAlive_probe. handler steady_leaf. Qed.

Lemma pingTimeout_expired_steady : respects steady pingTimeout_expired.
Proof. unfold pingTimeout_expired. handler steady_leaf. Qed.

Lemma eventPoll_tick_steady env : respects steady (eventPoll_tick env).
Proof.
  unfold eventPoll_tick, pollEvents, poll_subscription. handler steady_leaf.
Qed.

Lemma timer_callback_steady env k : respects steady (timer_callback env k).
Proof.
  destruct k; simpl;
    auto using startConnection_steady, keepAlive_probe_steady,
      pingTimeout_expired_steady, eventPoll_tick_steady.
Qed.

Lemma steady_sane w w' : sane w -> steady w w' -> sane w'.
Proof.
  intros [Ht Hs] (_ & [Hn Hg] & Hk). split; [|auto].
  intros t Hin. destruct (Hg t Hin) as [Hold|[Hnew Hw]].
  - destruct (Ht t Hold) as [H1 H2]. split; [lia | exact H2].
  - split; [lia | exact Hw].
Qed.

Lemma rearm_sane t now w :
  sane w -> sane (with_clock now (with_timers (rearm t now (timers w)) w)).
Proof.
  intros [Ht Hs]. split; [|exact Hs]. simpl.
  intros t' Hin. unfold rearm in Hin. destruct (period t) as [d|].
  - apply in_map_iff in Hin as (t0 & E & Hin0). destruct (Ht t0 Hin0) as [H1 H2].
    destruct (Nat.eqb (timer_id t0) (timer_id t)); subst t'; auto.
  - apply filter_In in Hin as [Hin _]. auto.
Qed.

Lemma provider_on_sane env p ev l w :
  sane w -> sane (top_level (provider_on env p ev l) w).
Proof.
  intros H. unfold top_level, provider_on, bind, modify, emit, lift. simpl.
  destruct (native_on env p ev l); exact H.
Qed.

Lemma step_sane env w ev w' : sane w -> step env w ev = Some w' -> sane w'.
Proof.
  intros Hs. destruct ev as [s|s|s|s|id|ev l]; simpl; intros H.
  - destruct (nth_error (sockets w) s) as [[]|]; inversion H; subst.
    eapply steady_sane;
      [|apply (respects_top_level steady); eauto using on_open_steady].
    exact Hs.
  - destruct (nth_error (sockets w) s) as [[]|]; inversion H; subst;
      (eapply steady_sane;
       [|apply (respects_top_level steady); eauto using on_close_steady]);
      exact Hs.
  - destruct (nth_error (sockets w) s) as [[]|]; inversion H; subst; exact Hs.
  - destruct (nth_error (sockets w) s) as [[]|]; inversion H; subst.
    eapply steady_sane;
      [|apply (respects_top_level steady); eauto using on_pong_steady].
    exact Hs.
  - destruct (find_timer id (timers w)) as [t|]; [|discriminate].
    destruct (earliest t (timers w)); inversion H; subst.
    eapply steady_sane;
      [|apply (respects_top_level steady); eauto using timer_callback_steady].
    apply rearm_sane; exact Hs.
  - destruct (resolved w) as [[p|]|]; inversion H; subst.
    apply provider_on_sane; exact Hs.
Qed.

Lemma run_sane evs : forall w w', sane w -> run w evs = Some w' -> sane w'.
Proof.
  induction evs as [|[env ev] rest IH]; simpl; intros w w' Hs H.
  - inversion H; subst; exact Hs.
  - destruct (step env w ev) as [w1|] eqn:E; [|discriminate].
    eapply IH; [eapply step_sane; eassumption | exact H].
Qed.

Lemma boot_sane : sane boot.
Proof. split; [intros t []| discriminate]. Qed.

Lemma reachable_sane w : reachable w -> sane w.
Proof. intros [evs H]. eapply run_sane; [apply boot_sane | exact H]. Qed.

(** Socket and timer events leave the registry as it is. *)
Lemma step_registry env w ev w' :
  step env w ev = Some w' ->
  (forall sel l, ev <> ClientOn sel l) ->
  subscriptions (this w') = subscriptions (this w).
Proof.
  assert (kept : forall A (m : M A) x,
            respects steady m ->
            subscriptions (this x) = subscriptions (this w) ->
            subscriptions (this (top_level m x)) = subscriptions (this w)).
  { intros A m x Hm <-.
    apply (respects_top_level steady); eauto. }
  destruct ev as [s|s|s|s|id|ev l]; simpl; intros H Hev.
  - destruct (nth_error (sockets w) s) as [[]|]; inversion H; subst.
    apply kept; auto using on_open_steady.
  - destruct (nth_error (sockets w) s) as [[]|]; inversion H; subst;
      apply kept; auto using on_close_steady.
  - destruct (nth_error (sockets w) s) as [[]|]; inversion H; subst;
      reflexivity.
  - destruct (nth_error (sockets w) s) as [[]|]; inversion H; subst.
    apply kept; auto using on_pong_steady.
  - destruct (find_timer id (timers w)) as [t|]; [|discriminate].
    destruct (earliest t (timers w)); inversion H; subst.
    apply kept; auto using timer_callback_steady.
  - exfalso; eapply Hev; reflexivity.
Qed.

Lemma in_subscribes p ev l t : In (On p ev l) t -> In (p, ev, l) (subscribes t).
Proof.
  intros H. unfold subscribes. apply in_flat_map. exists (On p ev l).
  split; [exact H | left; reflexivity].
Qed.

(** C6: in a polling cycle no error leaves the handling of a subscription:
    the cycle is the handling of every subscription of the registry in turn,
    each one returns normally, a raise is reported, and every address of the
    registry is queried whatever happened to the others.  In the replay
    after a (re)connection, which the open handler makes on the provider it
    has just built over the opening socket, every entry of the registry is
    re-subscribed whatever the native [on] did for the others, the errors
    are reported, and the handler goes on to resolve the promise. *)
Theorem C6_partial_failure_isolation env w :
  (forall cur,
     getBlockNumber env = Ok cur ->
     pollEvents env w
     = (Ok tt,
        fold_left (fun w s => exec (poll_subscription env cur s) w)
          (subscriptions (this w)) (exec (emit GetBlockNumber) w)) /\
     (forall s w1, fst (poll_subscription env cur s w1) = Ok tt) /\
     (forall s w1,
        raises env (last_of w1) cur s = true ->
        exists e t,
          trace (exec (poll_subscription env cur s) w1) = trace w1 ++ t /\
          reports t = [e]) /\
     (exists t,
        trace (exec (pollEvents env) w) = trace w ++ GetBlockNumber :: t /\
        map address (queries t)
        = flat_map address_of (subscriptions (this w)))) /\
  (forall s w',
     init_provider env = InitReady ->
     ws (this w) = Some s ->
     step env w (SocketOpen s) = Some w' ->
     provider (this w') = Some s /\
     exists t,
       trace w' = trace w ++ NewProvider s :: t ++ [Resolve (Some s)] /\
       subscribes t
       = map (fun e => (s, type e, listener e)) (subscriptions (this w)) /\
       reports t = replay_errors env s (subscriptions (this w))).
Proof.
  split.
  - intros cur Hcur. split; [|split; [|split]].
    + apply pollEvents_cycle; exact Hcur.
    + intros; apply poll_subscription_returns.
    + intros s w1 Hr. destruct (raise_reported _ _ _ _ Hr) as [e He].
      exists e, (sub_effects env (last_of w1) cur s). split; [|exact He].
      apply poll_effects.
    + unfold exec. rewrite (pollEvents_cycle _ _ _ Hcur). simpl.
      unfold poll_prefix.
      destruct (poll_all_queries env cur (subscriptions (this w))
                  (exec (emit GetBlockNumber) w)) as (t & Ht & Hq).
      exists t. split; [|exact Hq]. rewrite Ht. simpl.
      rewrite <- app_assoc; reflexivity.
  - intros s w' Hinit Hws Hstep. simpl in Hstep.
    destruct (nth_error (sockets w) s) as [[]|]; inversion Hstep; subst;
      clear Hstep.
    unfold top_level, on_open. rewrite Hinit.
    erewrite bind_ok by reflexivity.
    match goal with
    | |- context [try_catch _ _ ?x] =>
        destruct (open_try_ready env x s Hws) as (w5 & E & Ht & Hr & Hp)
    end.
    rewrite (try_catch_ok _ _ _ _ _ E).
    split; [exact Hp|].
    exists (replay_effects env s (subscriptions (this w))).
    split; [exact Ht|].
    split; [apply subscribes_replay | apply reports_replay].
Qed.

Lemma C6_witness :
  exists t,
    trace (after (subscribe_all [sub "0xA" 1%nat; sub "block" 2%nat] ++
                  [(healthy 0, SocketClose O); (healthy 0, TimerFires 2%nat);
                   (rejecting "0xA", SocketOpen 1%nat)]))
    = trace (after (subscribe_all [sub "0xA" 1%nat; sub "block" 2%nat] ++
                    [(healthy 0, SocketClose O);
                     (healthy 0, TimerFires 2%nat)])) ++
      NewProvider 1%nat :: t ++ [Resolve (Some 1%nat)] /\
    subscribes t
    = [(1%nat, PEString "0xA", 1%nat); (1%nat, PEString "block", 2%nat)] /\
    reports t = [ErrOn (PEString "0xA") 1%nat].
Proof.
  destruct (proj2
              (C6_partial_failure_isolation (rejecting "0xA")
                 (after (subscribe_all [sub "0xA" 1%nat; sub "block" 2%nat] ++
                         [(healthy 0, SocketClose O);
                          (healthy 0, TimerFires 2%nat)])))
              1%nat
              (after (subscribe_all [sub "0xA" 1%nat; sub "block" 2%nat] ++
                      [(healthy 0, SocketClose O);
                       (healthy 0, TimerFires 2%nat);
                       (rejecting "0xA", SocketOpen 1%nat)])))
    as (_ & t & Ht & Hs & Hr); try (vm_compute; reflexivity).
  exists t. split; [exact Ht|]. split.
  - rewrite Hs. vm_compute; reflexivity.
  - rewrite Hr. vm_compute; reflexivity.
Defined.

(** ** C7: replay on reconnection *)

(** C7: when a socket opens and the provider over it gets ready, the replay
    makes one native [on] call on that newly built provider per entry of the
    registry, with the entry's selector and listener, in registry order; the
    registry is the same afterwards, and no socket or timer event (close,
    retry, open, ...) ever changes it. *)
Theorem C7_replay_once_per_entry env w s p w' :
  init_provider env = InitReady ->
  ws (this w) = Some p ->
  step env w (SocketOpen s) = Some w' ->
  provider (this w') = Some p /\
  (exists t,
     trace w' = trace w ++ NewProvider p :: t /\
     subscribes t
     = map (fun e => (p, type e, listener e)) (subscriptions (this w))) /\
  subscriptions (this w') = subscriptions (this w) /\
  (forall env0 w0 ev w1,
     step env0 w0 ev = Some w1 ->
     (forall sel l, ev <> ClientOn sel l) ->
     subscriptions (this w1) = subscriptions (this w0)).
Proof.
  intros Hinit Hws Hstep. simpl in Hstep.
  destruct (nth_error (sockets w) s) as [[]|]; inversion Hstep; subst; clear Hstep.
  unfold top_level, on_open. rewrite Hinit.
  erewrite bind_ok by reflexivity.
  match goal with
  | |- context [try_catch _ _ ?x] =>
      destruct (open_try_ready env x p Hws) as (w5 & E & Ht & Hr & Hp)
  end.
  rewrite (try_catch_ok _ _ _ _ _ E).
  split; [exact Hp|]. split; [|split].
  - eexists. split; [exact Ht|].
    rewrite subscribes_app, subscribes_replay. simpl. apply app_nil_r.
  - exact Hr.
  - intros; eapply step_registry; eassumption.
Qed.

Lemma C7_witness :
  provider
    (this (after (subscribe_all [sub "block" 1%nat; sub "0xABC" 2%nat] ++
                  [(healthy 0, SocketClose O); (healthy 0, TimerFires 2%nat);
                   (healthy 0, SocketOpen 1%nat)])))
  = Some 1%nat.
Proof.
  apply (C7_replay_once_per_entry (healthy 0)
           (after (subscribe_all [sub "block" 1%nat; sub "0xABC" 2%nat] ++
                   [(healthy 0, SocketClose O); (healthy 0, TimerFires 2%nat)]))
           1%nat 1%nat);
    vm_compute; reflexivity.
Defined.

(** The scenario of the specification: a block and an address subscription,
    a disconnect, the retry, the new socket opens: two native [on] calls on
    the new provider, one per selector. *)
Lemma replay_of_block_and_address :
  option_map (fun w => (subscribes (trace w), subscriptions (this w)))
    (run boot
       (subscribe_all [sub "block" 1%nat; sub "0xABC" 2%nat] ++
        [(healthy 0, SocketClose O); (healthy 0, TimerFires 2%nat);
         (healthy 0, SocketOpen 1%nat)]))
  = Some ([(O, PEString "block", 1%nat); (O, PEString "0xABC", 2%nat);
           (1%nat, PEString "block", 1%nat); (1%nat, PEString "0xABC", 2%nat)],
          [sub "block" 1%nat; sub "0xABC" 2%nat]).
Proof. vm_compute. reflexivity. Qed.

(** ** C8: the wrapped [on] *)

(** C8: the [on] of the returned client appends the pair to the registry,
    passes the same pair to the native [on] of that client, and its result is
    the result of the native call. *)
Theorem C8_on_records_and_forwards env p ev l w :
  let r := provider_on env p ev l w in
  subscriptions (this (snd r))
  = subscriptions (this w) ++ [{| type := ev; listener := l |}] /\
  trace (snd r) = trace w ++ [On p ev l] /\
  fst r = native_on env p ev l /\
  (resolved w = Some (Some p) ->
   step env w (ClientOn ev l) = Some (top_level (provider_on env p ev l) w)).
Proof.
  unfold provider_on, bind, modify, emit, lift. simpl.
  split; [reflexivity|]. split; [reflexivity|]. split; [reflexivity|].
  intros ->. reflexivity.
Qed.

Lemma C8_witness :
  step (healthy 0) (after (subscribe_all [])) (ClientOn (PEString "block") 1%nat)
  = Some (top_level (provider_on (healthy 0) O (PEString "block") 1%nat)
            (after (subscribe_all []))).
Proof.
  apply (C8_on_records_and_forwards (healthy 0) O (PEString "block") 1%nat
           (after (subscribe_all []))).
  vm_compute; reflexivity.
Defined.

(** ** Pending timers *)

Lemma find_timer_some id ts t :
  find_timer id ts = Some t -> In t ts /\ timer_id t = id.
Proof.
  unfold find_timer; intros H. apply find_some in H as [H1 H2].
  split; [exact H1 | apply Nat.eqb_eq; exact H2].
Qed.

Lemma find_timer_none id ts :
  find_timer id ts = None <-> (forall t, In t ts -> timer_id t <> id).
Proof.
  unfold find_timer; split.
  - intros H t Hin E. apply (find_none _ _ H) in Hin.
    apply Nat.eqb_neq in Hin. contradiction.
  - intros H. induction ts as [|t rest IH]; simpl; [reflexivity|].
    destruct (Nat.eqb_spec (timer_id t) id) as [E|_].
    + exfalso; exact (H t (or_introl eq_refl) E).
    + apply IH; intros t' Hin; apply H; right; exact Hin.
Qed.

Lemma find_timer_app id ts us :
  find_timer id (ts ++ us)
  = match find_timer id ts with
    | Some t => Some t
    | None => find_timer id us
    end.
Proof.
  unfold find_timer; induction ts as [|t rest IH]; simpl; [reflexivity|].
  destruct (Nat.eqb (timer_id t) id); [reflexivity | exact IH].
Qed.

Lemma find_timer_cleared id ts :
  find_timer id (filter (fun t => negb (Nat.eqb (timer_id t) id)) ts) = None.
Proof.
  apply find_timer_none. intros t Hin E. apply filter_In in Hin as [_ H].
  rewrite E, Nat.eqb_refl in H. discriminate.
Qed.

Lemma find_timer_rearmed id ts t d now :
  find_timer id ts = Some t ->
  period t = Some d ->
  find_timer id (rearm t now ts)
  = Some {| timer_id := id; kind := kind t; due := now + d;
            period := Some d |}.
Proof.
  intros Hf Hp. destruct (find_timer_some _ _ _ Hf) as [_ Hid].
  unfold rearm. rewrite Hp, Hid. unfold find_timer in *.
  induction ts as [|t0 rest IH]; simpl in *; [discriminate|].
  destruct (Nat.eqb_spec (timer_id t0) id) as [E|N].
  - inversion Hf; subst t0. simpl. rewrite E, Nat.eqb_refl, Hp. reflexivity.
  - destruct (Nat.eqb_spec (timer_id t0) id); [contradiction|].
    apply IH. exact Hf.
Qed.

Lemma find_timer_rearm_fresh h t now ts :
  find_timer h ts = None -> find_timer h (rearm t now ts) = None.
Proof.
  rewrite !find_timer_none. intros H t' Hin. unfold rearm in Hin.
  destruct (period t).
  - apply in_map_iff in Hin as (t0 & E & Hin0). specialize (H t0 Hin0).
    destruct (Nat.eqb (timer_id t0) (timer_id t)); subst t'; exact H.
  - apply filter_In in Hin as [Hin _]. auto.
Qed.

Lemma sane_fresh w :
  sane w -> find_timer (next_timer w) (timers w) = None.
Proof.
  intros [H _]. apply find_timer_none. intros t Hin.
  destruct (H t Hin). lia.
Qed.

(** A handle that is no longer pending never comes back. *)
Lemma timers_grow_gone h w w' :
  timers_grow w w' ->
  (h < next_timer w)%nat -> find_timer h (timers w) = None ->
  (h < next_timer w')%nat /\ find_timer h (timers w') = None.
Proof.
  intros [Hn Hg] Hlt Hnone. split; [lia|].
  apply find_timer_none. intros t Hin E.
  destruct (Hg t Hin) as [Hold|[Hnew _]]; [|lia].
  rewrite find_timer_none in Hnone. exact (Hnone t Hold E).
Qed.

Lemma step_gone h env w ev w' :
  (h < next_timer w)%nat -> find_timer h (timers w) = None ->
  step env w ev = Some w' ->
  (h < next_timer w')%nat /\ find_timer h (timers w') = None.
Proof.
  intros Hlt Hnone.
  assert (via : forall A (m : M A) x,
            respects steady m ->
            (h < next_timer x)%nat -> find_timer h (timers x) = None ->
            (h < next_timer (top_level m x))%nat /\
            find_timer h (timers (top_level m x)) = None).
  { intros A m x Hm H1 H2. eapply timers_grow_gone; [|exact H1|exact H2].
    apply (respects_top_level steady); eauto. }
  destruct ev as [s|s|s|s|id|ev l]; simpl; intros H.
  - destruct (nth_error (sockets w) s) as [[]|]; inversion H; subst.
    apply via; auto using on_open_steady.
  - destruct (nth_error (sockets w) s) as [[]|]; inversion H; subst;
      apply via; auto using on_close_steady.
  - destruct (nth_error (sockets w) s) as [[]|]; inversion H; subst; auto.
  - destruct (nth_error (sockets w) s) as [[]|]; inversion H; subst.
    apply via; auto using on_pong_steady.
  - destruct (find_timer id (timers w)) as [t|]; [|discriminate].
    destruct (earliest t (timers w)); inversion H; subst.
    apply via; auto using timer_callback_steady.
    simpl. apply find_timer_rearm_fresh; exact Hnone.
  - destruct (resolved w) as [[p|]|]; inversion H; subst.
    unfold top_level, provider_on, bind, modify, emit, lift. simpl.
    destruct (native_on env p ev l); auto.
Qed.

Lemma run_gone h evs : forall w w',
  (h < next_timer w)%nat -> find_timer h (timers w) = None ->
  run w evs = Some w' ->
  find_timer h (timers w') = None.
Proof.
  induction evs as [|[env ev] rest IH]; simpl; intros w w' Hlt Hnone H.
  - inversion H; subst; exact Hnone.
  - destruct (step env w ev) as [w1|] eqn:E; [|discriminate].
    destruct (step_gone h env w ev w1 Hlt Hnone E) as [H1 H2].
    eapply IH; eassumption.
Qed.

(** *** Who calls [terminate] *)

Lemma no_terminate_refl w : no_terminate w w.
Proof. reflexivity. Qed.

Lemma no_terminate_trans a b c :
  no_terminate a b -> no_terminate b c -> no_terminate a c.
Proof. unfold no_terminate; congruence. Qed.

#[local] Hint Resolve no_terminate_refl no_terminate_trans : core.

Lemma terminations_app t1 t2 :
  terminations (t1 ++ t2) = terminations t1 ++ terminations t2.
Proof. apply flat_map_app. Qed.

Ltac no_terminate_leaf :=
  first
    [ assumption
    | let w := fresh "w" in
      intros w; unfold no_terminate, emit, resolve, new_WebSocket;
      cbn [snd trace with_trace with_this with_timers with_next_timer
           with_sockets with_resolved];
      first
        [ reflexivity
        | rewrite terminations_app; apply app_nil_r
        | destruct (resolved w); cbn [trace with_resolved];
          rewrite terminations_app; apply app_nil_r ] ].

(** Like [handler], but every [emit] is looked at. *)
Ltac quiet_handler :=
  repeat first
    [ solve [no_terminate_leaf]
    | apply respects_ret; side
    | apply respects_lift; side
    | apply respects_get; side
    | apply respects_bind; side
    | apply respects_try_catch; side
    | apply respects_for_of; side
    | progress cbv beta iota
    | match goal with
      | |- respects _ (match ?x with _ => _ end) => destruct x
      end ].

Lemma cleanupConnection_no_terminate : respects no_terminate cleanupConnection.
Proof. unfold cleanupConnection, clear_if_set. quiet_handler. Qed.

Lemma resubscribe_no_terminate env : respects no_terminate (resubscribe env).
Proof. unfold resubscribe. quiet_handler. Qed.

Lemma startConnection_no_terminate : respects no_terminate startConnection.
Proof. unfold startConnection. quiet_handler. Qed.

Lemma on_open_no_terminate env : respects no_terminate (on_open env).
Proof.
  pose proof cleanupConnection_no_terminate.
  pose proof (resubscribe_no_terminate env).
  unfold on_open, open_prelude, open_try, open_catch, setupKeepAlive,
    setupEventPolling.
  quiet_handler.
Qed.

Lemma on_close_no_terminate : respects no_terminate on_close.
Proof.
  pose proof cleanupConnection_no_terminate.
  unfold on_close. quiet_handler.
Qed.

Lemma on_pong_no_terminate : respects no_terminate on_pong.
Proof. unfold on_pong, clear_if_set. quiet_handler. Qed.

Lemma keepAlive_probe_no_terminate : respects no_terminate keepAlive_probe.
Proof. unfold keepAlive_probe. quiet_handler. Qed.

Lemma eventPoll_tick_no_terminate env :
  respects no_terminate (eventPoll_tick env).
Proof.
  unfold eventPoll_tick, pollEvents, poll_subscription.
  quiet_handler.
Qed.

Lemma provider_on_no_terminate env p ev l :
  respects no_terminate (provider_on env p ev l).
Proof. unfold provider_on. quiet_handler. Qed.

Lemma top_level_no_terminate {A} (m : M A) x w :
  respects no_terminate m ->
  terminations (trace x) = terminations (trace w) ->
  terminations (trace (top_level m x)) = terminations (trace w).
Proof.
  intros Hm <-. unfold top_level. specialize (Hm x).
  destruct (m x) as [[a|e] x1]; simpl in *; [exact Hm|].
  rewrite terminations_app. simpl. rewrite app_nil_r. exact Hm.
Qed.

(** [terminate] is called on a socket only when a pong timeout fires. *)
Lemma step_terminations env w ev w' :
  step env w ev = Some w' ->
  terminations (trace w') <> terminations (trace w) ->
  exists id t,
    ev = TimerFires id /\ find_timer id (timers w) = Some t /\
    kind t = TPingTimeout.
Proof.
  destruct ev as [s|s|s|s|id|ev l]; simpl; intros H Hne.
  - exfalso.
    destruct (nth_error (sockets w) s) as [[]|]; inversion H; subst.
    apply Hne, top_level_no_terminate; auto using on_open_no_terminate.
  - exfalso.
    destruct (nth_error (sockets w) s) as [[]|]; inversion H; subst;
      apply Hne, top_level_no_terminate; auto using on_close_no_terminate.
  - exfalso.
    destruct (nth_error (sockets w) s) as [[]|]; inversion H; subst;
      apply Hne; unfold top_level, on_error, emit; simpl;
      rewrite terminations_app; apply app_nil_r.
  - exfalso.
    destruct (nth_error (sockets w) s) as [[]|]; inversion H; subst.
    apply Hne, top_level_no_terminate; auto using on_pong_no_terminate.
  - destruct (find_timer id (timers w)) as [t|] eqn:F; [|discriminate].
    destruct (earliest t (timers w)); inversion H; subst; clear H.
    destruct (kind t) eqn:K; [exfalso|exfalso|eauto|exfalso];
      cbn [timer_callback] in Hne.
    + apply Hne, top_level_no_terminate;
        auto using startConnection_no_terminate.
    + apply Hne, top_level_no_terminate;
        auto using keepAlive_probe_no_terminate.
    + apply Hne, top_level_no_terminate;
        auto using eventPoll_tick_no_terminate.
  - exfalso.
    destruct (resolved w) as [[p|]|]; inversion H; subst.
    apply Hne, top_level_no_terminate; auto using provider_on_no_terminate.
Qed.

(** ** The keep-alive watchdog *)

Lemma keepAlive_probe_eq w s :
  ws (this w) = Some s ->
  keepAlive_probe w
  = (Ok tt,
     with_this (set_pingTimeout (Some (next_timer w)))
       (with_next_timer (S (next_timer w))
          (with_timers
             (timers w ++
              [{| timer_id := next_timer w; kind := TPingTimeout;
                  due := clock w + EXPECTED_PONG_BACK; period := None |}])
             (with_trace (trace w ++ [Ping s]) w)))).
Proof.
  intros Hws. unfold keepAlive_probe, bind, get. rewrite Hws. reflexivity.
Qed.

Lemma on_pong_eq w h :
  pingTimeout (this w) = Some h ->
  on_pong w
  = (Ok tt,
     with_timers
       (filter (fun t => negb (Nat.eqb (timer_id t) h)) (timers w)) w).
Proof.
  intros Hp. unfold on_pong, bind, get. rewrite Hp. reflexivity.
Qed.

Lemma pingTimeout_expired_eq w s :
  ws (this w) = Some s ->
  pingTimeout_expired w = (Ok tt, with_trace (trace w ++ [Terminate s]) w).
Proof.
  intros Hws. unfold pingTimeout_expired, bind, get. rewrite Hws. reflexivity.
Qed.

(** A probe answered by a pong, and a probe that is not: the first leaves no
    pending timeout and terminates nothing, the second terminates the socket
    once. *)
Lemma probe_then_pong :
  option_map (fun w => (trace w, map kind (timers w)))
    (run boot
       (subscribe_all [] ++
        [(healthy 0, TimerFires keepAlive_timer); (healthy 0, SocketPong O)]))
  = Some ([NewSocket O; NewProvider O; Resolve (Some O); Ping O],
          [TKeepAlive; TEventPoll]).
Proof. vm_compute. reflexivity. Qed.

Lemma probe_then_timeout :
  option_map (fun w => (terminations (trace w), map kind (timers w)))
    (run boot
       (subscribe_all [] ++
        [(healthy 0, TimerFires keepAlive_timer);
         (healthy 0, TimerFires poll_timer);
         (healthy 0, TimerFires 2%nat)]))
  = Some ([O], [TKeepAlive; TEventPoll]).
Proof. vm_compute. reflexivity. Qed.

(** ** Giving up at the ceiling *)

Lemma new_sockets_app t1 t2 :
  new_sockets (t1 ++ t2) = new_sockets t1 ++ new_sockets t2.
Proof. apply flat_map_app. Qed.

Lemma nth_error_attempt k :
  nth_error (repeat CLOSED k ++ [CONNECTING]) k = Some CONNECTING.
Proof.
  rewrite nth_error_app2 by (rewrite repeat_length; lia).
  rewrite repeat_length, Nat.sub_diag. reflexivity.
Qed.

Lemma update_nth_attempt k :
  update_nth k CLOSED (repeat CLOSED k ++ [CONNECTING]) = repeat CLOSED (S k).
Proof. induction k as [|k IH]; simpl; [reflexivity | rewrite IH; reflexivity]. Qed.

Lemma repeat_snoc {A} (a : A) n : repeat a n ++ [a] = repeat a (S n).
Proof. induction n as [|n IH]; simpl; [reflexivity | rewrite IH; reflexivity]. Qed.

Lemma nth_error_closed n s :
  nth_error (repeat CLOSED n) s = None \/
  nth_error (repeat CLOSED n) s = Some CLOSED.
Proof.
  destruct (nth_error (repeat CLOSED n) s) as [r|] eqn:E; [right | left; auto].
  apply nth_error_In, repeat_spec in E. subst; reflexivity.
Qed.

Lemma cleanup_idle x :
  pingTimeout (this x) = None ->
  keepAliveInterval (this x) = None ->
  eventPollInterval (this x) = None ->
  cleanupConnection x = (Ok tt, x).
Proof.
  intros Hp Hk He. unfold cleanupConnection.
  erewrite bind_ok by reflexivity. rewrite Hk.
  erewrite bind_ok by reflexivity.
  erewrite bind_ok by reflexivity. rewrite Hp.
  erewrite bind_ok by reflexivity.
  erewrite bind_ok by reflexivity. rewrite He.
  reflexivity.
Qed.

(** The close handler when nothing was set up: one report, one more attempt
    counted, one retry timer. *)
Lemma on_close_idle x :
  terminate (this x) = false ->
  pingTimeout (this x) = None ->
  keepAliveInterval (this x) = None ->
  eventPollInterval (this x) = None ->
  top_level on_close x
  = with_next_timer (S (next_timer x))
      (with_timers
         (timers x ++
          [{| timer_id := next_timer x; kind := TRetry;
              due := clock x + RECONNECTION_DELAY; period := None |}])
         (with_this
            (fun o => set_reconnectionAttempts (reconnectionAttempts o + 1)
                        (set_isConnected false o))
            (with_trace (trace x ++ [Report None]) x))).
Proof.
  intros Ht Hp Hk He.
  unfold top_level, on_close.
  erewrite bind_ok by reflexivity.
  erewrite bind_ok by reflexivity.
  erewrite bind_ok by (apply cleanup_idle; assumption).
  erewrite bind_ok by reflexivity.
  cbn [terminate this with_this with_trace set_isConnected]. rewrite Ht.
  reflexivity.
Qed.

Lemma only_retry_fires env x k c t w2 :
  timers x
  = [{| timer_id := k; kind := TRetry; due := c; period := None |}] ->
  step env x (TimerFires t) = Some w2 ->
  w2 = top_level startConnection
         (with_clock (Z.max (clock x) c) (with_timers [] x)).
Proof.
  intros Htm. unfold step, find_timer. rewrite Htm.
  cbn [find timer_id]. destruct (Nat.eqb_spec k t) as [<-|]; [|discriminate].
  cbn [earliest forallb due]. rewrite Z.leb_refl.
  cbn [andb kind timer_callback rearm period filter timer_id].
  rewrite Nat.eqb_refl. cbn [negb].
  intros H; inversion H; reflexivity.
Qed.

Lemma startConnection_eq x :
  top_level startConnection x
  = if reconnectionAttempts (this x) >=? MAX_RECONNECTION_ATTEMPTS
    then exec (resolve None)
           (with_this (set_terminate true)
              (with_trace (trace x ++ [Report None]) x))
    else with_this (set_ws (Some (List.length (sockets x))))
           (with_trace (trace x ++ [NewSocket (List.length (sockets x))])
              (with_sockets (sockets x ++ [CONNECTING]) x)).
Proof.
  unfold top_level, startConnection, bind, get.
  destruct (reconnectionAttempts (this x) >=? MAX_RECONNECTION_ATTEMPTS);
    reflexivity.
Qed.

Lemma attempt_step k w w' :
  attempting k w -> closed_attempt w w' ->
  if (Z.of_nat (S k) >=? MAX_RECONNECTION_ATTEMPTS)
  then gave_up (S k) w'
  else attempting (S k) w'.
Proof.
  intros Ha Hf. induction Hf as [env w s w1 w2 Hws Hstep _ IH
                                |env1 env2 w s t w1 w2 Hws Hclose Hfire].
  - apply IH. clear IH.
    destruct Ha as (Ht & Htm & Hn & Hs & Hr & Hsock).
    rewrite Ht in Hws. cbn [ws] in Hws. inversion Hws; subst s.
    unfold step in Hstep. rewrite Hs, nth_error_attempt in Hstep.
    inversion Hstep; subst w1.
    unfold attempting, top_level, on_error, emit.
    cbn [fst snd this timers next_timer sockets resolved trace with_trace].
    repeat split; try assumption.
    rewrite new_sockets_app, Hsock. apply app_nil_r.
  - destruct Ha as (Ht & Htm & Hn & Hs & Hr & Hsock).
    rewrite Ht in Hws. cbn [ws] in Hws. inversion Hws; subst s.
    unfold step in Hclose. rewrite Hs, nth_error_attempt in Hclose.
    inversion Hclose; subst w1; clear Hclose.
    rewrite update_nth_attempt in Hfire.
    rewrite on_close_idle in Hfire
      by (cbn [this with_sockets]; rewrite Ht; reflexivity).
    eapply only_retry_fires in Hfire;
      [|cbn [timers with_next_timer with_timers with_this with_trace
             with_sockets]; rewrite Htm; reflexivity].
    subst w2. rewrite startConnection_eq.
    cbn [this with_clock with_timers with_next_timer with_this with_trace
         with_sockets reconnectionAttempts set_reconnectionAttempts
         set_isConnected sockets trace].
    rewrite Ht. cbn [reconnectionAttempts].
    replace (Z.of_nat k + 1) with (Z.of_nat (S k)) by lia.
    destruct (Z.of_nat (S k) >=? MAX_RECONNECTION_ATTEMPTS).
    + unfold gave_up, exec, resolve.
      cbn [fst snd this timers sockets resolved trace with_this with_trace
           with_resolved with_clock with_timers with_next_timer with_sockets
           terminate set_terminate].
      rewrite Hr.
      cbn [this timers sockets resolved trace with_this with_trace
           with_resolved].
      repeat split.
      rewrite !new_sockets_app, Hsock. cbn [new_sockets flat_map].
      rewrite !app_nil_r. reflexivity.
    + unfold attempting.
      cbn [this timers next_timer sockets resolved trace with_this with_trace
           with_clock with_timers with_next_timer with_sockets].
      rewrite repeat_length, Ht, Hr.
      cbn [set_ws set_reconnectionAttempts set_isConnected terminate pingTimeout
           keepAliveInterval eventPollInterval ws provider subscriptions
           reconnectionAttempts isConnected lastProcessedBlock].
      replace (Z.of_nat k + 1) with (Z.of_nat (S k)) by lia.
      repeat split; [congruence|].
      rewrite !new_sockets_app, Hsock. cbn [new_sockets flat_map app].
      rewrite app_nil_r.
      replace (S (S k)) with (S k + 1)%nat by lia.
      rewrite seq_app. reflexivity.
Qed.

Lemma boot_attempting : attempting 0 boot.
Proof. repeat split. Qed.

Lemma attempts_reach_ceiling n : forall k w w',
  attempting k w ->
  closed_attempts n w w' ->
  (0 < n)%nat ->
  Z.of_nat (k + n) = MAX_RECONNECTION_ATTEMPTS ->
  gave_up (k + n) w'.
Proof.
  induction n as [|n IH]; intros k w w' Ha Hf Hpos Hsum; [lia|].
  inversion Hf as [|n0 w0 w1 w2 Hfirst Hrest]; subst.
  pose proof (attempt_step k w w1 Ha Hfirst) as Hstep.
  destruct n as [|n].
  - inversion Hrest; subst.
    replace (k + 1)%nat with (S k) in * by lia.
    rewrite Hsum, Z.geb_leb, Z.leb_refl in Hstep. exact Hstep.
  - destruct (Z.of_nat (S k) >=? MAX_RECONNECTION_ATTEMPTS) eqn:E.
    + rewrite Z.geb_leb in E. apply Z.leb_le in E. lia.
    + replace (k + S (S n))%nat with (S k + S n)%nat by lia.
      apply IH with (w := w1); auto; lia.
Qed.

(** Once the instance has given up and every socket is closed, no event can
    happen any more. *)
Lemma gave_up_silent n w env ev : gave_up n w -> step env w ev = None.
Proof.
  intros (Ht & Htm & Hs & Hr & _).
  destruct ev as [s|s|s|s|id|ev l]; simpl; rewrite ?Hs, ?Htm, ?Hr;
    try reflexivity;
    destruct (nth_error_closed n s) as [-> | ->]; reflexivity.
Qed.

(** A close event delivered all the same finds [terminate] set and schedules
    nothing. *)
Lemma gave_up_close n w :
  gave_up n w ->
  gave_up n (top_level on_close w) /\
  sockets (top_level on_close w) = sockets w.
Proof.
  intros (Ht & Htm & Hs & Hr & Hn).
  destruct w as [o c nt ts ss r tr]. simpl in *. subst ts ss r.
  destruct o as [tm pt ka ep s p subs ra ic lp]. simpl in Ht. subst tm.
  unfold top_level, on_close, cleanupConnection, clear_if_set, bind, get,
    modify, emit, clearTimeout.
  destruct ka, pt, ep; simpl; (split; [|reflexivity]);
    (repeat split; simpl; rewrite new_sockets_app, Hn; simpl; apply app_nil_r).
Qed.

Lemma gave_up_closes n w k :
  gave_up n w ->
  gave_up n (Nat.iter k (top_level on_close) w) /\
  sockets (Nat.iter k (top_level on_close) w) = sockets w.
Proof.
  intros H. induction k as [|k [IH1 IH2]]; simpl; [auto|].
  destruct (gave_up_close n _ IH1) as [H1 H2]. split; [exact H1 | congruence].
Qed.

(** When the first [MAX_RECONNECTION_ATTEMPTS] (10) connection attempts of a
    [connect()] all fail before their socket opens (each socket closes
    without having opened and the retry it schedules fires), the instance
    has [terminate] set, the
    promise of [connect()] is resolved with null, exactly ten sockets have
    been created, nothing is pending and no event can happen any more; close
    events delivered afterwards all the same leave it terminated, schedule
    no timer and create no socket. *)
Theorem closed_attempts_reach_the_ceiling w :
  closed_attempts (Z.to_nat MAX_RECONNECTION_ATTEMPTS) boot w ->
  terminate (this w) = true /\
  resolved w = Some None /\
  new_sockets (trace w) = seq 0 (Z.to_nat MAX_RECONNECTION_ATTEMPTS) /\
  timers w = [] /\
  (forall env ev, step env w ev = None) /\
  (forall k,
     let w' := Nat.iter k (top_level on_close) w in
     terminate (this w') = true /\
     timers w' = [] /\
     sockets w' = sockets w /\
     new_sockets (trace w') = new_sockets (trace w)).
Proof.
  intros H.
  assert (G : gave_up 10 w).
  { apply (attempts_reach_ceiling 10 0 boot w boot_attempting H); [lia|].
    reflexivity. }
  pose proof G as (Ht & Htm & Hs & Hr & Hn).
  split; [exact Ht|]. split; [exact Hr|]. split; [exact Hn|].
  split; [exact Htm|]. split.
  - intros env ev; eapply gave_up_silent; exact G.
  - intros k w'. destruct (gave_up_closes 10 w k G) as [(Ht' & Htm' & _ & _ & Hn') Hs'].
    fold w' in Ht', Htm', Hn', Hs'. rewrite Hn', Hn. auto.
Qed.

Lemma closed_attempts_reach_the_ceiling_witness :
  exists w,
    run boot ten_failures = Some w /\
    terminate (this w) = true /\ resolved w = Some None.
Proof.
  assert (H : {w | run boot ten_failures = Some w /\
                   closed_attempts (Z.to_nat MAX_RECONNECTION_ATTEMPTS) boot w}).
  { eexists. split; [vm_compute; reflexivity|].
    change (Z.to_nat MAX_RECONNECTION_ATTEMPTS) with 10%nat.
    do 10 (eapply attempts_S;
           [eapply attempt_close
              with (env1 := healthy 0) (env2 := healthy 0);
            [reflexivity
            | lazy; reflexivity
            | match goal with
              | |- step _ ?x (TimerFires ?t) = _ =>
                  let n := eval lazy in (Nat.pred (next_timer x)) in
                  unify t n
              end; lazy; reflexivity]
           |]).
    apply attempts_O. }
  destruct H as [w [Hrun H]]. exists w. split; [exact Hrun|].
  destruct (closed_attempts_reach_the_ceiling w H) as (Ht & Hr & _).
  split; [exact Ht | exact Hr].
Defined.

(** ** C9: retry timers *)

(** Without a failure in the open handler's initialization there is one
    chain of reconnection: a retry is scheduled only by the close of the one
    live socket, and a socket is created only by the one pending retry. *)

Lemma calm_refl w : calm w w.
Proof. split; [lia | reflexivity]. Qed.

Lemma calm_trans a b c : calm a b -> calm b c -> calm a c.
Proof. intros [H1 H2] [H3 H4]; split; [lia | congruence]. Qed.

Lemma calm_trace w t : calm w (with_trace t w).
Proof. exact (calm_refl w). Qed.

#[local] Hint Resolve calm_refl calm_trans calm_trace : core.

Lemma retries_cleared id ts :
  (List.length (filter is_retry
                  (filter (fun t => negb (Nat.eqb (timer_id t) id)) ts))
   <= List.length (filter is_retry ts))%nat.
Proof.
  induction ts as [|t rest IH]; simpl; [lia|].
  destruct (negb (Nat.eqb (timer_id t) id)); simpl;
    destruct (is_retry t); simpl; lia.
Qed.

Lemma calm_modify f : respects calm (modify f).
Proof. intros w; exact (calm_refl w). Qed.

Lemma calm_arm k d (p : option Z) w :
  k <> TRetry ->
  calm w
    (with_next_timer (S (next_timer w))
       (with_timers
          (timers w ++
           [{| timer_id := next_timer w; kind := k; due := clock w + d;
               period := p |}]) w)).
Proof.
  intros Hk. split; [|reflexivity]. unfold pending_retries. simpl.
  rewrite filter_app, length_app. simpl. unfold is_retry at 2. simpl.
  destruct k; try congruence; simpl; lia.
Qed.

Lemma calm_setTimeout k d : k <> TRetry -> respects calm (setTimeout k d).
Proof. intros Hk w. apply calm_arm; exact Hk. Qed.

Lemma calm_setInterval k d : k <> TRetry -> respects calm (setInterval k d).
Proof. intros Hk w. apply calm_arm; exact Hk. Qed.

Lemma calm_clearTimeout id : respects calm (clearTimeout id).
Proof. intros w. split; [apply retries_cleared | reflexivity]. Qed.

Lemma calm_resolve p : respects calm (resolve p).
Proof.
  intros w. unfold resolve. destruct (resolved w); exact (calm_refl w).
Qed.

Ltac calm_leaf :=
  first
    [ assumption
    | apply calm_modify
    | apply calm_setTimeout; discriminate
    | apply calm_setInterval; discriminate
    | apply calm_clearTimeout
    | apply calm_resolve ].

Lemma cleanupConnection_calm : respects calm cleanupConnection.
Proof. unfold cleanupConnection, clear_if_set. handler calm_leaf. Qed.

Lemma resubscribe_calm env : respects calm (resubscribe env).
Proof. unfold resubscribe. handler calm_leaf. Qed.

Lemma on_pong_calm : respects calm on_pong.
Proof. unfold on_pong, clear_if_set. handler calm_leaf. Qed.

Lemma keepAlive_probe_calm : respects calm keepAlive_probe.
Proof. unfold keepAlive_probe. handler calm_leaf. Qed.

Lemma pingTimeout_expired_calm : respects calm pingTimeout_expired.
Proof. unfold pingTimeout_expired. handler calm_leaf. Qed.

Lemma eventPoll_tick_calm env : respects calm (eventPoll_tick env).
Proof.
  unfold eventPoll_tick, pollEvents, poll_subscription. handler calm_leaf.
Qed.

Lemma open_prelude_calm : respects calm open_prelude.
Proof.
  unfold open_prelude, setupKeepAlive, setupEventPolling. handler calm_leaf.
Qed.

Lemma open_try_calm env : respects calm (open_try env InitReady).
Proof.
  pose proof (resubscribe_calm env). unfold open_try. handler calm_leaf.
Qed.

Lemma resubscribe_idle env w :
  provider (this w) = None -> resubscribe env w = (Ok tt, w).
Proof.
  intros Hp. unfold resubscribe, bind at 1, get at 1.
  induction (subscriptions (this w)) as [|s rest IH]; simpl; [reflexivity|].
  unfold bind at 1, try_catch at 1, bind at 1, get at 1. rewrite Hp.
  exact IH.
Qed.

Lemma open_try_returns env x : fst (open_try env InitReady x) = Ok tt.
Proof.
  destruct (ws (this x)) as [p|] eqn:Hws.
  - destruct (open_try_ready env x p Hws) as (w' & E & _). rewrite E.
    reflexivity.
  - unfold open_try.
    erewrite bind_ok by reflexivity.
    erewrite bind_ok by reflexivity. rewrite Hws.
    erewrite bind_ok by reflexivity.
    erewrite bind_ok by reflexivity.
    erewrite bind_ok by (apply resubscribe_idle; reflexivity).
    erewrite bind_ok by reflexivity.
    reflexivity.
Qed.

Lemma on_open_calm env x :
  init_provider env <> InitThrows -> calm x (top_level (on_open env) x).
Proof.
  intros Hinit. unfold top_level, on_open, bind.
  pose proof (open_prelude_calm x) as H0.
  destruct (open_prelude x) as [[[]|e] x1]; simpl in H0; [|apply H0].
  destruct (init_provider env); [| contradiction | exact H0].
  unfold try_catch.
  pose proof (open_try_returns env x1) as Hr.
  pose proof (open_try_calm env x1) as Hc.
  destruct (open_try env InitReady x1) as [[[]|e] x2]; simpl in *;
    [|discriminate].
  eapply calm_trans; eassumption.
Qed.

Lemma retries_armed ts k c :
  List.length
    (filter is_retry
       (ts ++ [{| timer_id := k; kind := TRetry; due := c; period := None |}]))
  = S (List.length (filter is_retry ts)).
Proof. rewrite filter_app, length_app. simpl. lia. Qed.

(** The close handler schedules at most one retry. *)
Lemma on_close_one_retry x :
  (List.length (pending_retries (top_level on_close x))
   <= S (List.length (pending_retries x)))%nat /\
  sockets (top_level on_close x) = sockets x.
Proof.
  unfold top_level, on_close.
  erewrite bind_ok by reflexivity.
  erewrite bind_ok by reflexivity.
  match goal with
  | |- context [bind cleanupConnection _ ?y] =>
      pose proof (cleanupConnection_calm y) as [Hc Hs];
      destruct (cleanupConnection y) as [[[]|e] x1] eqn:E
  end; simpl in Hc, Hs.
  - erewrite bind_ok by exact E.
    erewrite bind_ok by reflexivity.
    destruct (terminate (this x1)); simpl.
    + split; [unfold pending_retries in *; simpl in *; lia | exact Hs].
    + split; [|exact Hs]. unfold pending_retries in *. simpl in *.
      rewrite retries_armed. lia.
  - erewrite bind_throw by exact E. simpl.
    split; [unfold pending_retries in *; simpl in *; lia | exact Hs].
Qed.

Lemma startConnection_one_socket x :
  pending_retries (top_level startConnection x) = pending_retries x /\
  (live (sockets (top_level startConnection x)) <= S (live (sockets x)))%nat.
Proof.
  rewrite startConnection_eq.
  destruct (reconnectionAttempts (this x) >=? MAX_RECONNECTION_ATTEMPTS).
  - unfold exec, resolve. simpl. destruct (resolved x); simpl;
      (split; [reflexivity | lia]).
  - simpl. split; [reflexivity|]. unfold live.
    rewrite filter_app, length_app. simpl. lia.
Qed.

Lemma live_closed s r ss :
  nth_error ss s = Some r -> is_live r = true ->
  S (live (update_nth s CLOSED ss)) = live ss.
Proof.
  unfold live. revert s; induction ss as [|r0 rest IH]; intros s Hn Hl.
  - destruct s; discriminate.
  - destruct s as [|s]; simpl in *.
    + inversion Hn; subst r0. rewrite Hl. reflexivity.
    + destruct (is_live r0); simpl; rewrite <- (IH s Hn Hl); reflexivity.
Qed.

Lemma live_opened s ss :
  nth_error ss s = Some CONNECTING ->
  live (update_nth s OPEN ss) = live ss.
Proof.
  unfold live. revert s; induction ss as [|r0 rest IH]; intros s Hn.
  - destruct s; discriminate.
  - destruct s as [|s]; simpl in *.
    + inversion Hn; subst r0. reflexivity.
    + destruct (is_live r0); simpl; rewrite (IH s Hn); reflexivity.
Qed.

Lemma retry_fired t ts :
  In t ts -> is_retry t = true ->
  (S (List.length
        (filter is_retry
           (filter (fun t' => negb (Nat.eqb (timer_id t') (timer_id t))) ts)))
   <= List.length (filter is_retry ts))%nat.
Proof.
  intros Hin Hr. induction ts as [|t0 rest IH]; [destruct Hin|].
  destruct Hin as [->|Hin]; simpl.
  - rewrite Nat.eqb_refl, Hr. simpl.
    pose proof (retries_cleared (timer_id t) rest). lia.
  - specialize (IH Hin).
    destruct (negb (Nat.eqb (timer_id t0) (timer_id t))); simpl;
      destruct (is_retry t0); simpl; lia.
Qed.

Lemma retries_rearmed t now ts :
  (List.length (filter is_retry (rearm t now ts))
   <= List.length (filter is_retry ts))%nat.
Proof.
  unfold rearm. destruct (period t) as [d|]; [|apply retries_cleared].
  induction ts as [|t0 rest IH]; simpl; [lia|].
  match goal with
  | |- context [is_retry ?g] =>
      assert (E : is_retry g = is_retry t0)
        by (destruct (Nat.eqb (timer_id t0) (timer_id t)); reflexivity);
      rewrite E
  end.
  destruct (is_retry t0); simpl; lia.
Qed.

Lemma calm_one_chain x w' n :
  (List.length (pending_retries x) + n <= 1)%nat ->
  calm x w' -> live (sockets x) = n -> one_chain w'.
Proof.
  intros H [Hc Hs] Hl. unfold one_chain. rewrite Hs, Hl. lia.
Qed.

Lemma step_one_chain env w ev w' :
  sane w -> one_chain w ->
  init_provider env <> InitThrows ->
  step env w ev = Some w' ->
  one_chain w'.
Proof.
  intros [Hsane _] Hone Hinit. unfold one_chain in Hone.
  destruct ev as [s|s|s|s|id|ev l]; simpl; intros H.
  - destruct (nth_error (sockets w) s) as [[]|] eqn:E; inversion H; subst.
    eapply calm_one_chain; [|apply on_open_calm; exact Hinit|].
    + exact Hone.
    + apply live_opened; exact E.
  - assert (closing : forall r, nth_error (sockets w) s = Some r ->
                       is_live r = true ->
                       one_chain
                         (top_level on_close
                            (with_sockets (update_nth s CLOSED (sockets w)) w))).
    { intros r E Hl.
      destruct (on_close_one_retry
                  (with_sockets (update_nth s CLOSED (sockets w)) w))
        as [Hr Hs].
      pose proof (live_closed s r (sockets w) E Hl) as Hlive.
      unfold one_chain. rewrite Hs. simpl.
      change (pending_retries
                (with_sockets (update_nth s CLOSED (sockets w)) w))
        with (pending_retries w) in Hr.
      lia. }
    destruct (nth_error (sockets w) s) as [[]|] eqn:E; inversion H; subst;
      eapply closing; reflexivity.
  - destruct (nth_error (sockets w) s) as [[]|]; inversion H; subst;
      exact Hone.
  - destruct (nth_error (sockets w) s) as [[]|]; inversion H; subst.
    eapply calm_one_chain;
      [exact Hone
      |apply (respects_top_level calm); eauto using on_pong_calm
      |reflexivity].
  - destruct (find_timer id (timers w)) as [t|] eqn:F; [|discriminate].
    destruct (earliest t (timers w)); inversion H; subst; clear H.
    destruct (find_timer_some _ _ _ F) as [Hin _].
    destruct (Hsane t Hin) as [_ Harmed]. unfold well_armed in Harmed.
    pose proof (retries_rearmed t (Z.max (clock w) (due t)) (timers w)) as Hre.
    destruct (kind t) eqn:K; simpl.
    + match goal with
      | |- one_chain (top_level startConnection ?x) =>
          destruct (startConnection_one_socket x) as [Hp Hl]
      end.
      unfold one_chain. rewrite Hp. simpl sockets in Hl.
      unfold pending_retries at 1. simpl timers.
      unfold rearm in *. rewrite Harmed in *.
      assert (Hr : is_retry t = true) by (unfold is_retry; rewrite K; reflexivity).
      pose proof (retry_fired t (timers w) Hin Hr).
      unfold pending_retries in Hone. lia.
    + eapply calm_one_chain;
        [|apply (respects_top_level calm); eauto using keepAlive_probe_calm
         |reflexivity].
      unfold pending_retries in *; simpl; lia.
    + eapply calm_one_chain;
        [|apply (respects_top_level calm); eauto using pingTimeout_expired_calm
         |reflexivity].
      unfold pending_retries in *; simpl; lia.
    + eapply calm_one_chain;
        [|apply (respects_top_level calm); eauto using eventPoll_tick_calm
         |reflexivity].
      unfold pending_retries in *; simpl; lia.
  - destruct (resolved w) as [[p|]|]; inversion H; subst.
    unfold top_level, provider_on, bind, modify, emit, lift. simpl.
    destruct (native_on env p ev l); exact Hone.
Qed.

Lemma run_one_chain evs : forall w w',
  sane w -> one_chain w -> init_never_throws evs ->
  run w evs = Some w' -> one_chain w'.
Proof.
  induction evs as [|[env ev] rest IH]; simpl; intros w w' Hs Ho Hi H.
  - inversion H; subst; exact Ho.
  - destruct (step env w ev) as [w1|] eqn:E; [|discriminate].
    inversion Hi as [|? ? Hhead Htail]; subst. simpl in Hhead.
    eapply IH; [| |exact Htail|exact H].
    + eapply step_sane; eassumption.
    + eapply step_one_chain; eassumption.
Qed.

(** Where the initialization in the open handler never raises, at most one
    retry timer is pending at every point of every execution. *)
Lemma one_retry_without_init_failure evs w :
  run boot evs = Some w ->
  init_never_throws evs ->
  (List.length (pending_retries w) <= 1)%nat.
Proof.
  intros Hrun Hi.
  assert (H : one_chain w).
  { eapply run_one_chain; [apply boot_sane | | exact Hi | exact Hrun].
    unfold one_chain. apply Nat.leb_le. reflexivity. }
  unfold one_chain in H. lia.
Qed.

(** C9 does not hold in the code: when the initialization in the open
    handler raises, the [catch] block schedules [startConnection] and leaves
    the socket open; when that socket closes, the close handler schedules it
    again.  Two retry timers are then pending; both fire, and two sockets are
    connecting side by side. *)
Theorem C9_two_retries_pending :
  option_map (fun w => (map kind (pending_retries w), reconnectionAttempts (this w)))
    (run boot init_fails_then_close)
  = Some ([TRetry; TRetry], 2) /\
  option_map (fun w => (sockets w, new_sockets (trace w)))
    (run boot
       (init_fails_then_close ++
        [(healthy 0, TimerFires 2%nat); (healthy 0, TimerFires 3%nat)]))
  = Some ([CLOSED; CONNECTING; CONNECTING], [O; 1%nat; 2%nat]).
Proof. vm_compute. split; reflexivity. Qed.

(** * Further properties of the code *)

(** ** A relation kept by every handler is kept by every run *)

Section StepRespects.

Variable R : World -> World -> Prop.
Hypothesis R_refl : forall w, R w w.
Hypothesis R_trans : forall a b c, R a b -> R b c -> R a c.
Hypothesis R_trace : forall w t, R w (with_trace t w).
Hypothesis R_sockets :
  forall w s r, R w (with_sockets (update_nth s r (sockets w)) w).
Hypothesis R_fire :
  forall w t now, R w (with_clock now (with_timers (rearm t now (timers w)) w)).
Hypothesis R_open : forall env, respects R (on_open env).
Hypothesis R_close : respects R on_close.
Hypothesis R_pong : respects R on_pong.
Hypothesis R_timer : forall env k, respects R (timer_callback env k).
Hypothesis R_on : forall env p ev l, respects R (provider_on env p ev l).

Lemma step_respects env w ev w' : step env w ev = Some w' -> R w w'.
Proof.
  destruct ev as [s|s|s|s|id|ev l]; simpl; intros H.
  - destruct (nth_error (sockets w) s) as [[]|]; inversion H; subst.
    eapply R_trans; [apply R_sockets|].
    apply respects_top_level; auto.
  - destruct (nth_error (sockets w) s) as [[]|]; inversion H; subst;
      (eapply R_trans; [apply R_sockets|]);
      apply respects_top_level; auto.
  - destruct (nth_error (sockets w) s) as [[]|]; inversion H; subst;
      apply R_trace.
  - destruct (nth_error (sockets w) s) as [[]|]; inversion H; subst.
    apply respects_top_level; auto.
  - destruct (find_timer id (timers w)) as [t|]; [|discriminate].
    destruct (earliest t (timers w)); inversion H; subst.
    eapply R_trans; [apply R_fire|].
    apply respects_top_level; auto.
  - destruct (resolved w) as [[p|]|]; inversion H; subst.
    apply respects_top_level; auto.
Qed.

Lemma run_respects evs : forall w w', run w evs = Some w' -> R w w'.
Proof.
  induction evs as [|[env ev] rest IH]; simpl; intros w w' H.
  - inversion H; subst; apply R_refl.
  - destruct (step env w ev) as [w1|] eqn:E; [|discriminate].
    eapply R_trans; [eapply step_respects; exact E | apply IH; exact H].
Qed.

End StepRespects.

Ltac open_handlers :=
  unfold timer_callback, on_open, open_prelude, open_try, open_catch, on_close,
    on_pong, startConnection, keepAlive_probe, pingTimeout_expired,
    eventPoll_tick, pollEvents, poll_subscription, provider_on, resubscribe,
    cleanupConnection, clear_if_set, setupKeepAlive, setupEventPolling.

(** ** [terminate] is never cleared, a settled promise never changes *)

Lemma settled_refl w : settled w w.
Proof. split; auto. Qed.

Lemma settled_trans a b c : settled a b -> settled b c -> settled a c.
Proof. intros [H1 H2] [H3 H4]; split; auto. Qed.

Lemma settled_trace w t : settled w (with_trace t w).
Proof. exact (settled_refl w). Qed.

#[local] Hint Resolve settled_refl settled_trans settled_trace : core.

Ltac settled_leaf :=
  first
    [ assumption
    | let w := fresh "w" in
      intros w; first
        [ exact (settled_refl w)
        | split; [intros H; first [exact H | reflexivity] | intros r H; exact H]
        | unfold resolve; cbn [snd]; destruct (resolved w) eqn:?; split;
          intros; simpl; first [assumption | congruence] ] ].

Lemma settled_handlers :
  (forall env, respects settled (on_open env)) /\
  respects settled on_close /\
  respects settled on_pong /\
  (forall env k, respects settled (timer_callback env k)) /\
  (forall env p ev l, respects settled (provider_on env p ev l)).
Proof.
  split; [|split; [|split; [|split]]]; intros; try destruct k; open_handlers;
    handler settled_leaf.
Qed.

Lemma run_settled evs w w' : run w evs = Some w' -> settled w w'.
Proof.
  destruct settled_handlers as (H1 & H2 & H3 & H4 & H5).
  exact (run_respects settled settled_refl settled_trans settled_trace
           (fun w _ _ => settled_refl w) (fun w _ _ => settled_refl w)
           H1 H2 H3 H4 H5 evs w w').
Qed.

(** Once [terminate] is set nothing clears it: line 55 is its only
    assignment. *)
Theorem terminate_is_final evs w w' :
  run w evs = Some w' ->
  terminate (this w) = true ->
  terminate (this w') = true.
Proof.
  intros Hrun. apply (run_settled _ _ _ Hrun).
Qed.

Lemma terminate_is_final_witness :
  terminate
    (this (after (subscribe_all [] ++ lost_after_success ++
                  [(healthy 0, ClientOn (PEString "block") 1%nat)]))) = true.
Proof.
  apply (terminate_is_final [(healthy 0, ClientOn (PEString "block") 1%nat)]
           (after (subscribe_all [] ++ lost_after_success)));
    vm_compute; reflexivity.
Defined.

(** ** The registry is the record of the calls to the wrapped [on] *)

Lemma step_registry_call env w ev w' :
  step env w ev = Some w' ->
  subscriptions (this w')
  = subscriptions (this w) ++ client_calls [(env, ev)].
Proof.
  intros H. destruct ev as [s|s|s|s|id|sel l];
    try (rewrite (step_registry env w _ w' H) by (intros; discriminate);
         simpl; rewrite app_nil_r; reflexivity).
  simpl in H. destruct (resolved w) as [[p|]|]; inversion H; subst.
  unfold top_level, provider_on, bind, modify, emit, lift. simpl.
  destruct (native_on env p sel l); reflexivity.
Qed.

Lemma run_registry evs : forall w w',
  run w evs = Some w' ->
  subscriptions (this w') = subscriptions (this w) ++ client_calls evs.
Proof.
  induction evs as [|[env ev] rest IH]; simpl; intros w w' H.
  - inversion H; subst. rewrite app_nil_r. reflexivity.
  - destruct (step env w ev) as [w1|] eqn:E; [|discriminate].
    rewrite (IH _ _ H), (step_registry_call _ _ _ _ E).
    unfold client_calls. simpl. rewrite app_nil_r, <- app_assoc. reflexivity.
Qed.

(** The registry after a run is the registry before it followed by the pairs
    given to the wrapped [on] during the run, in order: nothing is ever
    removed, replaced or merged, whatever the sockets and timers do and
    whether the native [on] raised or not. *)
Theorem registry_records_calls evs w w' :
  run w evs = Some w' ->
  subscriptions (this w') = subscriptions (this w) ++ client_calls evs.
Proof.
  revert w. induction evs as [|[env ev] rest IH]; simpl; intros w H.
  - inversion H; subst. rewrite app_nil_r. reflexivity.
  - destruct (step env w ev) as [w1|] eqn:E; [|discriminate].
    rewrite (IH _ H), (step_registry_call _ _ _ _ E).
    unfold client_calls. simpl. rewrite app_nil_r, <- app_assoc. reflexivity.
Qed.

Lemma registry_records_calls_witness :
  subscriptions
    (this (after (subscribe_all [sub "0xA" 1%nat] ++
                  [(healthy 0, SocketClose O); (healthy 0, TimerFires 2%nat);
                   (rejecting "0xA", ClientOn (PEString "0xA") 1%nat)])))
  = subscriptions (this boot) ++
    client_calls
      (subscribe_all [sub "0xA" 1%nat] ++
       [(healthy 0, SocketClose O); (healthy 0, TimerFires 2%nat);
        (rejecting "0xA", ClientOn (PEString "0xA") 1%nat)]).
Proof.
  apply registry_records_calls. vm_compute; reflexivity.
Defined.

(** ** [ws] is the newest socket *)

Lemma keeps_newest_refl w : keeps_newest w w.
Proof. intros H; exact H. Qed.

Lemma keeps_newest_trans a b c :
  keeps_newest a b -> keeps_newest b c -> keeps_newest a c.
Proof. unfold keeps_newest; auto. Qed.

Lemma keeps_newest_trace w t : keeps_newest w (with_trace t w).
Proof. exact (keeps_newest_refl w). Qed.

#[local] Hint Resolve keeps_newest_refl keeps_newest_trans keeps_newest_trace
  : core.

Lemma length_update_nth {A} n (a : A) l :
  List.length (update_nth n a l) = List.length l.
Proof.
  revert n; induction l as [|x rest IH]; intros [|n]; simpl; auto.
Qed.

Lemma new_socket_is_newest :
  respects keeps_newest (s <- new_WebSocket ;; modify (set_ws (Some s))).
Proof.
  intros w _. exists (List.length (sockets w)). split; [reflexivity|].
  simpl. rewrite length_app. simpl. lia.
Qed.

Ltac newest_leaf :=
  first
    [ assumption
    | apply new_socket_is_newest
    | let w := fresh "w" in
      intros w; first
        [ exact (keeps_newest_refl w)
        | unfold resolve; cbn [snd]; destruct (resolved w);
          exact (keeps_newest_refl w) ] ].

Lemma keeps_newest_handlers :
  (forall env, respects keeps_newest (on_open env)) /\
  respects keeps_newest on_close /\
  respects keeps_newest on_pong /\
  (forall env k, respects keeps_newest (timer_callback env k)) /\
  (forall env p ev l, respects keeps_newest (provider_on env p ev l)).
Proof.
  split; [|split; [|split; [|split]]]; intros; try destruct k; open_handlers;
    handler newest_leaf.
Qed.

(** After [connect()] on a fresh instance, [this.ws] is never empty again and
    always designates the socket created last: the "No websocket" branch of
    the keep-alive callback (lines 129-132) is never taken, and pings,
    [terminate] and the provider of an open handler all go to the newest
    socket. *)
Theorem ws_always_newest_socket evs w :
  run boot evs = Some w ->
  exists s, ws (this w) = Some s /\ List.length (sockets w) = S s.
Proof.
  intros Hrun. destruct keeps_newest_handlers as (H1 & H2 & H3 & H4 & H5).
  refine (run_respects keeps_newest keeps_newest_refl keeps_newest_trans
            keeps_newest_trace _ (fun w _ _ => keeps_newest_refl w)
            H1 H2 H3 H4 H5 evs boot w Hrun _).
  - intros w0 s r [s0 [Hs Hl]]. exists s0. split; [exact Hs|].
    simpl. rewrite length_update_nth. exact Hl.
  - exists O. split; reflexivity.
Qed.

Lemma ws_always_newest_socket_witness :
  exists s,
    ws (this (after (init_fails_then_close ++
                     [(healthy 0, TimerFires 2%nat);
                      (healthy 0, TimerFires 3%nat)]))) = Some s /\
    List.length
      (sockets (after (init_fails_then_close ++
                       [(healthy 0, TimerFires 2%nat);
                        (healthy 0, TimerFires 3%nat)]))) = S s.
Proof.
  apply (ws_always_newest_socket
           (init_fails_then_close ++
            [(healthy 0, TimerFires 2%nat); (healthy 0, TimerFires 3%nat)])).
  vm_compute; reflexivity.
Defined.

(** ** The watermark is a block number the node answered *)

Lemma idle_poll_watermark env w id t w' :
  find_timer id (timers w) = Some t -> kind t = TEventPoll ->
  provider (this w) = None ->
  step env w (TimerFires id) = Some w' ->
  last_of w' = last_of w.
Proof.
  intros Hf Hk Hp. cbn [step]. rewrite Hf.
  destruct (earliest t (timers w)); [|discriminate].
  intros H; inversion H; subst w'; clear H.
  rewrite Hk. cbn [timer_callback]. unfold top_level.
  rewrite eventPoll_tick_eq. cbn [this with_clock with_timers].
  rewrite Hp. reflexivity.
Qed.

Lemma step_answer env w ev w' :
  step env w ev = Some w' ->
  last_of w' = last_of w \/ answer env w ev = [last_of w'].
Proof.
  intros E.
  destruct (step_watermark _ _ _ _ E) as [Hs|(id & t & Hev & Hf & Hk & Hb)];
    [left; exact Hs|].
  subst ev. destruct (provider (this w)) as [p|] eqn:P.
  - right. unfold answer. rewrite Hf, P, Hb, Hk. reflexivity.
  - left. eapply idle_poll_watermark; eassumption.
Qed.

(** After any run the watermark is the one the run started with or a block
    number [getBlockNumber] answered to a polling cycle of the run: nothing
    else is ever stored in it. *)
Theorem watermark_is_an_answer evs : forall w w',
  run w evs = Some w' ->
  last_of w' = last_of w \/ In (last_of w') (answered w evs).
Proof.
  induction evs as [|[env ev] rest IH]; simpl; intros w w' H.
  - inversion H; subst. left; reflexivity.
  - destruct (step env w ev) as [w1|] eqn:E; [|discriminate].
    destruct (IH _ _ H) as [Hsame|Hin].
    + rewrite Hsame.
      destruct (step_answer _ _ _ _ E) as [Hs|Ha].
      * left; exact Hs.
      * right. rewrite Ha. left; reflexivity.
    + right. apply in_or_app. right; exact Hin.
Qed.

Lemma watermark_is_an_answer_witness :
  last_of (after (subscribe_all [sub "block" 1%nat] ++
                  [(healthy 99, TimerFires keepAlive_timer);
                   (healthy 99, SocketPong O);
                   (healthy 10, TimerFires poll_timer)]))
  = last_of boot \/
  In (last_of (after (subscribe_all [sub "block" 1%nat] ++
                      [(healthy 99, TimerFires keepAlive_timer);
                       (healthy 99, SocketPong O);
                       (healthy 10, TimerFires poll_timer)])))
     (answered boot
        (subscribe_all [sub "block" 1%nat] ++
         [(healthy 99, TimerFires keepAlive_timer);
          (healthy 99, SocketPong O);
          (healthy 10, TimerFires poll_timer)])).
Proof.
  apply watermark_is_an_answer. vm_compute; reflexivity.
Defined.

(** ** The attempt counter at "open" *)

Lemma same_counter_refl w : same_counter w w.
Proof. repeat split. Qed.

Lemma same_counter_trans a b c :
  same_counter a b -> same_counter b c -> same_counter a c.
Proof.
  intros (H1 & H2 & H3 & H4) (H5 & H6 & H7 & H8); repeat split; congruence.
Qed.

Lemma same_counter_trace w t : same_counter w (with_trace t w).
Proof. exact (same_counter_refl w). Qed.

#[local] Hint Resolve same_counter_refl same_counter_trans same_counter_trace
  : core.

Ltac counter_leaf :=
  first
    [ assumption
    | let w := fresh "w" in
      intros w; first
        [ exact (same_counter_refl w)
        | unfold resolve; cbn [snd]; destruct (resolved w);
          exact (same_counter_refl w) ] ].

Lemma cleanupConnection_counter : respects same_counter cleanupConnection.
Proof. open_handlers. handler counter_leaf. Qed.

Lemma cleanupConnection_returns y : fst (cleanupConnection y) = Ok tt.
Proof.
  unfold cleanupConnection, clear_if_set, bind, get. simpl.
  destruct (keepAliveInterval (this y)); simpl;
    destruct (pingTimeout (this y)); simpl;
    destruct (eventPollInterval (this y)); reflexivity.
Qed.

Lemma open_try_counter env init : respects same_counter (open_try env init).
Proof. open_handlers. handler counter_leaf. Qed.

Lemma open_prelude_eq x :
  exists x1,
    open_prelude x = (Ok tt, x1) /\
    reconnectionAttempts (this x1) = 0 /\ isConnected (this x1) = true.
Proof. eexists. split; [reflexivity|]. split; reflexivity. Qed.

Lemma open_catch_counter e x :
  reconnectionAttempts (this (snd (open_catch e x)))
  = reconnectionAttempts (this x) + 1 /\
  isConnected (this (snd (open_catch e x))) = isConnected (this x).
Proof.
  unfold open_catch.
  erewrite bind_ok by reflexivity.
  match goal with
  | |- context [bind cleanupConnection _ ?y] =>
      pose proof (cleanupConnection_counter y) as (Hc & Hi & _);
      destruct (cleanupConnection y) as [[[]|e0] x1] eqn:E
  end; simpl in Hc, Hi.
  - erewrite bind_ok by exact E. simpl. rewrite Hc, Hi. split; reflexivity.
  - pose proof (cleanupConnection_returns
                  (with_trace (trace x ++ [Report (Some e)]) x)) as Hr.
    rewrite E in Hr. discriminate.
Qed.

(** Every "open" restarts the count: after the open handler the attempt
    counter is 0, or 1 when the initialization raised, whatever it was
    before; and [isConnected] is set, also when the initialization raised. *)
Theorem open_restarts_the_count env w s w' :
  step env w (SocketOpen s) = Some w' ->
  reconnectionAttempts (this w')
  = (match init_provider env with InitThrows => 1 | _ => 0 end) /\
  isConnected (this w') = true.
Proof.
  simpl. destruct (nth_error (sockets w) s) as [[]|]; try discriminate.
  intros H; inversion H; subst w'; clear H.
  unfold top_level, on_open.
  match goal with
  | |- context [bind open_prelude _ ?x] =>
      destruct (open_prelude_eq x) as (x1 & E & Ha & Hi)
  end.
  erewrite bind_ok by exact E.
  destruct (init_provider env) eqn:I.
  - pose proof (open_try_returns env x1) as Hr.
    pose proof (open_try_counter env InitReady x1) as (Hc & Hc' & _).
    unfold try_catch.
    destruct (open_try env InitReady x1) as [[[]|e] x2]; simpl in *;
      [|discriminate].
    split; congruence.
  - erewrite try_catch_throw by reflexivity.
    destruct (open_catch_counter ErrInit x1) as [Hc Hc'].
    destruct (open_catch ErrInit x1) as [[[]|e] x2]; simpl in *;
      rewrite Hc, Hc', Ha, Hi; split; reflexivity.
  - simpl. split; assumption.
Qed.

Lemma open_restarts_the_count_witness :
  reconnectionAttempts
    (this (after (subscribe_all [] ++
                  [(healthy 0, SocketClose O); (healthy 0, TimerFires 2%nat);
                   (healthy 0, SocketClose 1%nat);
                   (healthy 0, TimerFires 3%nat);
                   (node 0 no_logs quiet InitThrows, SocketOpen 2%nat)])))
  = 1 /\
  isConnected
    (this (after (subscribe_all [] ++
                  [(healthy 0, SocketClose O); (healthy 0, TimerFires 2%nat);
                   (healthy 0, SocketClose 1%nat);
                   (healthy 0, TimerFires 3%nat);
                   (node 0 no_logs quiet InitThrows, SocketOpen 2%nat)])))
  = true.
Proof.
  apply (open_restarts_the_count (node 0 no_logs quiet InitThrows)
           (after (subscribe_all [] ++
                   [(healthy 0, SocketClose O); (healthy 0, TimerFires 2%nat);
                    (healthy 0, SocketClose 1%nat);
                    (healthy 0, TimerFires 3%nat)]))
           2%nat).
  vm_compute; reflexivity.
Defined.

(** ** Attempts that fail after the socket opened *)

Lemma cleanup_fresh y a b ta tb :
  keepAliveInterval (this y) = Some a ->
  pingTimeout (this y) = None ->
  eventPollInterval (this y) = Some b ->
  timers y = [ta; tb] -> timer_id ta = a -> timer_id tb = b ->
  cleanupConnection y = (Ok tt, with_timers [] y).
Proof.
  intros Hk Hp He Ht Ha Hb. unfold cleanupConnection.
  erewrite bind_ok by reflexivity. rewrite Hk.
  erewrite bind_ok by reflexivity.
  erewrite bind_ok by reflexivity.
  cbn [this with_timers pingTimeout]. rewrite Hp.
  erewrite bind_ok by reflexivity.
  erewrite bind_ok by reflexivity.
  cbn [this with_timers eventPollInterval]. rewrite He.
  unfold clear_if_set, clearTimeout. cbn [timers with_timers]. rewrite Ht.
  cbn [filter]. rewrite Ha, Hb, !Nat.eqb_refl. cbn [negb].
  destruct (Nat.eqb b a); cbn [negb filter]; rewrite ?Hb, ?Nat.eqb_refl;
    reflexivity.
Qed.

(** The open handler on an instance with nothing pending, when the
    initialization raises: the two intervals it has just started are
    cleared, one attempt is counted and one retry is scheduled; the socket is
    left as it is. *)
Lemma on_open_throws_fresh env x :
  init_provider env = InitThrows ->
  timers x = [] ->
  pingTimeout (this x) = None ->
  let x' := top_level (on_open env) x in
  timers x'
  = [{| timer_id := S (S (next_timer x)); kind := TRetry;
        due := clock x + RECONNECTION_DELAY; period := None |}] /\
  terminate (this x') = terminate (this x) /\
  pingTimeout (this x') = None /\
  reconnectionAttempts (this x') = 1 /\
  ws (this x') = ws (this x) /\
  sockets x' = sockets x /\
  resolved x' = resolved x /\
  trace x' = trace x ++ [Report (Some ErrInit)].
Proof.
  intros Hinit Ht Hp x'. subst x'. unfold top_level, on_open.
  erewrite bind_ok by reflexivity. rewrite Hinit.
  erewrite try_catch_throw by reflexivity.
  unfold open_catch.
  erewrite bind_ok by reflexivity.
  erewrite bind_ok;
    [|eapply cleanup_fresh;
      [reflexivity | exact Hp | reflexivity
      | cbn [timers with_trace with_this with_next_timer with_timers];
        rewrite Ht; reflexivity
      | reflexivity | reflexivity]].
  erewrite bind_ok by reflexivity.
  erewrite bind_ok by reflexivity.
  cbn. repeat split; try reflexivity; assumption.
Qed.

Lemma nth_error_last {A} (r c : A) k :
  nth_error (repeat r k ++ [c]) k = Some c.
Proof.
  rewrite nth_error_app2 by (rewrite repeat_length; lia).
  rewrite repeat_length, Nat.sub_diag. reflexivity.
Qed.

Lemma update_nth_last {A} (r c : A) k :
  update_nth k r (repeat r k ++ [c]) = repeat r (S k).
Proof. induction k as [|k IH]; simpl; [reflexivity | rewrite IH; reflexivity]. Qed.

Lemma boot_retrying : retrying 0 boot.
Proof. repeat split; try reflexivity; vm_compute; discriminate. Qed.

Lemma init_failure_step k w w' :
  retrying k w -> init_failure w w' -> retrying (S k) w'.
Proof.
  intros (Ht & Hp & Ha & Hws & Htm & Hs & Hr & Hn) Hf.
  destruct Hf as [env1 env2 w s t w1 w2 Hws' Hinit Hopen Hfire].
  rewrite Hws in Hws'. inversion Hws'; subst s. clear Hws'.
  unfold step in Hopen. rewrite Hs, nth_error_last in Hopen.
  inversion Hopen; subst w1; clear Hopen.
  rewrite update_nth_last in Hfire.
  destruct (on_open_throws_fresh env1
              (with_sockets (repeat OPEN (S k)) w) Hinit Htm Hp)
    as (Htm1 & Ht1 & Hp1 & Ha1 & Hws1 & Hs1 & Hr1 & Htr1).
  eapply only_retry_fires in Hfire; [|exact Htm1]. subst w2.
  rewrite startConnection_eq.
  cbn [this with_clock with_timers reconnectionAttempts]. rewrite Ha1.
  change (1 >=? MAX_RECONNECTION_ATTEMPTS) with false. cbv iota.
  unfold retrying.
  cbn [this with_this with_trace with_sockets with_clock with_timers timers
       sockets resolved trace set_ws terminate pingTimeout
       reconnectionAttempts ws].
  rewrite Ht1, Hp1, Ha1, Hs1, Hr1, Htr1.
  cbn [this with_sockets sockets resolved terminate].
  rewrite repeat_length.
  repeat split; try assumption; try lia.
  cbn [trace with_sockets].
  rewrite !new_sockets_app, Hn. cbn [new_sockets flat_map app].
  rewrite app_nil_r.
  replace (S (S k)) with (S k + 1)%nat by lia.
  rewrite seq_app. reflexivity.
Qed.

Lemma init_failures_retrying n : forall k w w',
  retrying k w -> rounds init_failure n w w' -> retrying (k + n) w'.
Proof.
  induction n as [|n IH]; intros k w w' Hk Hr.
  - inversion Hr; subst. rewrite Nat.add_0_r. exact Hk.
  - inversion Hr as [|n0 w0 w1 w2 Hfirst Hrest]; subst.
    replace (k + S n)%nat with (S k + n)%nat by lia.
    apply IH with (w := w1); [|exact Hrest].
    eapply init_failure_step; eassumption.
Qed.

(** Failures of the initialization never reach the ceiling: the open handler
    resets the counter before the [try] (line 63), so after any number [n] of
    attempts that open and then fail in their initialization the instance is
    not terminated, the promise of [connect()] is still pending, the counter
    is at most 1 and socket [n] is being connected, while the [n] sockets of
    the failed attempts are all still open. *)
Theorem init_failures_never_give_up n w :
  rounds init_failure n boot w ->
  terminate (this w) = false /\
  resolved w = None /\
  reconnectionAttempts (this w) <= 1 /\
  new_sockets (trace w) = seq 0 (S n) /\
  sockets w = repeat OPEN n ++ [CONNECTING].
Proof.
  intros H.
  destruct (init_failures_retrying n 0 boot w boot_retrying H)
    as (Ht & _ & Ha & _ & _ & Hs & Hr & Hn).
  repeat split; try assumption; lia.
Qed.

Lemma init_failures_never_give_up_witness :
  exists w,
    rounds init_failure 12 boot w /\
    terminate (this w) = false /\ resolved w = None.
Proof.
  assert (H : {w | rounds init_failure 12 boot w}).
  { eexists.
    do 12 (eapply rounds_S;
           [eapply init_failure_intro
              with (env1 := node 0 no_logs quiet InitThrows)
                   (env2 := healthy 0);
            [reflexivity
            | reflexivity
            | lazy; reflexivity
            | match goal with
              | |- step _ ?x (TimerFires ?t) = _ =>
                  let n := eval lazy in (Nat.pred (next_timer x)) in
                  unify t n
              end; lazy; reflexivity]
           |]).
    apply rounds_O. }
  destruct H as [w H]. exists w. split; [exact H|].
  destruct (init_failures_never_give_up 12 w H) as (Ht & Hr & _).
  split; [exact Ht | exact Hr].
Defined.

(** ** The attempt counter stays within its range *)

Lemma timer_callback_counter env k :
  k <> TRetry -> respects same_counter (timer_callback env k).
Proof.
  destruct k; intros Hk; [congruence| | |];
    open_handlers; handler counter_leaf.
Qed.

Lemma on_pong_counter : respects same_counter on_pong.
Proof. open_handlers. handler counter_leaf. Qed.

Lemma provider_on_counter env p ev l :
  respects same_counter (provider_on env p ev l).
Proof. open_handlers. handler counter_leaf. Qed.

Lemma top_level_counter {A} (m : M A) x :
  respects same_counter m ->
  reconnectionAttempts (this (top_level m x)) = reconnectionAttempts (this x) /\
  sockets (top_level m x) = sockets x.
Proof.
  intros H.
  destruct (respects_top_level same_counter same_counter_trans
              same_counter_trace m x H)
    as (Hc & _ & Hs & _).
  split; assumption.
Qed.

(** "open" with an initialization that does not raise leaves the counter
    at 0. *)
Lemma on_open_counter env x :
  init_provider env <> InitThrows ->
  reconnectionAttempts (this (top_level (on_open env) x)) = 0 /\
  sockets (top_level (on_open env) x) = sockets x.
Proof.
  intros Hinit. unfold top_level, on_open.
  destruct (open_prelude_eq x) as (x1 & E & Ha & _).
  assert (Hs : sockets x1 = sockets x).
  { unfold open_prelude in E. inversion E; reflexivity. }
  erewrite bind_ok by exact E.
  destruct (init_provider env) eqn:I; [| congruence |].
  - pose proof (open_try_returns env x1) as Hr.
    pose proof (open_try_counter env InitReady x1) as (Hc & _ & Hs' & _).
    unfold try_catch.
    destruct (open_try env InitReady x1) as [[[]|e] x2]; simpl in *;
      [|discriminate].
    split; congruence.
  - simpl. split; assumption.
Qed.

(** "close" adds at most one to the counter, and exactly one unless the
    instance has terminated. *)
Lemma on_close_counter x :
  reconnectionAttempts (this (top_level on_close x))
  = (if terminate (this x) then reconnectionAttempts (this x)
     else reconnectionAttempts (this x) + 1) /\
  sockets (top_level on_close x) = sockets x.
Proof.
  unfold top_level, on_close.
  erewrite bind_ok by reflexivity.
  erewrite bind_ok by reflexivity.
  match goal with
  | |- context [bind cleanupConnection _ ?y] =>
      pose proof (cleanupConnection_counter y) as (Hc & _ & Hs & Ht);
      pose proof (cleanupConnection_returns y) as Hr;
      destruct (cleanupConnection y) as [[[]|e] x1] eqn:E
  end; simpl in Hc, Hs, Ht, Hr; [|discriminate].
  erewrite bind_ok by exact E.
  erewrite bind_ok by reflexivity.
  rewrite Ht. destruct (terminate (this x)); simpl; rewrite Hc, Hs;
    split; reflexivity.
Qed.

Lemma step_counter_in_range env w ev w' :
  one_chain w -> counter_in_range w ->
  init_provider env <> InitThrows ->
  step env w ev = Some w' ->
  counter_in_range w'.
Proof.
  intros Hone [Hr Hl] Hinit. unfold one_chain in Hone.
  unfold counter_in_range, MAX_RECONNECTION_ATTEMPTS in *.
  destruct ev as [s|s|s|s|id|ev l]; simpl; intros H.
  - destruct (nth_error (sockets w) s) as [[]|] eqn:E; inversion H; subst.
    match goal with
    | |- context [top_level (on_open env) ?x] =>
        destruct (on_open_counter env x Hinit) as [Hc Hs]
    end.
    rewrite Hc. lia.
  - assert (closing : forall r, nth_error (sockets w) s = Some r ->
                       is_live r = true ->
                       counter_in_range
                         (top_level on_close
                            (with_sockets (update_nth s CLOSED (sockets w)) w))).
    { intros r E Hlive.
      destruct (on_close_counter
                  (with_sockets (update_nth s CLOSED (sockets w)) w))
        as [Hc Hs].
      pose proof (live_closed s r (sockets w) E Hlive) as Hlv.
      unfold counter_in_range, MAX_RECONNECTION_ATTEMPTS.
      rewrite Hc, Hs. simpl.
      destruct (terminate (this w)); lia. }
    destruct (nth_error (sockets w) s) as [[]|] eqn:E; inversion H; subst;
      eapply closing; reflexivity.
  - destruct (nth_error (sockets w) s) as [[]|]; inversion H; subst;
      simpl; auto.
  - destruct (nth_error (sockets w) s) as [[]|]; inversion H; subst.
    destruct (top_level_counter on_pong w on_pong_counter) as [Hc Hs].
    rewrite Hc, Hs. auto.
  - destruct (find_timer id (timers w)) as [t|] eqn:F; [|discriminate].
    destruct (earliest t (timers w)); inversion H; subst; clear H.
    destruct (kind t) eqn:K.
    + cbn [timer_callback]. rewrite startConnection_eq.
      cbn [this with_clock with_timers reconnectionAttempts sockets].
      unfold MAX_RECONNECTION_ATTEMPTS.
      destruct (Z.geb_spec (reconnectionAttempts (this w)) 10) as [Hge|Hlt].
      * unfold exec, resolve. simpl. destruct (resolved w); simpl; auto.
      * simpl. split; [exact Hr | lia].
    + match goal with
      | |- context [top_level ?m ?x] =>
          destruct (top_level_counter m x) as [Hc Hs];
            [apply timer_callback_counter; discriminate|]
      end.
      rewrite Hc, Hs. simpl. auto.
    + match goal with
      | |- context [top_level ?m ?x] =>
          destruct (top_level_counter m x) as [Hc Hs];
            [apply timer_callback_counter; discriminate|]
      end.
      rewrite Hc, Hs. simpl. auto.
    + match goal with
      | |- context [top_level ?m ?x] =>
          destruct (top_level_counter m x) as [Hc Hs];
            [apply timer_callback_counter; discriminate|]
      end.
      rewrite Hc, Hs. simpl. auto.
  - destruct (resolved w) as [[p|]|]; inversion H; subst.
    match goal with
    | |- context [top_level ?m ?x] =>
        destruct (top_level_counter m x) as [Hc Hs];
          [apply provider_on_counter|]
    end.
    rewrite Hc, Hs. auto.
Qed.

Lemma run_counter_in_range evs : forall w w',
  sane w -> one_chain w -> counter_in_range w -> init_never_throws evs ->
  run w evs = Some w' -> counter_in_range w'.
Proof.
  induction evs as [|[env ev] rest IH]; simpl; intros w w' Hs Ho Hc Hi H.
  - inversion H; subst; exact Hc.
  - destruct (step env w ev) as [w1|] eqn:E; [|discriminate].
    inversion Hi as [|? ? Hhead Htail]; subst. simpl in Hhead.
    eapply IH; [| | |exact Htail|exact H].
    + eapply step_sane; eassumption.
    + eapply step_one_chain; eassumption.
    + eapply step_counter_in_range; eassumption.
Qed.

(** As long as no initialization raises, the attempt counter stays between 0
    and the ceiling in every reachable state, and is below the ceiling
    whenever a socket has not closed yet. *)
Theorem attempts_within_the_ceiling evs w :
  run boot evs = Some w ->
  init_never_throws evs ->
  0 <= reconnectionAttempts (this w) <= MAX_RECONNECTION_ATTEMPTS /\
  ((0 < live (sockets w))%nat ->
   reconnectionAttempts (this w) < MAX_RECONNECTION_ATTEMPTS).
Proof.
  intros Hrun Hi.
  eapply (run_counter_in_range evs boot w);
    [apply boot_sane | | | exact Hi | exact Hrun].
  - unfold one_chain. apply Nat.leb_le. reflexivity.
  - split; [split; discriminate | intros _; reflexivity].
Qed.

Lemma attempts_within_the_ceiling_witness :
  0 <= reconnectionAttempts (this (after ten_failures))
    <= MAX_RECONNECTION_ATTEMPTS /\
  ((0 < live (sockets (after ten_failures)))%nat ->
   reconnectionAttempts (this (after ten_failures))
   < MAX_RECONNECTION_ATTEMPTS).
Proof.
  apply (attempts_within_the_ceiling ten_failures).
  - vm_compute; reflexivity.
  - unfold init_never_throws, ten_failures.
    repeat (constructor; [discriminate|]). constructor.
Defined.

(** ** A single address subscription is polled without gaps *)

Lemma no_query_refl w : no_query w w.
Proof. split; reflexivity. Qed.

Lemma no_query_trans a b c : no_query a b -> no_query b c -> no_query a c.
Proof. intros [H1 H2] [H3 H4]; split; congruence. Qed.

#[local] Hint Resolve no_query_refl no_query_trans : core.

Ltac no_query_leaf :=
  first
    [ assumption
    | let w := fresh "w" in
      intros w; unfold no_query, emit, resolve, new_WebSocket;
      cbn [snd trace with_trace with_this with_timers with_next_timer
           with_sockets with_resolved];
      first
        [ split; reflexivity
        | split; [rewrite queries_app; apply app_nil_r | reflexivity]
        | destruct (resolved w); cbn [trace with_resolved];
          split; first [reflexivity | rewrite queries_app; apply app_nil_r] ] ].

(** Like [quiet_handler], for any relation on the trace. *)
Ltac each_emit leaf :=
  repeat first
    [ solve [leaf]
    | apply respects_ret; side
    | apply respects_lift; side
    | apply respects_get; side
    | apply respects_bind; side
    | apply respects_try_catch; side
    | apply respects_for_of; side
    | progress cbv beta iota
    | match goal with
      | |- respects _ (match ?x with _ => _ end) => destruct x
      end ].

Lemma quiet_callbacks_no_query env k :
  k <> TEventPoll -> respects no_query (timer_callback env k).
Proof.
  destruct k; intros Hk; [| | |congruence];
    unfold timer_callback, startConnection, keepAlive_probe,
      pingTimeout_expired, clear_if_set;
    each_emit no_query_leaf.
Qed.

Lemma on_open_no_query env : respects no_query (on_open env).
Proof.
  unfold on_open, open_prelude, open_try, open_catch, setupKeepAlive,
    setupEventPolling, resubscribe, cleanupConnection, clear_if_set.
  each_emit no_query_leaf.
Qed.

Lemma on_close_no_query : respects no_query on_close.
Proof.
  unfold on_close, cleanupConnection, clear_if_set. each_emit no_query_leaf.
Qed.

Lemma on_pong_no_query : respects no_query on_pong.
Proof. unfold on_pong, clear_if_set. each_emit no_query_leaf. Qed.

Lemma provider_on_no_query env p ev l :
  respects no_query (provider_on env p ev l).
Proof. unfold provider_on. each_emit no_query_leaf. Qed.

Lemma top_level_no_query {A} (m : M A) x :
  respects no_query m -> no_query x (top_level m x).
Proof.
  intros H. unfold top_level. specialize (H x).
  destruct (m x) as [[r|e] x1]; simpl in *; [exact H|].
  destruct H as [Hq Hl]. split; [|exact Hl].
  cbn [trace with_trace]. rewrite queries_app, Hq. apply app_nil_r.
Qed.

Lemma tracks_no_query a w w' : no_query w w' -> tracks a w -> tracks a w'.
Proof. unfold tracks. intros [-> ->] H. exact H. Qed.

Lemma gapless_snoc fs f :
  gapless (fs ++ [f]) <->
  gapless fs /\
  match hd_error (rev fs) with
  | Some g => fromBlock f = fromBlock g \/ fromBlock f = toBlock g + 1
  | None => True
  end.
Proof.
  induction fs as [|g [|h rest] IH].
  - simpl. tauto.
  - simpl. tauto.
  - change (gapless ((g :: h :: rest) ++ [f]))
      with ((fromBlock h = fromBlock g \/ fromBlock h = toBlock g + 1) /\
            gapless ((h :: rest) ++ [f])).
    change (gapless (g :: h :: rest))
      with ((fromBlock h = fromBlock g \/ fromBlock h = toBlock g + 1) /\
            gapless (h :: rest)).
    assert (E : hd_error (rev (g :: h :: rest)) = hd_error (rev (h :: rest))).
    { change (rev (g :: h :: rest)) with (rev (h :: rest) ++ [g]).
      destruct (rev (h :: rest)) eqn:R; [|reflexivity].
      apply (f_equal (@List.length _)) in R.
      rewrite length_rev in R. discriminate. }
    rewrite E. tauto.
Qed.

(** Handling the address subscription makes one query, from the block after
    the watermark up to the current block. *)
Lemma poll_one_query env cur s a x :
  is_address (type s) = Some a ->
  queries (trace (exec (poll_subscription env cur s) x))
  = queries (trace x) ++ [filter_for a (last_of x) cur].
Proof.
  intros Ha. rewrite poll_effects, queries_app.
  destruct (address_effects env (last_of x) cur s a Ha) as (tail & -> & _ & Hq).
  simpl. rewrite queries_app, queries_calls, Hq. reflexivity.
Qed.

Lemma poll_one_tracks env cur s a x :
  is_address (type s) = Some a ->
  tracks a x -> tracks a (exec (poll_subscription env cur s) x).
Proof.
  intros Ha (Hg & Hf & Hl). unfold tracks.
  rewrite (poll_one_query env cur s a x Ha), poll_watermark.
  split; [|split].
  - apply gapless_snoc. split; [exact Hg|].
    destruct (hd_error (rev (queries (trace x)))); [|exact I].
    simpl. lia.
  - apply Forall_app. split; [exact Hf|]. constructor; [reflexivity|constructor].
  - rewrite rev_app_distr. simpl.
    destruct (advances env (last_of x) cur s); [right|left]; reflexivity.
Qed.

Lemma poll_all_unpolled env cur subs x :
  filter polled_sub subs = [] -> poll_all env cur subs x = x.
Proof.
  induction subs as [|s rest IH]; simpl; intros H; [reflexivity|].
  unfold polled_sub at 1 in H. destruct (polled (type s)) eqn:P; [discriminate|].
  change (poll_all env cur (s :: rest) x)
    with (poll_all env cur rest (exec (poll_subscription env cur s) x)).
  rewrite (unpolled_idle env cur s x P). apply IH; exact H.
Qed.

Lemma poll_all_tracks env cur a subs x :
  lone_address a subs -> tracks a x -> tracks a (poll_all env cur subs x).
Proof.
  unfold lone_address.
  induction subs as [|s rest IH]; simpl; intros H Hx; [exact Hx|].
  change (poll_all env cur (s :: rest) x)
    with (poll_all env cur rest (exec (poll_subscription env cur s) x)).
  unfold polled_sub at 1 in H. destruct (polled (type s)) eqn:P.
  - destruct (filter polled_sub rest) eqn:F; [|destruct H].
    rewrite (poll_all_unpolled env cur rest _ F).
    apply poll_one_tracks; assumption.
  - rewrite (unpolled_idle env cur s x P). apply IH; assumption.
Qed.

Lemma pollEvents_tracks env a x :
  lone_address a (subscriptions (this x)) ->
  tracks a x -> tracks a (top_level (pollEvents env) x).
Proof.
  intros Hlone Hx. unfold top_level.
  assert (H0 : tracks a (exec (emit GetBlockNumber) x)).
  { eapply tracks_no_query; [|exact Hx]. split; [|reflexivity].
    unfold exec, emit. cbn [snd trace with_trace].
    rewrite queries_app. apply app_nil_r. }
  destruct (getBlockNumber env) as [cur|e] eqn:E.
  - rewrite (pollEvents_cycle _ _ _ E). unfold poll_prefix.
    apply poll_all_tracks; assumption.
  - rewrite (pollEvents_no_block_number _ _ _ E).
    eapply tracks_no_query; [|exact H0]. split; [|reflexivity].
    cbn [trace with_trace]. rewrite queries_app. apply app_nil_r.
Qed.

Lemma step_tracks env a w ev w' :
  lone_address a (subscriptions (this w)) ->
  tracks a w ->
  step env w ev = Some w' ->
  tracks a w'.
Proof.
  intros Hlone Hw.
  assert (quiet : forall A (m : M A) x,
            respects no_query m -> no_query w x -> tracks a (top_level m x)).
  { intros A m x Hm Hx. eapply tracks_no_query; [|exact Hw].
    eapply no_query_trans; [exact Hx | apply top_level_no_query; exact Hm]. }
  destruct ev as [s|s|s|s|id|sel l]; simpl; intros H.
  - destruct (nth_error (sockets w) s) as [[]|]; inversion H; subst.
    apply quiet; [apply on_open_no_query | split; reflexivity].
  - destruct (nth_error (sockets w) s) as [[]|]; inversion H; subst;
      (apply quiet; [apply on_close_no_query | split; reflexivity]).
  - destruct (nth_error (sockets w) s) as [[]|]; inversion H; subst;
      (eapply tracks_no_query; [|exact Hw]); split; try reflexivity;
      apply (eq_trans (queries_app (trace w) [Report None])), app_nil_r.
  - destruct (nth_error (sockets w) s) as [[]|]; inversion H; subst.
    apply quiet; [apply on_pong_no_query | split; reflexivity].
  - destruct (find_timer id (timers w)) as [t|]; [|discriminate].
    destruct (earliest t (timers w)); inversion H; subst; clear H.
    destruct (kind t) eqn:K;
      try (apply quiet;
           [apply quiet_callbacks_no_query; discriminate | split; reflexivity]).
    cbn [timer_callback]. unfold top_level. rewrite eventPoll_tick_eq.
    cbn [this with_clock with_timers].
    destruct (provider (this w)).
    + apply (pollEvents_tracks env a); [exact Hlone | exact Hw].
    + exact Hw.
  - destruct (resolved w) as [[p|]|]; inversion H; subst.
    apply quiet; [apply provider_on_no_query | split; reflexivity].
Qed.

Lemma lone_address_prefix a pre post :
  lone_address a (pre ++ post) -> lone_address a pre.
Proof.
  unfold lone_address. rewrite filter_app.
  destruct (filter polled_sub pre) as [|s [|s' rest]]; simpl; auto.
  destruct (filter polled_sub post); [auto | intros []].
Qed.

Lemma run_tracks a evs : forall w w',
  run w evs = Some w' ->
  lone_address a (subscriptions (this w')) ->
  tracks a w -> tracks a w'.
Proof.
  induction evs as [|[env ev] rest IH]; simpl; intros w w' H Hlone Hw.
  - inversion H; subst; exact Hw.
  - destruct (step env w ev) as [w1|] eqn:E; [|discriminate].
    apply (IH w1 w' H Hlone).
    apply (step_tracks env a w ev w1); [|exact Hw|exact E].
    rewrite (run_registry _ _ _ H), (step_registry_call _ _ _ _ E),
      <- app_assoc in Hlone.
    apply lone_address_prefix in Hlone. exact Hlone.
Qed.

(** When the registry ends up with a single entry the poller handles, an
    address subscription for [a], no block is skipped between two queries:
    every query of the run is for [a], and each one after the first starts
    where the one before it started or at the block after the one at which
    it ended. *)
Theorem lone_address_is_polled_without_gaps evs w s a :
  run boot evs = Some w ->
  filter polled_sub (subscriptions (this w)) = [s] ->
  is_address (type s) = Some a ->
  gapless (queries (trace w)) /\
  Forall (fun f => address f = a) (queries (trace w)).
Proof.
  intros Hrun Hs Ha.
  assert (Hlone : lone_address a (subscriptions (this w))).
  { unfold lone_address. rewrite Hs. exact Ha. }
  destruct (run_tracks a evs boot w Hrun Hlone) as (Hg & Hf & _).
  { split; [exact I | split; [constructor | exact I]]. }
  split; [exact Hg | exact Hf].
Qed.

Lemma lone_address_is_polled_without_gaps_witness :
  gapless (queries (trace (after three_polls))) /\
  Forall (fun f => address f = "0xA"%string)
    (queries (trace (after three_polls))).
Proof.
  apply (lone_address_is_polled_without_gaps three_polls (after three_polls)
           (sub "0xA" 2%nat) "0xA"%string);
    vm_compute; reflexivity.
Defined.

(** ** The promise of [connect] holds the first provider assigned *)

Lemma same_promise_refl w : same_promise w w.
Proof. repeat split. Qed.

Lemma same_promise_trans a b c :
  same_promise a b -> same_promise b c -> same_promise a c.
Proof.
  intros (H1 & H2 & H3 & H4 & H5) (H6 & H7 & H8 & H9 & H10).
  repeat split; congruence.
Qed.

#[local] Hint Resolve same_promise_refl same_promise_trans : core.

Lemma new_providers_app t1 t2 :
  new_providers (t1 ++ t2) = new_providers t1 ++ new_providers t2.
Proof. apply flat_map_app. Qed.

Ltac same_promise_leaf :=
  first
    [ assumption
    | let w := fresh "w" in
      intros w; unfold same_promise, emit;
      cbn [snd trace with_trace with_this with_timers with_next_timer
           with_sockets with_resolved];
      first
        [ repeat split; reflexivity
        | repeat split; rewrite new_providers_app; apply app_nil_r ] ].

Lemma cleanupConnection_same_promise : respects same_promise cleanupConnection.
Proof. unfold cleanupConnection, clear_if_set. each_emit same_promise_leaf. Qed.

Lemma quiet_callbacks_same_promise env k :
  k <> TRetry -> respects same_promise (timer_callback env k).
Proof.
  destruct k; intros Hk; [congruence| | |];
    unfold timer_callback, keepAlive_probe, pingTimeout_expired,
      eventPoll_tick, pollEvents, poll_subscription, clear_if_set;
    each_emit same_promise_leaf.
Qed.

Lemma on_close_same_promise : respects same_promise on_close.
Proof.
  pose proof cleanupConnection_same_promise.
  unfold on_close. each_emit same_promise_leaf.
Qed.

Lemma on_pong_same_promise : respects same_promise on_pong.
Proof. unfold on_pong, clear_if_set. each_emit same_promise_leaf. Qed.

Lemma provider_on_same_promise env p ev l :
  respects same_promise (provider_on env p ev l).
Proof. unfold provider_on. each_emit same_promise_leaf. Qed.

Lemma open_prelude_same_promise : respects same_promise open_prelude.
Proof.
  unfold open_prelude, setupKeepAlive, setupEventPolling.
  each_emit same_promise_leaf.
Qed.

Lemma open_catch_same_promise e : respects same_promise (open_catch e).
Proof.
  pose proof cleanupConnection_same_promise.
  unfold open_catch. each_emit same_promise_leaf.
Qed.

Lemma top_level_same_promise {A} (m : M A) x :
  respects same_promise m -> same_promise x (top_level m x).
Proof.
  intros H. unfold top_level. specialize (H x).
  destruct (m x) as [[r|e] x1]; simpl in *; [exact H|].
  destruct H as (H1 & H2 & H3 & H4 & H5). repeat split; try assumption.
  cbn [trace with_trace]. rewrite new_providers_app, H5. apply app_nil_r.
Qed.

Lemma promise_ok_same w w' : same_promise w w' -> promise_ok w -> promise_ok w'.
Proof.
  unfold promise_ok, provider_is_newest, promise_matches.
  intros (-> & -> & -> & -> & ->) H. exact H.
Qed.

Lemma new_providers_replay env p subs :
  new_providers (replay_effects env p subs) = [].
Proof.
  induction subs as [|s rest IH]; simpl; [reflexivity|].
  destruct (native_on env p (type s) (listener s)); simpl; exact IH.
Qed.

(** The [try] block of the open handler builds one provider over the current
    socket and settles the promise with it, if it is not settled yet. *)
Lemma open_try_promise env w p :
  ws (this w) = Some p ->
  exists w',
    open_try env InitReady w = (Ok tt, w') /\
    new_providers (trace w') = new_providers (trace w) ++ [p] /\
    provider (this w') = Some p /\
    resolved w'
    = match resolved w with None => Some (Some p) | Some r => Some r end /\
    terminate (this w') = terminate (this w) /\
    ws (this w') = ws (this w).
Proof.
  intros Hws. unfold open_try.
  erewrite bind_ok by reflexivity.
  erewrite bind_ok by reflexivity. rewrite Hws.
  erewrite bind_ok by reflexivity.
  erewrite bind_ok by reflexivity.
  erewrite bind_ok by (apply resubscribe_replays; reflexivity).
  erewrite bind_ok by reflexivity.
  eexists; split; [reflexivity|].
  unfold resolve; simpl.
  destruct (resolved w) eqn:R; simpl;
    rewrite <- !app_assoc, !new_providers_app, new_providers_replay;
    simpl; rewrite ?Hws, ?R; repeat split; reflexivity.
Qed.

Lemma on_open_promise env x :
  promise_ok x -> promise_ok (top_level (on_open env) x).
Proof.
  intros Hx. unfold top_level, on_open.
  pose proof (open_prelude_same_promise x) as H0.
  destruct (open_prelude x) as [[[]|e0] x1] eqn:E0; simpl in H0.
  2:{ unfold bind. rewrite E0.
      eapply promise_ok_same; [|exact Hx].
      destruct H0 as (H1 & H2 & H3 & H4 & H5). repeat split; try assumption.
      cbn [trace with_trace]. rewrite new_providers_app, H5. apply app_nil_r. }
  erewrite bind_ok by exact E0.
  pose proof (promise_ok_same _ _ H0 Hx) as H1.
  destruct (init_provider env).
  - destruct H1 as (Hws & Hnew & Hm).
    destruct (ws (this x1)) as [p|] eqn:W; [|congruence].
    destruct (open_try_promise env x1 p W) as (x2 & E & Hn & Hp & Hr & Ht & Hw).
    unfold try_catch. rewrite E.
    unfold promise_ok, provider_is_newest, promise_matches in *.
    rewrite Hn, Hp, Hr, Ht, Hw, rev_app_distr.
    split; [congruence|]. split; [reflexivity|].
    destruct (resolved x1) as [[q|]|].
    + destruct (new_providers (trace x1)); [discriminate | exact Hm].
    + exact Hm.
    + destruct Hm as [_ ->]. reflexivity.
  - erewrite try_catch_throw by reflexivity.
    pose proof (open_catch_same_promise ErrInit x1) as Hc.
    destruct (open_catch ErrInit x1) as [[[]|e] x2]; simpl in Hc.
    + eapply promise_ok_same; eassumption.
    + eapply promise_ok_same; [|exact H1].
      destruct Hc as (H2 & H3 & H4 & H5 & H6). repeat split; try assumption.
      cbn [trace with_trace]. rewrite new_providers_app, H6. apply app_nil_r.
  - exact H1.
Qed.

Lemma startConnection_promise x :
  promise_ok x -> promise_ok (top_level startConnection x).
Proof.
  intros (Hws & Hnew & Hm). rewrite startConnection_eq.
  unfold promise_ok, provider_is_newest, promise_matches in *.
  destruct (reconnectionAttempts (this x) >=? MAX_RECONNECTION_ATTEMPTS).
  - assert (Hn : new_providers ((trace x ++ [Report None]) ++ [Resolve None])
                 = new_providers (trace x)).
    { rewrite !new_providers_app. simpl. rewrite !app_nil_r. reflexivity. }
    unfold exec, resolve.
    cbn [snd trace with_trace with_this this resolved with_resolved].
    destruct (resolved x) as [[q|]|] eqn:R;
      cbn [trace with_trace with_this with_resolved this resolved terminate
           set_terminate provider ws];
      rewrite ?R, Hn;
      (split; [exact Hws|]); (split; [exact Hnew|]);
      first [exact Hm | reflexivity].
  - cbn [trace with_trace with_this with_sockets this resolved provider ws
         set_ws terminate].
    rewrite new_providers_app, app_nil_r.
    split; [discriminate|]. split; [exact Hnew | exact Hm].
Qed.

Lemma step_promise env w ev w' :
  promise_ok w -> step env w ev = Some w' -> promise_ok w'.
Proof.
  intros Hw.
  assert (quiet : forall A (m : M A) x,
            respects same_promise m -> same_promise w x ->
            promise_ok (top_level m x)).
  { intros A m x Hm Hx. eapply promise_ok_same; [|exact Hw].
    eapply same_promise_trans;
      [exact Hx | apply top_level_same_promise; exact Hm]. }
  destruct ev as [s|s|s|s|id|sel l]; simpl; intros H.
  - destruct (nth_error (sockets w) s) as [[]|]; inversion H; subst.
    apply on_open_promise. exact Hw.
  - destruct (nth_error (sockets w) s) as [[]|]; inversion H; subst;
      (apply quiet; [apply on_close_same_promise | repeat split]).
  - destruct (nth_error (sockets w) s) as [[]|]; inversion H; subst;
      (eapply promise_ok_same; [|exact Hw]); repeat split;
      apply (eq_trans (new_providers_app (trace w) [Report None])), app_nil_r.
  - destruct (nth_error (sockets w) s) as [[]|]; inversion H; subst.
    apply quiet; [apply on_pong_same_promise | repeat split].
  - destruct (find_timer id (timers w)) as [t|]; [|discriminate].
    destruct (earliest t (timers w)); inversion H; subst; clear H.
    destruct (kind t) eqn:K;
      try (apply quiet;
           [apply quiet_callbacks_same_promise; discriminate | repeat split]).
    apply startConnection_promise. exact Hw.
  - destruct (resolved w) as [[p|]|] eqn:R; inversion H; subst.
    apply quiet; [apply provider_on_same_promise | repeat split].
Qed.

Lemma run_promise evs : forall w w',
  promise_ok w -> run w evs = Some w' -> promise_ok w'.
Proof.
  induction evs as [|[env ev] rest IH]; simpl; intros w w' Hw H.
  - inversion H; subst; exact Hw.
  - destruct (step env w ev) as [w1|] eqn:E; [|discriminate].
    eapply IH; [eapply step_promise; eassumption | exact H].
Qed.

Lemma boot_promise : promise_ok boot.
Proof.
  split; [discriminate|]. split; [reflexivity|]. split; reflexivity.
Qed.

(** As long as no initialization raises, the promise of [connect] is pending
    only while the instance has neither terminated nor assigned a provider,
    holds null only when the instance has terminated, and otherwise holds the
    first provider that became ready and was assigned to [provider];
    [provider] is the one assigned last, so after a reconnection the caller
    is left with a provider the instance no longer uses. *)
Theorem promise_holds_the_first_provider evs w :
  run boot evs = Some w ->
  init_never_throws evs ->
  match resolved w with
  | None => terminate (this w) = false /\ new_providers (trace w) = []
  | Some None => terminate (this w) = true
  | Some (Some p) => hd_error (new_providers (trace w)) = Some p
  end /\
  provider (this w) = hd_error (rev (new_providers (trace w))).
Proof.
  intros Hrun _.
  destruct (run_promise evs boot w boot_promise Hrun) as (_ & Hn & Hm).
  split; [exact Hm | exact Hn].
Qed.

Lemma promise_holds_the_first_provider_witness :
  match resolved (after reconnected) with
  | None => terminate (this (after reconnected)) = false /\
            new_providers (trace (after reconnected)) = []
  | Some None => terminate (this (after reconnected)) = true
  | Some (Some p) =>
      hd_error (new_providers (trace (after reconnected))) = Some p
  end /\
  provider (this (after reconnected))
  = hd_error (rev (new_providers (trace (after reconnected)))).
Proof.
  apply (promise_holds_the_first_provider reconnected).
  - vm_compute; reflexivity.
  - unfold init_never_throws, reconnected.
    repeat (constructor; [discriminate|]). constructor.
Defined.

(** ** The phases of an instance whose initializations never raise *)

Lemma same_shape_refl w : same_shape w w.
Proof. reflexivity. Qed.

Lemma same_shape_trans a b c : same_shape a b -> same_shape b c -> same_shape a c.
Proof. unfold same_shape; congruence. Qed.

Lemma same_shape_trace w t : same_shape w (with_trace t w).
Proof. reflexivity. Qed.

#[local] Hint Resolve same_shape_refl same_shape_trans same_shape_trace : core.

Ltac shape_leaf :=
  first
    [ assumption
    | let w := fresh "w" in
      intros w; first
        [ exact (same_shape_refl w)
        | unfold resolve; cbn [snd]; destruct (resolved w);
          exact (same_shape_refl w) ] ].

Lemma open_try_shape env init : respects same_shape (open_try env init).
Proof. open_handlers. handler shape_leaf. Qed.

Lemma eventPoll_tick_shape env : respects same_shape (eventPoll_tick env).
Proof. open_handlers. handler shape_leaf. Qed.

Lemma pingTimeout_expired_shape : respects same_shape pingTimeout_expired.
Proof. open_handlers. handler shape_leaf. Qed.

Lemma provider_on_shape env p ev l :
  respects same_shape (provider_on env p ev l).
Proof. open_handlers. handler shape_leaf. Qed.

Lemma top_level_shape {A} (m : M A) x :
  respects same_shape m -> view (top_level m x) = view x.
Proof.
  intros H.
  exact (respects_top_level same_shape same_shape_trans same_shape_trace m x H).
Qed.

(** The statements before the [try] of the open handler start the two
    intervals. *)
Lemma open_prelude_view x :
  view (snd (open_prelude x))
  = {| v_timers :=
         (timers x ++
          [interval (next_timer x) TKeepAlive
             (clock x + KEEP_ALIVE_CHECK_INTERVAL) KEEP_ALIVE_CHECK_INTERVAL]) ++
         [interval (S (next_timer x)) TEventPoll
            (clock x + EVENT_POLL_INTERVAL) EVENT_POLL_INTERVAL];
       v_next := S (S (next_timer x));
       v_sockets := sockets x;
       v_terminate := terminate (this x);
       v_connected := true;
       v_ws := ws (this x);
       v_keepAlive := Some (next_timer x);
       v_ping := pingTimeout (this x);
       v_poll := Some (S (next_timer x)) |}.
Proof. reflexivity. Qed.

Lemma on_open_view env x :
  init_provider env <> InitThrows ->
  view (top_level (on_open env) x) = view (snd (open_prelude x)).
Proof.
  intros Hinit. unfold top_level, on_open.
  assert (E : open_prelude x = (Ok tt, snd (open_prelude x))) by reflexivity.
  revert E. generalize (snd (open_prelude x)); intros x1 E.
  erewrite bind_ok by exact E.
  destruct (init_provider env); [| congruence | reflexivity].
  pose proof (open_try_returns env x1) as Hr.
  pose proof (open_try_shape env InitReady x1) as Hs.
  unfold try_catch.
  destruct (open_try env InitReady x1) as [[[]|e] x2];
    cbn [fst snd] in *; [exact Hs | discriminate].
Qed.

(** [cleanupConnection] clears the timers held in the three fields and
    touches nothing else. *)
Lemma cleanup_fields y :
  let y' := snd (cleanupConnection y) in
  timers y'
  = drop (eventPollInterval (this y))
      (drop (pingTimeout (this y))
         (drop (keepAliveInterval (this y)) (timers y))) /\
  this y' = this y /\ clock y' = clock y /\ next_timer y' = next_timer y /\
  sockets y' = sockets y /\ resolved y' = resolved y /\ trace y' = trace y.
Proof.
  unfold cleanupConnection, clear_if_set, clearTimeout, bind, get, ret, drop.
  cbn [snd fst].
  destruct (keepAliveInterval (this y)); cbn [this with_timers];
    destruct (pingTimeout (this y)); cbn [this with_timers];
    destruct (eventPollInterval (this y)); cbn;
    repeat split; reflexivity.
Qed.

Lemma on_close_view x :
  terminate (this x) = false ->
  view (top_level on_close x)
  = {| v_timers :=
         drop (eventPollInterval (this x))
           (drop (pingTimeout (this x))
              (drop (keepAliveInterval (this x)) (timers x))) ++
         [one_shot (next_timer x) TRetry (clock x + RECONNECTION_DELAY)];
       v_next := S (next_timer x);
       v_sockets := sockets x;
       v_terminate := false;
       v_connected := false;
       v_ws := ws (this x);
       v_keepAlive := keepAliveInterval (this x);
       v_ping := pingTimeout (this x);
       v_poll := eventPollInterval (this x) |}.
Proof.
  intros Ht. unfold top_level, on_close.
  erewrite bind_ok by reflexivity.
  erewrite bind_ok by reflexivity.
  match goal with
  | |- context [bind cleanupConnection _ ?y] =>
      pose proof (cleanup_fields y) as (H1 & H2 & H3 & H4 & H5 & _);
      pose proof (cleanupConnection_returns y) as Hr;
      destruct (cleanupConnection y) as [[[]|e] y'] eqn:E
  end; cbn [snd fst] in *; [|discriminate].
  erewrite bind_ok by exact E.
  erewrite bind_ok by reflexivity.
  rewrite H2. cbn [this with_this with_trace terminate set_isConnected].
  rewrite Ht. cbn [negb].
  erewrite bind_ok by reflexivity.
  erewrite bind_ok by reflexivity.
  unfold view, ret, one_shot. cbn.
  rewrite H1, H2, H3, H4, H5. cbn. rewrite Ht. reflexivity.
Qed.

Lemma on_pong_view x :
  view (top_level on_pong x)
  = {| v_timers := drop (pingTimeout (this x)) (timers x);
       v_next := next_timer x;
       v_sockets := sockets x;
       v_terminate := terminate (this x);
       v_connected := isConnected (this x);
       v_ws := ws (this x);
       v_keepAlive := keepAliveInterval (this x);
       v_ping := pingTimeout (this x);
       v_poll := eventPollInterval (this x) |}.
Proof.
  unfold top_level, on_pong, bind, get, clear_if_set, clearTimeout, ret, drop.
  destruct (pingTimeout (this x)) eqn:P; unfold view; cbn; rewrite ?P;
    reflexivity.
Qed.

Lemma keepAlive_probe_view x s :
  ws (this x) = Some s ->
  view (top_level keepAlive_probe x)
  = {| v_timers :=
         timers x ++
         [one_shot (next_timer x) TPingTimeout (clock x + EXPECTED_PONG_BACK)];
       v_next := S (next_timer x);
       v_sockets := sockets x;
       v_terminate := terminate (this x);
       v_connected := isConnected (this x);
       v_ws := ws (this x);
       v_keepAlive := keepAliveInterval (this x);
       v_ping := Some (next_timer x);
       v_poll := eventPollInterval (this x) |}.
Proof.
  intros Hws. unfold top_level, keepAlive_probe.
  erewrite bind_ok by reflexivity. rewrite Hws.
  unfold view. cbn. rewrite Hws. reflexivity.
Qed.

Lemma live_index k r s r' :
  nth_error (repeat CLOSED k ++ [r]) s = Some r' -> r' <> CLOSED ->
  s = k /\ r' = r.
Proof.
  intros H Hr. destruct (Nat.lt_trichotomy s k) as [Hlt|[->|Hgt]].
  - rewrite nth_error_app1 in H by (rewrite repeat_length; exact Hlt).
    apply nth_error_In, repeat_spec in H. congruence.
  - rewrite nth_error_last in H. split; congruence.
  - rewrite nth_error_app2 in H by (rewrite repeat_length; lia).
    rewrite repeat_length in H.
    destruct (s - k)%nat as [|[|n]] eqn:D; [lia | discriminate | discriminate].
Qed.

Lemma all_closed k s r : nth_error (repeat CLOSED k) s = Some r -> r = CLOSED.
Proof. intros H. apply nth_error_In, repeat_spec in H. exact H. Qed.

Lemma update_nth_end {A} (c r r' : A) k :
  update_nth k r' (repeat c k ++ [r]) = repeat c k ++ [r'].
Proof. induction k as [|k IH]; simpl; [reflexivity | rewrite IH; reflexivity]. Qed.

Lemma drop_nil h : drop h [] = [].
Proof. destruct h; reflexivity. Qed.

Ltac open_view :=
  cbn [view v_timers v_next v_sockets v_terminate v_connected v_ws
       v_keepAlive v_ping v_poll] in *.

Ltac by_cases_on_handles :=
  repeat (cbn [drop filter negb timer_id interval one_shot pong_timer app];
          match goal with
          | |- context [Nat.eqb ?x ?y] => destruct (Nat.eqb_spec x y)
          end);
  cbn [drop filter negb timer_id interval one_shot pong_timer app].

Lemma open_phase env w s w' :
  init_provider env <> InitThrows -> phase w ->
  step env w (SocketOpen s) = Some w' -> phase w'.
Proof.
  intros Hinit Hp. unfold phase in *. cbn [step]. intros H.
  destruct (nth_error (sockets w) s) as [[]|] eqn:N; inversion H; subst w';
    clear H.
  rewrite (on_open_view env _ Hinit), open_prelude_view.
  cbn [timers next_timer sockets this clock with_sockets].
  destruct Hp as [k Hs Hws Ht Hterm Hconn Hst
                 |k a b da db p Hs
                 |k r d Hs|k Hs]; open_view; rewrite Hs in N.
  - destruct (live_index _ _ _ _ N) as [-> _]; [discriminate|].
    eapply (Connected _ k (next_timer w) (S (next_timer w)) _ _ None);
      open_view; try reflexivity; try assumption; try lia.
    + rewrite Hs. apply update_nth_end.
    + rewrite Ht. reflexivity.
    + intros c Hc. apply Hst in Hc. open_view. lia.
  - destruct (live_index _ _ _ _ N) as [_ E]; discriminate.
  - apply all_closed in N; discriminate.
  - apply all_closed in N; discriminate.
Qed.

Lemma close_phase env w s w' :
  phase w -> step env w (SocketClose s) = Some w' -> phase w'.
Proof.
  intros Hp. unfold phase in *. cbn [step]. intros H.
  assert (G : forall r, nth_error (sockets w) s = Some r -> r <> CLOSED ->
              phase_of
                (view (top_level on_close
                         (with_sockets (update_nth s CLOSED (sockets w)) w)))).
  { clear H. intros r0 N Hr0.
    destruct Hp as [k Hs Hws Ht Hterm Hconn Hst
                   |k a b da db p Hs Hws Ht Hka Hpoll Hab Ha Hb Hpong Hterm Hconn
                   |k r d Hs|k Hs]; open_view; rewrite Hs in N.
    - destruct (live_index _ _ _ _ N Hr0) as [-> _].
      rewrite on_close_view by exact Hterm.
      cbn [timers next_timer sockets this clock with_sockets].
      rewrite Ht, !drop_nil, Hs, update_nth_last.
      eapply (Waiting _ (S k)); open_view; try reflexivity.
      intros c Hc. apply Hst in Hc. open_view. lia.
    - destruct (live_index _ _ _ _ N Hr0) as [-> _].
      rewrite on_close_view by exact Hterm.
      cbn [timers next_timer sockets this clock with_sockets].
      rewrite Ht, Hka, Hpoll, Hs, update_nth_last.
      assert (D : drop (Some b)
                    (drop (pingTimeout (this w))
                       (drop (Some a)
                          (interval a TKeepAlive da KEEP_ALIVE_CHECK_INTERVAL ::
                           interval b TEventPoll db EVENT_POLL_INTERVAL ::
                           pong_timer p))) = []).
      { destruct p as [[c dc]|]; unfold pong_ok in Hpong; open_view.
        - destruct Hpong as (-> & _). by_cases_on_handles;
            first [reflexivity | congruence].
        - destruct (pingTimeout (this w)); by_cases_on_handles;
            first [reflexivity | congruence]. }
      rewrite D.
      eapply (Waiting _ (S k)); open_view; try reflexivity.
      intros c Hc. destruct p as [[c0 dc]|]; unfold pong_ok in Hpong; open_view.
      + destruct Hpong as (E & _ & _ & Hlt & _). rewrite E in Hc.
        inversion Hc; subst. lia.
      + destruct (Hpong c Hc) as (_ & _ & Hlt). lia.
    - apply all_closed in N; contradiction.
    - apply all_closed in N; contradiction. }
  destruct (nth_error (sockets w) s) as [[]|] eqn:N; inversion H; subst w';
    eapply G; try reflexivity; discriminate.
Qed.

Lemma pong_phase env w s w' :
  phase w -> step env w (SocketPong s) = Some w' -> phase w'.
Proof.
  intros Hp. unfold phase in *. cbn [step]. intros H.
  destruct (nth_error (sockets w) s) as [[]|] eqn:N; inversion H; subst w';
    clear H.
  rewrite on_pong_view.
  destruct Hp as [k Hs Hws Ht Hterm Hconn Hst
                 |k a b da db p Hs Hws Ht Hka Hpoll Hab Ha Hb Hpong Hterm Hconn
                 |k r d Hs|k Hs]; open_view; rewrite Hs in N.
  - destruct (live_index _ _ _ _ N) as [_ E]; discriminate.
  - rewrite Ht.
    eapply (Connected _ k a b da db None); open_view; try eassumption.
    + destruct p as [[c dc]|]; unfold pong_ok in Hpong; open_view.
      * destruct Hpong as (-> & Hca & Hcb & _). by_cases_on_handles;
          first [reflexivity | congruence].
      * destruct (pingTimeout (this w)) as [c|] eqn:P; [|reflexivity].
        destruct (Hpong c eq_refl) as (Hca & Hcb & _).
        by_cases_on_handles; first [reflexivity | congruence].
    + destruct p as [[c dc]|]; unfold pong_ok in *; open_view.
      * destruct Hpong as (E & Hca & Hcb & Hlt & _).
        intros c' Hc'. rewrite E in Hc'. inversion Hc'; subst. auto.
      * exact Hpong.
  - apply all_closed in N; discriminate.
  - apply all_closed in N; discriminate.
Qed.

Lemma resolve_shape p y : view (exec (resolve p) y) = view y.
Proof.
  unfold exec, resolve; cbn [snd]. destruct (resolved y); reflexivity.
Qed.

(** A retry that fires with no socket left either gives up or starts the next
    socket. *)
Lemma retry_phase x k :
  sockets x = repeat CLOSED k -> timers x = [] ->
  terminate (this x) = false -> isConnected (this x) = false ->
  stale (view x) ->
  phase (top_level startConnection x).
Proof.
  intros Hs Ht Hterm Hconn Hst. unfold phase.
  rewrite startConnection_eq.
  destruct (reconnectionAttempts (this x) >=? MAX_RECONNECTION_ATTEMPTS).
  - rewrite resolve_shape.
    apply (Terminated _ k); cbn; assumption || reflexivity.
  - apply (Connecting _ k); cbn; try assumption.
    + rewrite Hs. reflexivity.
    + rewrite Hs, repeat_length. reflexivity.
Qed.

Lemma timer_phase env w id w' :
  phase w -> step env w (TimerFires id) = Some w' -> phase w'.
Proof.
  intros Hp. unfold phase in Hp.
  destruct Hp as [k Hs Hws Ht Hterm Hconn Hst
                 |k a b da db p Hs Hws Ht Hka Hpoll Hab Ha Hb Hpong Hterm Hconn
                 |k r d Hs Ht Hterm Hconn Hst
                 |k Hs Ht Hterm Hconn]; open_view.
  - cbn [step]. rewrite Ht. discriminate.
  - cbn [step]. rewrite Ht. unfold find_timer.
    cbn [find timer_id interval].
    destruct (Nat.eqb_spec a id) as [<-|Hna].
    + (* the keep-alive interval *)
      destruct p as [[c dc]|]; unfold pong_ok in Hpong; open_view.
      { destruct Hpong as (_ & _ & _ & _ & Hlt).
        cbn [earliest forallb due interval pong_timer one_shot].
        destruct (Z.leb_spec da dc); [lia|].
        rewrite !andb_false_r. discriminate. }
      destruct (earliest _ _); [|discriminate].
      intros H; inversion H; subst w'; clear H. unfold phase.
      cbn [kind interval timer_callback].
      erewrite keepAlive_probe_view by exact Hws.
      cbn [timers next_timer sockets this clock with_clock with_timers].
      eapply (Connected _ k a b _ db (Some (next_timer w, _))); open_view;
        try eassumption; try lia.
      * unfold rearm. cbn [period interval map timer_id pong_timer app].
        rewrite Nat.eqb_refl.
        destruct (Nat.eqb_spec b a); [congruence|]. reflexivity.
      * unfold pong_ok; open_view.
        repeat split; try lia.
        cbn [due interval]. unfold EXPECTED_PONG_BACK, KEEP_ALIVE_CHECK_INTERVAL.
        lia.
    + destruct (Nat.eqb_spec b id) as [<-|Hnb].
      * (* the polling interval *)
        destruct (earliest _ _); [|discriminate].
        intros H; inversion H; subst w'; clear H. unfold phase.
        cbn [kind interval timer_callback].
        rewrite (top_level_shape _ _ (eventPoll_tick_shape env)).
        eapply (Connected _ k a b da _ p); open_view; try eassumption.
        unfold rearm. cbn [period interval map timer_id].
        destruct (Nat.eqb_spec a b); [congruence|].
        rewrite Nat.eqb_refl.
        destruct p as [[c dc]|]; [|reflexivity].
        unfold pong_ok in Hpong; open_view.
        destruct Hpong as (_ & _ & Hcb & _).
        cbn [pong_timer map one_shot timer_id].
        destruct (Nat.eqb_spec c b); [congruence|]. reflexivity.
      * (* the pong timeout *)
        destruct p as [[c dc]|]; [|discriminate].
        cbn [pong_timer find one_shot timer_id].
        destruct (Nat.eqb_spec c id) as [<-|]; [|discriminate].
        destruct (earliest _ _); [|discriminate].
        intros H; inversion H; subst w'; clear H. unfold phase.
        cbn [kind one_shot timer_callback].
        rewrite (top_level_shape _ _ pingTimeout_expired_shape).
        unfold pong_ok in Hpong; open_view.
        destruct Hpong as (E & Hca & Hcb & Hlt & _).
        eapply (Connected _ k a b da db None); open_view; try eassumption.
        -- unfold rearm. cbn [period one_shot filter timer_id interval].
           destruct (Nat.eqb_spec a c); [congruence|].
           destruct (Nat.eqb_spec b c); [congruence|].
           rewrite Nat.eqb_refl. reflexivity.
        -- unfold pong_ok; open_view.
           intros c' Hc'. cbn in Hc'. rewrite E in Hc'.
           inversion Hc'; subst. auto.
  - intros H. apply (only_retry_fires env w r d id w' Ht) in H. subst w'.
    apply (retry_phase _ k); first [assumption | exact Hst | reflexivity].
  - cbn [step]. rewrite Ht. discriminate.
Qed.

Lemma step_phase env w ev w' :
  init_provider env <> InitThrows -> phase w ->
  step env w ev = Some w' -> phase w'.
Proof.
  intros Hinit Hp. destruct ev as [s|s|s|s|id|sel l].
  - apply open_phase; assumption.
  - apply close_phase; assumption.
  - cbn [step].
    destruct (nth_error (sockets w) s) as [[]|]; intros H; inversion H;
      subst w'; exact Hp.
  - apply pong_phase; assumption.
  - apply timer_phase; assumption.
  - cbn [step]. destruct (resolved w) as [[p|]|]; intros H; inversion H.
    unfold phase.
    rewrite (top_level_shape _ _ (provider_on_shape env p sel l)). exact Hp.
Qed.

Lemma boot_phase : phase boot.
Proof.
  apply (Connecting _ O); try reflexivity. intros c Hc; discriminate.
Qed.

Lemma run_phase evs : forall w w',
  init_never_throws evs -> phase w -> run w evs = Some w' -> phase w'.
Proof.
  induction evs as [|[env ev] rest IH]; simpl; intros w w' Hi Hp H.
  - inversion H; subst; exact Hp.
  - destruct (step env w ev) as [w1|] eqn:E; [|discriminate].
    inversion Hi as [|? ? Hhead Htail]; subst. simpl in Hhead.
    eapply IH; [exact Htail | eapply step_phase; eassumption | exact H].
Qed.

Lemma never_throws_spec evs : never_throws evs = true -> init_never_throws evs.
Proof.
  unfold never_throws, init_never_throws. rewrite forallb_forall, Forall_forall.
  intros H e He E. specialize (H e He). rewrite E in H. discriminate.
Qed.

Lemma reachable_phase evs w :
  run boot evs = Some w -> init_never_throws evs -> phase w.
Proof. intros Hrun Hi. exact (run_phase evs boot w Hi boot_phase Hrun). Qed.

Lemma closed_not_open k s :
  match nth_error (repeat CLOSED k) s with Some OPEN => true | _ => false end
  = false.
Proof.
  destruct (nth_error (repeat CLOSED k) s) as [r|] eqn:N; [|reflexivity].
  apply all_closed in N. subst r. reflexivity.
Qed.

Lemma socket_open_phase w :
  phase w ->
  socket_open w = true /\
  (exists k a b da db p,
     timers w
     = interval a TKeepAlive da KEEP_ALIVE_CHECK_INTERVAL ::
       interval b TEventPoll db EVENT_POLL_INTERVAL :: pong_timer p /\
     sockets w = repeat CLOSED k ++ [OPEN] /\
     keepAliveInterval (this w) = Some a /\
     eventPollInterval (this w) = Some b /\
     pong_ok (view w) a b da p /\
     isConnected (this w) = true) \/
  socket_open w = false /\ isConnected (this w) = false /\
  (timers w = [] \/ exists r d, timers w = [one_shot r TRetry d]).
Proof.
  intros Hp. unfold phase in Hp.
  destruct Hp as [k Hs Hws Ht Hterm Hconn Hst
                 |k a b da db p Hs Hws Ht Hka Hpoll Hab Ha Hb Hpong Hterm Hconn
                 |k r d Hs Ht Hterm Hconn Hst
                 |k Hs Ht Hterm Hconn]; open_view; unfold socket_open.
  - right. rewrite Hws, Hs, nth_error_last. auto.
  - left. rewrite Hws, Hs, nth_error_last. split; [reflexivity|].
    exists k, a, b, da, db, p. auto 10.
  - right. rewrite Hs. split; [|split; [exact Hconn | right; eauto]].
    destruct (ws (this w)); [apply closed_not_open | reflexivity].
  - right. rewrite Hs. split; [|split; [exact Hconn | left; exact Ht]].
    destruct (ws (this w)); [apply closed_not_open | reflexivity].
Qed.

(** As long as no initialization raises, the timers follow the socket: while
    the newest socket is open exactly one keep-alive interval and one polling
    interval are pending, at most one pong timeout, and no retry; otherwise
    none of the three is pending and at most one retry is. *)
Theorem timers_follow_the_socket evs w :
  run boot evs = Some w ->
  init_never_throws evs ->
  if socket_open w
  then (pending TKeepAlive w = 1 /\ pending TEventPoll w = 1 /\
        pending TPingTimeout w <= 1 /\ pending TRetry w = 0)%nat
  else (pending TKeepAlive w = 0 /\ pending TEventPoll w = 0 /\
        pending TPingTimeout w = 0 /\ pending TRetry w <= 1)%nat.
Proof.
  intros Hrun Hi.
  destruct (socket_open_phase w (reachable_phase evs w Hrun Hi))
    as [(-> & k & a & b & da & db & p & Ht & _)
       |(-> & _ & [Ht|(r & d & Ht)])];
    unfold pending; rewrite Ht.
  - destruct p as [[c dc]|]; cbn; lia.
  - cbn; lia.
  - cbn; lia.
Qed.

Lemma timers_follow_the_socket_witness :
  if socket_open (after three_polls)
  then (pending TKeepAlive (after three_polls) = 1 /\
        pending TEventPoll (after three_polls) = 1 /\
        pending TPingTimeout (after three_polls) <= 1 /\
        pending TRetry (after three_polls) = 0)%nat
  else (pending TKeepAlive (after three_polls) = 0 /\
        pending TEventPoll (after three_polls) = 0 /\
        pending TPingTimeout (after three_polls) = 0 /\
        pending TRetry (after three_polls) <= 1)%nat.
Proof.
  apply (timers_follow_the_socket three_polls).
  - vm_compute; reflexivity.
  - apply never_throws_spec. vm_compute; reflexivity.
Defined.

(** As long as no initialization raises, the handle of every pending
    keep-alive interval, polling interval and pong timeout is the one kept in
    its field, so that [cleanupConnection] stops it. *)
Theorem pending_timers_are_held evs w t :
  run boot evs = Some w ->
  init_never_throws evs ->
  In t (timers w) ->
  kind t <> TRetry ->
  handle_of (kind t) (this w) = Some (timer_id t).
Proof.
  intros Hrun Hi Hin Hk.
  destruct (socket_open_phase w (reachable_phase evs w Hrun Hi))
    as [(_ & k & a & b & da & db & p & Ht & _ & Hka & Hpoll & Hpong & _)
       |(_ & _ & [Ht|(r & d & Ht)])];
    rewrite Ht in Hin.
  - destruct Hin as [<-|[<-|Hin]]; [exact Hka | exact Hpoll |].
    destruct p as [[c dc]|]; [|destruct Hin].
    destruct Hin as [<-|[]]. destruct Hpong as (E & _). exact E.
  - destruct Hin.
  - destruct Hin as [<-|[]]. contradiction Hk. reflexivity.
Qed.

Lemma pending_timers_are_held_witness :
  handle_of (kind (one_shot 2%nat TPingTimeout 75000))
    (this (after [(healthy 0, SocketOpen O);
                  (healthy 0, TimerFires keepAlive_timer)]))
  = Some (timer_id (one_shot 2%nat TPingTimeout 75000)).
Proof.
  apply (pending_timers_are_held
           [(healthy 0, SocketOpen O); (healthy 0, TimerFires keepAlive_timer)]).
  - vm_compute; reflexivity.
  - apply never_throws_spec. vm_compute; reflexivity.
  - vm_compute. right; right; left; reflexivity.
  - discriminate.
Defined.

(** As long as no initialization raises, [isConnected] says whether the
    newest socket is open. *)
Theorem isConnected_tracks_the_socket evs w :
  run boot evs = Some w ->
  init_never_throws evs ->
  isConnected (this w) = socket_open w.
Proof.
  intros Hrun Hi.
  destruct (socket_open_phase w (reachable_phase evs w Hrun Hi))
    as [(-> & k & a & b & da & db & p & _ & _ & _ & _ & _ & ->)
       |(-> & -> & _)]; reflexivity.
Qed.

Lemma isConnected_tracks_the_socket_witness :
  isConnected (this (after kept_alive_then_lost))
  = socket_open (after kept_alive_then_lost).
Proof.
  apply (isConnected_tracks_the_socket kept_alive_then_lost).
  - vm_compute; reflexivity.
  - apply never_throws_spec. vm_compute; reflexivity.
Defined.

(** As long as no initialization raises, only the newest socket can be
    alive: a socket that has not closed is the one in [ws], every socket
    created before it has closed, and no retry is pending beside it. *)
Theorem only_the_newest_socket_is_alive evs w s r :
  run boot evs = Some w ->
  init_never_throws evs ->
  nth_error (sockets w) s = Some r ->
  r <> CLOSED ->
  ws (this w) = Some s /\ S s = List.length (sockets w) /\
  pending TRetry w = 0%nat.
Proof.
  intros Hrun Hi N Hr.
  pose proof (reachable_phase evs w Hrun Hi) as Hp. unfold phase in Hp.
  destruct Hp as [k Hs Hws Htm Hterm Hconn Hst
                 |k a b da db p Hs Hws Htm Hka Hpoll Hab Ha Hb Hpong Hterm Hconn
                 |k r0 d Hs Htm Hterm Hconn Hst
                 |k Hs Htm Hterm Hconn]; open_view; rewrite Hs in N.
  - destruct (live_index _ _ _ _ N Hr) as [-> _].
    unfold pending. rewrite Hs, Htm, length_app, repeat_length.
    cbn. split; [exact Hws | split; [lia | reflexivity]].
  - destruct (live_index _ _ _ _ N Hr) as [-> _].
    unfold pending. rewrite Hs, Htm, length_app, repeat_length.
    destruct p as [[c dc]|]; cbn; (split; [exact Hws | split; [lia | reflexivity]]).
  - apply all_closed in N; contradiction.
  - apply all_closed in N; contradiction.
Qed.

Lemma only_the_newest_socket_is_alive_witness :
  ws (this (after [(healthy 0, SocketClose O); (healthy 0, TimerFires O)]))
  = Some 1%nat /\
  2%nat
  = List.length
      (sockets (after [(healthy 0, SocketClose O); (healthy 0, TimerFires O)])) /\
  pending TRetry (after [(healthy 0, SocketClose O); (healthy 0, TimerFires O)])
  = 0%nat.
Proof.
  apply (only_the_newest_socket_is_alive
           [(healthy 0, SocketClose O); (healthy 0, TimerFires O)]
           (after [(healthy 0, SocketClose O); (healthy 0, TimerFires O)])
           1%nat CONNECTING).
  - vm_compute; reflexivity.
  - apply never_throws_spec. vm_compute; reflexivity.
  - vm_compute; reflexivity.
  - discriminate.
Defined.

(** *** After the instance has given up *)








(** ** Edge cases of the polling and of [cleanupConnection] *)

(** When [getBlockNumber] raises, the polling cycle ends there: no
    subscription is looked at, nothing is queried or delivered, no field of
    the instance changes, and the error is caught nowhere: it leaves the
    interval callback as an unhandled rejection. *)
Theorem failed_block_number_skips_the_cycle env w id t e w' :
  find_timer id (timers w) = Some t ->
  kind t = TEventPoll ->
  provider (this w) <> None ->
  getBlockNumber env = Throw e ->
  step env w (TimerFires id) = Some w' ->
  trace w' = trace w ++ [GetBlockNumber; Unhandled e] /\
  this w' = this w /\ sockets w' = sockets w /\ resolved w' = resolved w.
Proof.
  intros Hf Hk Hp He. cbn [step]. rewrite Hf.
  destruct (earliest t (timers w)); [|discriminate].
  intros H; inversion H; subst w'; clear H.
  rewrite Hk. cbn [timer_callback]. unfold top_level.
  rewrite eventPoll_tick_eq. cbn [this with_clock with_timers].
  destruct (provider (this w)); [|congruence].
  rewrite (pollEvents_no_block_number _ _ _ He).
  unfold exec, emit. cbn. rewrite <- app_assoc. auto.
Qed.

Lemma failed_block_number_skips_the_cycle_witness :
  trace (after (subscribe_all [sub "0xA" 1%nat] ++
                [(no_block_number, TimerFires poll_timer)]))
  = trace (after (subscribe_all [sub "0xA" 1%nat])) ++
    [GetBlockNumber; Unhandled ErrBlockNumber] /\
  this (after (subscribe_all [sub "0xA" 1%nat] ++
               [(no_block_number, TimerFires poll_timer)]))
  = this (after (subscribe_all [sub "0xA" 1%nat])) /\
  sockets (after (subscribe_all [sub "0xA" 1%nat] ++
                  [(no_block_number, TimerFires poll_timer)]))
  = sockets (after (subscribe_all [sub "0xA" 1%nat])) /\
  resolved (after (subscribe_all [sub "0xA" 1%nat] ++
                   [(no_block_number, TimerFires poll_timer)]))
  = resolved (after (subscribe_all [sub "0xA" 1%nat])).
Proof.
  apply (failed_block_number_skips_the_cycle no_block_number
           (after (subscribe_all [sub "0xA" 1%nat])) poll_timer
           (interval poll_timer TEventPoll 60000 60000) ErrBlockNumber).
  - vm_compute; reflexivity.
  - reflexivity.
  - vm_compute; discriminate.
  - reflexivity.
  - vm_compute; reflexivity.
Defined.

(** Until the open handler has built a provider, the polling interval fires
    without effect: the node is not asked anything and no field changes. *)
Theorem no_polling_before_a_provider evs w env id t w' :
  run boot evs = Some w ->
  new_providers (trace w) = [] ->
  find_timer id (timers w) = Some t ->
  kind t = TEventPoll ->
  step env w (TimerFires id) = Some w' ->
  trace w' = trace w /\ this w' = this w.
Proof.
  intros Hrun Hn Hf Hk.
  destruct (run_promise evs boot w boot_promise Hrun) as (_ & Hp & _).
  unfold provider_is_newest in Hp. rewrite Hn in Hp. cbn in Hp.
  cbn [step]. rewrite Hf.
  destruct (earliest t (timers w)); [|discriminate].
  intros H; inversion H; subst w'; clear H.
  rewrite Hk. cbn [timer_callback]. unfold top_level.
  rewrite eventPoll_tick_eq. cbn [this with_clock with_timers].
  rewrite Hp. split; reflexivity.
Qed.

Lemma no_polling_before_a_provider_witness :
  trace (after [(never_ready, SocketOpen O);
                (healthy 5, TimerFires poll_timer)])
  = trace (after [(never_ready, SocketOpen O)]) /\
  this (after [(never_ready, SocketOpen O);
               (healthy 5, TimerFires poll_timer)])
  = this (after [(never_ready, SocketOpen O)]).
Proof.
  apply (no_polling_before_a_provider [(never_ready, SocketOpen O)]
           (after [(never_ready, SocketOpen O)]) (healthy 5) poll_timer
           (interval poll_timer TEventPoll 60000 60000)).
  - vm_compute; reflexivity.
  - vm_compute; reflexivity.
  - vm_compute; reflexivity.
  - reflexivity.
  - vm_compute; reflexivity.
Defined.

Lemma filter_all {A} (f : A -> bool) l :
  (forall x, In x l -> f x = true) -> filter f l = l.
Proof.
  induction l as [|x l IH]; simpl; intros H; [reflexivity|].
  rewrite (H x (or_introl eq_refl)), IH; auto.
Qed.

Lemma drop_In h t ts :
  In t (drop h ts) <->
  In t ts /\ match h with Some id => Nat.eqb (timer_id t) id | None => false end
             = false.
Proof.
  destruct h as [id|]; simpl; [|tauto].
  rewrite filter_In, negb_true_iff. tauto.
Qed.

Lemma drop_again h ts ts' :
  (forall t, In t ts' -> In t (drop h ts)) -> drop h ts' = ts'.
Proof.
  intros H. destruct h as [id|]; simpl in *; [|reflexivity].
  apply filter_all. intros t Ht. apply H, filter_In in Ht. tauto.
Qed.

(** [cleanupConnection] never raises; it removes from the pending timers
    exactly those whose handle is kept in [keepAliveInterval], [pingTimeout]
    or [eventPollInterval], and changes no field: the three handles stay in
    place.  Doing it a second time removes nothing more. *)
Theorem cleanupConnection_clears_what_is_held y :
  fst (cleanupConnection y) = Ok tt /\
  this (exec cleanupConnection y) = this y /\
  (forall t, In t (timers (exec cleanupConnection y)) <->
             In t (timers y) /\ held (this y) (timer_id t) = false) /\
  timers (exec cleanupConnection (exec cleanupConnection y))
  = timers (exec cleanupConnection y).
Proof.
  split; [apply cleanupConnection_returns|].
  destruct (cleanup_fields y) as (Ht & Hthis & _).
  destruct (cleanup_fields (exec cleanupConnection y)) as (Ht' & _).
  unfold exec in *. cbn zeta in *.
  split; [exact Hthis|]. split.
  - intros t. rewrite Ht, !drop_In. unfold held.
    rewrite !orb_false_iff. tauto.
  - rewrite Ht', Hthis.
    set (ts := timers (snd (cleanupConnection y))) in *.
    assert (H3 : forall t, In t ts ->
                   In t (drop (keepAliveInterval (this y)) (timers y)) /\
                   In t (drop (pingTimeout (this y)) (timers y)) /\
                   In t (drop (eventPollInterval (this y)) (timers y))).
    { intros t Hin. rewrite Ht in Hin. rewrite !drop_In in *. tauto. }
    rewrite (drop_again (keepAliveInterval (this y)) (timers y) ts)
      by (intros t Hin; apply (H3 t Hin)).
    rewrite (drop_again (pingTimeout (this y)) (timers y) ts)
      by (intros t Hin; apply (H3 t Hin)).
    apply (drop_again (eventPollInterval (this y)) (timers y) ts).
    intros t Hin; apply (H3 t Hin).
Qed.

(** ** What the attempt counter counts *)

Lemma live_socket_not_terminated w s r :
  phase w -> nth_error (sockets w) s = Some r -> r <> CLOSED ->
  terminate (this w) = false.
Proof.
  intros Hp N Hr. unfold phase in Hp.
  destruct Hp as [k Hs Hws Htm Hterm Hconn Hst
                 |k a b da db p Hs Hws Htm Hka Hpoll Hab Ha Hb Hpong Hterm Hconn
                 |k r0 d Hs Htm Hterm Hconn Hst
                 |k Hs Htm Hterm Hconn]; open_view; try assumption;
    rewrite Hs in N; apply all_closed in N; contradiction.
Qed.

Lemma resolve_counter p y :
  reconnectionAttempts (this (exec (resolve p) y))
  = reconnectionAttempts (this y).
Proof. unfold exec, resolve; cbn [snd]. destruct (resolved y); reflexivity. Qed.

Lemma step_counts env w ev w' :
  init_provider env <> InitThrows -> phase w ->
  step env w ev = Some w' ->
  reconnectionAttempts (this w')
  = count_event (reconnectionAttempts (this w)) ev.
Proof.
  intros Hinit Hp.
  destruct ev as [s|s|s|s|id|sel l]; cbn [step count_event]; intros H.
  - destruct (nth_error (sockets w) s) as [[]|]; inversion H; subst w'.
    apply on_open_counter. exact Hinit.
  - assert (G : forall r, nth_error (sockets w) s = Some r -> r <> CLOSED ->
                reconnectionAttempts
                  (this (top_level on_close
                           (with_sockets (update_nth s CLOSED (sockets w)) w)))
                = reconnectionAttempts (this w) + 1).
    { intros r N Hr.
      destruct (on_close_counter
                  (with_sockets (update_nth s CLOSED (sockets w)) w))
        as [Hc _].
      rewrite Hc. cbn [this with_sockets].
      rewrite (live_socket_not_terminated w s r Hp N Hr). reflexivity. }
    destruct (nth_error (sockets w) s) as [[]|] eqn:N; inversion H; subst w';
      eapply G; try reflexivity; discriminate.
  - destruct (nth_error (sockets w) s) as [[]|]; inversion H; subst w';
      reflexivity.
  - destruct (nth_error (sockets w) s) as [[]|]; inversion H; subst w'.
    apply (proj1 (top_level_counter on_pong w on_pong_counter)).
  - destruct (find_timer id (timers w)) as [t|]; [|discriminate].
    destruct (earliest t (timers w)); inversion H; subst w'; clear H.
    destruct (kind t) eqn:K.
    + cbn [timer_callback]. rewrite startConnection_eq.
      cbn [this with_clock with_timers].
      destruct (reconnectionAttempts (this w) >=? MAX_RECONNECTION_ATTEMPTS).
      * rewrite resolve_counter. reflexivity.
      * reflexivity.
    + eapply eq_trans;
        [apply (top_level_counter (timer_callback env TKeepAlive));
         apply timer_callback_counter; discriminate
        |reflexivity].
    + eapply eq_trans;
        [apply (top_level_counter (timer_callback env TPingTimeout));
         apply timer_callback_counter; discriminate
        |reflexivity].
    + eapply eq_trans;
        [apply (top_level_counter (timer_callback env TEventPoll));
         apply timer_callback_counter; discriminate
        |reflexivity].
  - destruct (resolved w) as [[p|]|]; inversion H; subst w'.
    apply (proj1 (top_level_counter (provider_on env p sel l) w
                    (provider_on_counter env p sel l))).
Qed.

Lemma run_counts evs : forall w w',
  init_never_throws evs -> phase w -> run w evs = Some w' ->
  reconnectionAttempts (this w')
  = closes_since_open (reconnectionAttempts (this w)) evs.
Proof.
  unfold closes_since_open.
  induction evs as [|[env ev] rest IH]; simpl; intros w w' Hi Hp H.
  - inversion H; subst; reflexivity.
  - destruct (step env w ev) as [w1|] eqn:E; [|discriminate].
    inversion Hi as [|? ? Hhead Htail]; subst. simpl in Hhead.
    rewrite (IH w1 w' Htail (step_phase _ _ _ _ Hhead Hp E) H).
    rewrite (step_counts _ _ _ _ Hhead Hp E). reflexivity.
Qed.

(** As long as no initialization raises, [reconnectionAttempts] is the number
    of "close" events since the last "open" event: the loss of a working
    connection is counted like a failed attempt, and nothing but an "open"
    takes anything off the count. *)
Theorem attempts_count_the_closes evs w :
  run boot evs = Some w ->
  init_never_throws evs ->
  reconnectionAttempts (this w) = closes_since_open 0 evs.
Proof.
  intros Hrun Hi. exact (run_counts evs boot w Hi boot_phase Hrun).
Qed.

Lemma attempts_count_the_closes_witness :
  reconnectionAttempts
    (this (after (kept_alive_then_lost ++
                  [(healthy 7, TimerFires 4%nat);
                   (healthy 7, SocketClose 1%nat)])))
  = closes_since_open 0
      (kept_alive_then_lost ++
       [(healthy 7, TimerFires 4%nat); (healthy 7, SocketClose 1%nat)]).
Proof.
  apply (attempts_count_the_closes
           (kept_alive_then_lost ++
            [(healthy 7, TimerFires 4%nat); (healthy 7, SocketClose 1%nat)])).
  - vm_compute; reflexivity.
  - apply never_throws_spec. vm_compute; reflexivity.
Defined.

(** ** Delivery by a healthy node *)

Lemma lone_poll_all env cur subs s x :
  filter polled_sub subs = [s] ->
  poll_all env cur subs x = exec (poll_subscription env cur s) x.
Proof.
  induction subs as [|s0 rest IH]; simpl; intros H; [discriminate|].
  change (poll_all env cur (s0 :: rest) x)
    with (poll_all env cur rest (exec (poll_subscription env cur s0) x)).
  unfold polled_sub at 1 in H. destruct (polled (type s0)) eqn:P.
  - injection H as E F. subst s0.
    apply poll_all_unpolled; exact F.
  - rewrite (unpolled_idle env cur s0 x P). apply IH; exact H.
Qed.

Lemma all_return_serves chain l env logs :
  serves chain l env -> all_return env l logs = true.
Proof.
  intros [_ H]. unfold all_return. apply forallb_forall. intros g _.
  rewrite H. reflexivity.
Qed.

(** One cycle against a node that serves [chain]: the logs of the range are
    delivered and the watermark is the block number answered. *)
Lemma healthy_cycle chain a s env c w :
  filter polled_sub (subscriptions (this w)) = [s] ->
  is_address (type s) = Some a ->
  serves chain (listener s) env ->
  getBlockNumber env = Ok c ->
  calls (trace (top_level (pollEvents env) w))
  = calls (trace w) ++
    map (pair (listener s)) (logs_between chain a (last_of w) c) /\
  last_of (top_level (pollEvents env) w) = c /\
  subscriptions (this (top_level (pollEvents env) w)) = subscriptions (this w).
Proof.
  intros Hlone Ha Hserves Hc. unfold top_level.
  rewrite (pollEvents_cycle _ _ _ Hc). unfold poll_prefix.
  rewrite (lone_poll_all env c _ s _ Hlone). unfold exec at 1 3 5.
  rewrite (poll_address env c s a _ Ha). cbn [snd].
  cbn [exec emit snd this with_trace trace].
  fold (last_of w).
  rewrite (proj1 Hserves).
  change (chain_getLogs chain (filter_for a (last_of w) c))
    with (Ok (logs_between chain a (last_of w) c)).
  cbv iota beta.
  rewrite (proj2 (first_error_none env (listener s) _)
             (all_return_serves chain _ env _ Hserves)).
  cbn [trace with_trace with_this this last_of lastProcessedBlock
       set_lastProcessedBlock subscriptions].
  split; [|split; reflexivity].
  rewrite <- app_assoc, !calls_app. cbn [calls flat_map app].
  rewrite calls_calls. reflexivity.
Qed.

Lemma failed_cycle env e w :
  getBlockNumber env = Throw e ->
  calls (trace (top_level (pollEvents env) w)) = calls (trace w) /\
  last_of (top_level (pollEvents env) w) = last_of w /\
  subscriptions (this (top_level (pollEvents env) w)) = subscriptions (this w).
Proof.
  intros He. unfold top_level. rewrite (pollEvents_no_block_number _ _ _ He).
  unfold exec, emit. cbn. rewrite <- app_assoc, calls_app. cbn.
  rewrite app_nil_r. auto.
Qed.

Lemma filter_none {A} (f : A -> bool) l :
  (forall x, f x = false) -> filter f l = [].
Proof. intros H. induction l as [|x l IH]; simpl; [|rewrite H]; auto. Qed.

Lemma logs_between_empty chain a lo : logs_between chain a lo lo = [].
Proof.
  unfold logs_between, chain_getLogs, filter_for, logs_of.
  cbn [address fromBlock toBlock]. apply filter_none. intros g.
  destruct (Z.leb_spec (lo + 1) (blockNumber g));
    destruct (Z.leb_spec (blockNumber g) lo);
    rewrite ?andb_false_r; try reflexivity; lia.
Qed.

(** Two adjacent ranges hold the logs of their union, each once. *)
Lemma logs_between_split chain a lo mid hi :
  lo <= mid <= hi ->
  Permutation (logs_between chain a lo mid ++ logs_between chain a mid hi)
    (logs_between chain a lo hi).
Proof.
  intros H. unfold logs_between, chain_getLogs, filter_for, logs_of.
  cbn [address fromBlock toBlock].
  induction chain as [|g rest IH]; [constructor|].
  cbn [filter].
  destruct (String.eqb (log_address g) a); cbn [andb]; [|exact IH].
  destruct (Z.leb_spec (lo + 1) (blockNumber g));
    destruct (Z.leb_spec (blockNumber g) mid);
    destruct (Z.leb_spec (mid + 1) (blockNumber g));
    destruct (Z.leb_spec (blockNumber g) hi);
    cbn [andb app]; try lia; try exact IH.
  - apply perm_skip. exact IH.
  - apply Permutation_sym, Permutation_cons_app, Permutation_sym. exact IH.
Qed.

(** With a single address subscription, a node that holds [chain] and a
    listener that returns, polling delivers every log exactly once: after any
    number of cycles whose block numbers do not go down, what the listener
    was called with is, up to order, what a single query over all the blocks
    after the first watermark up to the last one returns.  A cycle in which
    the node cannot tell its block number is made up for by the next. *)
Theorem healthy_polling_delivers_each_log_once chain a s envs w :
  filter polled_sub (subscriptions (this w)) = [s] ->
  is_address (type s) = Some a ->
  Forall (serves chain (listener s)) envs ->
  nondecreasing (last_of w) envs ->
  last_of w <= last_of (poll_cycles envs w) /\
  Permutation (calls (trace (poll_cycles envs w)))
    (calls (trace w) ++
     map (pair (listener s))
       (logs_between chain a (last_of w) (last_of (poll_cycles envs w)))).
Proof.
  revert w. induction envs as [|env rest IH]; intros w Hlone Ha Hs Hn.
  - cbn [poll_cycles fold_left]. split; [lia|].
    rewrite logs_between_empty. cbn [map]. rewrite app_nil_r. reflexivity.
  - change (poll_cycles (env :: rest) w)
      with (poll_cycles rest (top_level (pollEvents env) w)).
    inversion Hs as [|? ? Hhead Htail]; subst.
    cbn [nondecreasing] in Hn.
    destruct (getBlockNumber env) as [c|e] eqn:Hc.
    + destruct Hn as [Hle Hn].
      destruct (healthy_cycle chain a s env c w Hlone Ha Hhead Hc)
        as (Hcalls & Hlast & Hsubs).
      destruct (IH (top_level (pollEvents env) w)) as [Hle' Hperm];
        [rewrite Hsubs; exact Hlone | exact Ha | exact Htail
        | rewrite Hlast; exact Hn |].
      rewrite Hlast in *. split; [lia|].
      rewrite Hperm, Hcalls, <- app_assoc, <- map_app.
      apply Permutation_app_head, Permutation_map.
      apply logs_between_split. lia.
    + destruct (failed_cycle env e w Hc) as (Hcalls & Hlast & Hsubs).
      destruct (IH (top_level (pollEvents env) w)) as [Hle' Hperm];
        [rewrite Hsubs; exact Hlone | exact Ha | exact Htail
        | rewrite Hlast; exact Hn |].
      rewrite Hlast, Hcalls in *. split; assumption.
Qed.

Lemma healthy_polling_delivers_each_log_once_witness :
  last_of (after (subscribe_all [sub "0xA" 1%nat]))
  <= last_of (poll_cycles three_cycles
                (after (subscribe_all [sub "0xA" 1%nat]))) /\
  Permutation
    (calls (trace (poll_cycles three_cycles
                     (after (subscribe_all [sub "0xA" 1%nat])))))
    (calls (trace (after (subscribe_all [sub "0xA" 1%nat]))) ++
     map (pair (listener (sub "0xA" 1%nat)))
       (logs_between small_chain "0xA"
          (last_of (after (subscribe_all [sub "0xA" 1%nat])))
          (last_of (poll_cycles three_cycles
                      (after (subscribe_all [sub "0xA" 1%nat])))))).
Proof.
  apply (healthy_polling_delivers_each_log_once small_chain "0xA"%string
           (sub "0xA" 1%nat) three_cycles
           (after (subscribe_all [sub "0xA" 1%nat]))).
  - vm_compute; reflexivity.
  - vm_compute; reflexivity.
  - repeat (constructor; [split; intros; reflexivity|]). constructor.
  - vm_compute. repeat split; discriminate.
Defined.

(** ** The watchdog while there is one generation of sockets *)

Lemma on_pong_trace x : trace (top_level on_pong x) = trace x.
Proof.
  unfold top_level, on_pong, bind, get, clear_if_set, clearTimeout, ret.
  destruct (pingTimeout (this x)); reflexivity.
Qed.

Lemma on_pong_timers x :
  timers (top_level on_pong x) = drop (pingTimeout (this x)) (timers x) /\
  next_timer (top_level on_pong x) = next_timer x.
Proof.
  pose proof (on_pong_view x) as H.
  split; [exact (f_equal v_timers H) | exact (f_equal v_next H)].
Qed.

(** In the connected phase a pong leaves the two intervals and nothing
    else. *)
Lemma pong_drops v a b da db p :
  pong_ok v a b da p ->
  drop (v_ping v)
    (interval a TKeepAlive da KEEP_ALIVE_CHECK_INTERVAL ::
     interval b TEventPoll db EVENT_POLL_INTERVAL :: pong_timer p)
  = [interval a TKeepAlive da KEEP_ALIVE_CHECK_INTERVAL;
     interval b TEventPoll db EVENT_POLL_INTERVAL].
Proof.
  intros Hpong. destruct p as [[c dc]|]; unfold pong_ok in Hpong.
  - destruct Hpong as (-> & Hca & Hcb & _). by_cases_on_handles;
      first [reflexivity | congruence].
  - destruct (v_ping v) as [c|] eqn:P; [|reflexivity].
    destruct (Hpong c eq_refl) as (Hca & Hcb & _).
    by_cases_on_handles; first [reflexivity | congruence].
Qed.

(** A keep-alive interval, a polling interval or a pong timeout is pending
    only while the socket in [ws] is open. *)
Lemma watchdog_socket w id t :
  phase w -> find_timer id (timers w) = Some t -> kind t <> TRetry ->
  exists s, ws (this w) = Some s /\ nth_error (sockets w) s = Some OPEN.
Proof.
  intros Hp Hf Hk. unfold phase in Hp.
  destruct Hp as [k Hs Hws Htm Hterm Hconn Hst
                 |k a b da db p Hs Hws Htm Hka Hpoll Hab Ha Hb Hpong Hterm Hconn
                 |k r d Hs Htm Hterm Hconn Hst
                 |k Hs Htm Hterm Hconn]; open_view; rewrite Htm in Hf.
  - discriminate.
  - exists k. split; [exact Hws|]. rewrite Hs. apply nth_error_last.
  - destruct (find_timer_some _ _ _ Hf) as [[<-|[]] _].
    contradiction Hk. reflexivity.
  - discriminate.
Qed.

(** A keep-alive interval fires only when no pong timeout is pending: the
    timeout of the probe before it is due earlier. *)
Lemma probe_fires_alone w id t :
  phase w -> find_timer id (timers w) = Some t -> kind t = TKeepAlive ->
  earliest t (timers w) = true ->
  pending TPingTimeout w = 0%nat.
Proof.
  intros Hp Hf Hk He. unfold phase in Hp. unfold pending.
  destruct Hp as [k Hs Hws Htm Hterm Hconn Hst
                 |k a b da db p Hs Hws Htm Hka Hpoll Hab Ha Hb Hpong Hterm Hconn
                 |k r d Hs Htm Hterm Hconn Hst
                 |k Hs Htm Hterm Hconn]; open_view; rewrite Htm in *;
    try reflexivity.
  destruct p as [[c dc]|]; [|reflexivity].
  exfalso. unfold pong_ok in Hpong. destruct Hpong as (_ & _ & _ & _ & Hlt).
  unfold find_timer in Hf. cbn [find timer_id interval pong_timer one_shot] in Hf.
  destruct (Nat.eqb a id).
  - inversion Hf; subst t.
    cbn [earliest forallb due interval pong_timer one_shot] in He.
    destruct (Z.leb_spec da dc); [lia|].
    rewrite !andb_false_r in He. discriminate.
  - destruct (Nat.eqb b id); [inversion Hf; subst t; discriminate|].
    destruct (Nat.eqb c id); [inversion Hf; subst t; discriminate|discriminate].
Qed.

(** As long as no initialization raises:
    - when the keep-alive interval (armed every 60 s) fires, no pong timeout
      is pending, a ping is sent on the socket in [ws], which is open, a
      one-shot timeout due 15 s later is armed and kept in [pingTimeout],
      and the next probe is due 60 s later;
    - when a pong arrives, no pong timeout is pending any more, nothing is
      terminated, and a timeout that was pending never fires later;
    - when the timeout fires, [terminate] is called once on the socket in
      [ws], which is open, and that timeout never fires again;
    - nothing but a firing pong timeout calls [terminate]. *)
Theorem keep_alive_watchdog_on_one_chain evs w :
  run boot evs = Some w ->
  init_never_throws evs ->
  (forall env id t w',
     find_timer id (timers w) = Some t -> kind t = TKeepAlive ->
     step env w (TimerFires id) = Some w' ->
     period t = Some KEEP_ALIVE_CHECK_INTERVAL /\
     pending TPingTimeout w = 0%nat /\
     exists s h,
       ws (this w) = Some s /\
       nth_error (sockets w) s = Some OPEN /\
       trace w' = trace w ++ [Ping s] /\
       pingTimeout (this w') = Some h /\
       find_timer h (timers w')
       = Some {| timer_id := h; kind := TPingTimeout;
                 due := clock w' + EXPECTED_PONG_BACK; period := None |} /\
       find_timer id (timers w')
       = Some {| timer_id := id; kind := TKeepAlive;
                 due := clock w' + KEEP_ALIVE_CHECK_INTERVAL;
                 period := Some KEEP_ALIVE_CHECK_INTERVAL |}) /\
  (forall env s w',
     step env w (SocketPong s) = Some w' ->
     pending TPingTimeout w' = 0%nat /\
     trace w' = trace w /\
     forall h th,
       find_timer h (timers w) = Some th -> kind th = TPingTimeout ->
       forall evs' wn, run w' evs' = Some wn ->
                       find_timer h (timers wn) = None) /\
  (forall env h th w',
     find_timer h (timers w) = Some th -> kind th = TPingTimeout ->
     step env w (TimerFires h) = Some w' ->
     exists s,
       ws (this w) = Some s /\
       nth_error (sockets w) s = Some OPEN /\
       trace w' = trace w ++ [Terminate s] /\
       terminations (trace w') = terminations (trace w) ++ [s] /\
       find_timer h (timers w') = None /\
       forall evs' wn, run w' evs' = Some wn ->
                       find_timer h (timers wn) = None) /\
  (forall env ev w',
     step env w ev = Some w' ->
     terminations (trace w') <> terminations (trace w) ->
     exists id t,
       ev = TimerFires id /\ find_timer id (timers w) = Some t /\
       kind t = TPingTimeout).
Proof.
  intros Hrun Hi.
  pose proof (reachable_phase evs w Hrun Hi) as Hphase.
  assert (Hsane : sane w) by (apply reachable_sane; exists evs; exact Hrun).
  destruct Hsane as [Htimers _].
  split; [|split; [|split]]; [| | |intros; eapply step_terminations; eassumption].
  - intros env id t w' Hf Hk Hstep.
    destruct (find_timer_some _ _ _ Hf) as [Hin Hid].
    destruct (Htimers t Hin) as [Hlt Harmed].
    unfold well_armed in Harmed. rewrite Hk in Harmed.
    destruct (watchdog_socket w id t Hphase Hf) as (s & Es & Hopen);
      [rewrite Hk; discriminate|].
    split; [exact Harmed|].
    cbn [step] in Hstep. rewrite Hf in Hstep.
    destruct (earliest t (timers w)) eqn:He; [|discriminate].
    split; [exact (probe_fires_alone w id t Hphase Hf Hk He)|].
    exists s, (next_timer w).
    split; [exact Es|]. split; [exact Hopen|].
    inversion Hstep; subst w'; clear Hstep. rewrite Hk. simpl timer_callback.
    unfold top_level. erewrite keepAlive_probe_eq by exact Es. simpl.
    split; [reflexivity|]. split; [reflexivity|].
    rewrite !find_timer_app.
    rewrite (find_timer_rearmed _ _ _ _ _ Hf Harmed), Hk.
    rewrite find_timer_rearm_fresh
      by (apply sane_fresh; split; [exact Htimers | congruence]).
    simpl. rewrite Nat.eqb_refl. split; reflexivity.
  - intros env s1 w' Hstep. cbn [step] in Hstep.
    destruct (nth_error (sockets w) s1) as [[]|] eqn:N; inversion Hstep;
      subst w'; clear Hstep.
    destruct (on_pong_timers w) as [Htm' Hnext'].
    split; [|split; [apply on_pong_trace|]].
    + unfold phase in Hphase. unfold pending. rewrite Htm'.
      destruct Hphase
        as [k Hs Hws Htm Hterm Hconn Hst
           |k a b da db p Hs Hws Htm Hka Hpoll Hab Ha Hb Hpong Hterm Hconn
           |k r d Hs Htm Hterm Hconn Hst
           |k Hs Htm Hterm Hconn]; open_view; rewrite Hs in N.
      * destruct (live_index _ _ _ _ N) as [_ E]; discriminate.
      * rewrite Htm.
        pose proof (pong_drops (view w) a b da db p Hpong) as D.
        cbn [view v_ping] in D. rewrite D. reflexivity.
      * apply all_closed in N; discriminate.
      * apply all_closed in N; discriminate.
    + intros h th Hf Hk evs' wn Hrun'.
      destruct (find_timer_some _ _ _ Hf) as [Hin Hid].
      destruct (Htimers th Hin) as [Hlt _]. rewrite Hid in Hlt.
      assert (Hheld : pingTimeout (this w) = Some h).
      { destruct (socket_open_phase w Hphase)
          as [(_ & k & a & b & da & db & p & Ht & _ & _ & _ & Hpong & _)
             |(_ & _ & [Ht|(r & d & Ht)])];
          rewrite Ht in Hin.
        - destruct Hin as [<-|[<-|Hin]]; try discriminate.
          destruct p as [[c dc]|]; [|destruct Hin].
          destruct Hin as [<-|[]]. destruct Hpong as (E & _).
          cbn in Hid. subst h. exact E.
        - destruct Hin.
        - destruct Hin as [<-|[]]. discriminate. }
      eapply run_gone; [| |exact Hrun'].
      * rewrite Hnext'. exact Hlt.
      * rewrite Htm', Hheld. apply find_timer_cleared.
  - intros env h th w' Hf Hk Hstep.
    destruct (find_timer_some _ _ _ Hf) as [Hin Hid].
    destruct (Htimers th Hin) as [Hlt Harmed]. rewrite Hid in Hlt.
    unfold well_armed in Harmed. rewrite Hk in Harmed.
    destruct (watchdog_socket w h th Hphase Hf) as (s & Es & Hopen);
      [rewrite Hk; discriminate|].
    exists s. split; [exact Es|]. split; [exact Hopen|].
    simpl in Hstep. rewrite Hf in Hstep.
    destruct (earliest th (timers w)); [|discriminate].
    inversion Hstep; subst w'; clear Hstep. rewrite Hk. simpl timer_callback.
    unfold top_level. erewrite pingTimeout_expired_eq by exact Es. simpl.
    assert (Hgone : find_timer h (rearm th (Z.max (clock w) (due th)) (timers w))
                    = None).
    { unfold rearm. rewrite Harmed, Hid. apply find_timer_cleared. }
    split; [reflexivity|]. split; [|split; [exact Hgone|]].
    + unfold terminations. rewrite flat_map_app. reflexivity.
    + intros evs' wn Hrun'. eapply run_gone; [| |exact Hrun']; simpl; assumption.
Qed.

Lemma keep_alive_watchdog_on_one_chain_witness :
  period (interval keepAlive_timer TKeepAlive 60000 60000)
  = Some KEEP_ALIVE_CHECK_INTERVAL /\
  pending TPingTimeout (after [(healthy 0, SocketOpen O)]) = 0%nat /\
  exists s h,
    ws (this (after [(healthy 0, SocketOpen O)])) = Some s /\
    nth_error (sockets (after [(healthy 0, SocketOpen O)])) s = Some OPEN /\
    trace (after [(healthy 0, SocketOpen O);
                  (healthy 0, TimerFires keepAlive_timer)])
    = trace (after [(healthy 0, SocketOpen O)]) ++ [Ping s] /\
    pingTimeout (this (after [(healthy 0, SocketOpen O);
                              (healthy 0, TimerFires keepAlive_timer)]))
    = Some h /\
    find_timer h (timers (after [(healthy 0, SocketOpen O);
                                 (healthy 0, TimerFires keepAlive_timer)]))
    = Some {| timer_id := h; kind := TPingTimeout;
              due := clock (after [(healthy 0, SocketOpen O);
                                   (healthy 0, TimerFires keepAlive_timer)])
                     + EXPECTED_PONG_BACK;
              period := None |} /\
    find_timer keepAlive_timer
      (timers (after [(healthy 0, SocketOpen O);
                      (healthy 0, TimerFires keepAlive_timer)]))
    = Some {| timer_id := keepAlive_timer; kind := TKeepAlive;
              due := clock (after [(healthy 0, SocketOpen O);
                                   (healthy 0, TimerFires keepAlive_timer)])
                     + KEEP_ALIVE_CHECK_INTERVAL;
              period := Some KEEP_ALIVE_CHECK_INTERVAL |}.
Proof.
  apply (proj1 (keep_alive_watchdog_on_one_chain
                  [(healthy 0, SocketOpen O)]
                  (after [(healthy 0, SocketOpen O)])
                  ltac:(vm_compute; reflexivity)
                  ltac:(apply never_throws_spec; vm_compute; reflexivity))
           (healthy 0) keepAlive_timer
           (interval keepAlive_timer TKeepAlive 60000 60000)
           (after [(healthy 0, SocketOpen O);
                   (healthy 0, TimerFires keepAlive_timer)]));
    vm_compute; reflexivity.
Defined.

(** ** C5: the watchdog after a failed initialization *)

(** C5 does not hold in the code.  When the initialization raises at the
    first open and the same socket closes, two retries fire (C9) and two
    sockets open; each open starts a keep-alive interval, and
    [keepAliveInterval] and [pingTimeout] hold one handle each.  Both
    intervals ping the socket in [ws], two pong timeouts are pending, and the
    pongs cancel only the one in [pingTimeout]: when the other fires the
    socket is terminated although it has answered every ping.  Without the
    pongs the socket is terminated twice. *)
Theorem C5_answered_socket_is_terminated :
  option_map
    (fun w => (ws (this w), nth_error (sockets w) 2, pings (trace w),
               pending TPingTimeout w, terminations (trace w)))
    (run boot two_watchdogs)
  = Some (Some 2%nat, Some OPEN, [2%nat; 2%nat], 2%nat, []) /\
  option_map (fun w => (pending TPingTimeout w, terminations (trace w)))
    (run boot (two_watchdogs ++ two_pongs))
  = Some (1%nat, []) /\
  option_map (fun w => terminations (trace w))
    (run boot (two_watchdogs ++ two_pongs ++ two_polls ++
               [(healthy 0, TimerFires 8%nat)]))
  = Some [2%nat] /\
  option_map (fun w => terminations (trace w))
    (run boot (two_watchdogs ++ two_polls ++
               [(healthy 0, TimerFires 8%nat); (healthy 0, TimerFires 9%nat)]))
  = Some [2%nat; 2%nat].
Proof. vm_compute. repeat split; reflexivity. Qed.

(** ** C1: attempts that fail in their initialization *)

(** C1 does not hold in the code.  The catch block of the open handler counts
    a failed initialization (line 95), but the handler has set the counter
    to 0 just before (line 63), so the count never passes 1: after ten
    attempts in a row that each open and fail in their initialization, the
    instance has not terminated, the promise of [connect()] is still
    pending, and the eleventh socket has been created, the ten before it
    still open. *)
Theorem C1_init_failures_never_reach_the_ceiling :
  exists w,
    rounds failed_attempt (Z.to_nat MAX_RECONNECTION_ATTEMPTS) boot w /\
    run boot ten_init_failures = Some w /\
    terminate (this w) = false /\
    resolved w = None /\
    reconnectionAttempts (this w) = 1 /\
    new_sockets (trace w) = seq 0 11 /\
    sockets w = repeat OPEN 10 ++ [CONNECTING].
Proof.
  exists (after ten_init_failures).
  split; [|vm_compute; repeat split; reflexivity].
  change (Z.to_nat MAX_RECONNECTION_ATTEMPTS) with 10%nat.
  do 10 (eapply rounds_S;
         [right; eapply init_failure_intro
            with (env1 := failing_init) (env2 := healthy 0);
          [reflexivity
          | reflexivity
          | lazy; reflexivity
          | match goal with
            | |- step _ ?x (TimerFires ?t) = _ =>
                let n := eval lazy in (Nat.pred (next_timer x)) in
                unify t n
            end; lazy; reflexivity]
         |]).
  match goal with
  | |- rounds _ _ ?a ?b =>
      assert (E : a = b) by (vm_compute; reflexivity); rewrite E
  end.
  apply rounds_O.
Qed.
